(** * sushi: lexer and operator-precedence parser

    A shallow embedding of [src/sushi/sushi.cpp].  The program keeps its
    whole state in file-level variables ([LastChar], [IdentifierStr],
    [NumVal], [CurTok], [BinopPrecedence]) and reads standard input one
    character at a time; here that state is one record threaded through
    every function, together with the unread part of standard input and
    the text written to standard error. *)

From Stdlib Require Import ZArith String Ascii List Lia Bool.
From Stdlib Require Import Floats.SpecFloat.
From stdpp Require Import base option strings gmap.
Import ListNotations.

Local Open Scope string_scope.
Local Open Scope Z_scope.

(** ** Characters

    [getchar] returns an [int]: the next byte as an [unsigned char]
    (0..255), or [EOF].  An [int] is modelled by [Z]; no arithmetic of the
    program can leave the 32-bit range except [TokPrec + 1] on an entry of
    the precedence table, which the program keeps small. *)

Definition EOF : Z := -1.

Definition chr (c : ascii) : Z := Z.of_N (N_of_ascii c).

(** Conversion of an [int] holding a character back to [char], as done by
    [IdentifierStr = LastChar], [NumStr += LastChar] and the constructor
    of [BinaryExprAST]: the value is reduced modulo 256. *)
Definition char_of_int (c : Z) : ascii := ascii_of_N (Z.to_N (c mod 256)).

(** The <ctype.h> classification in the "C" locale (the program never calls
    [setlocale]).  All of them answer 0 on [EOF]. *)
Definition isspace (c : Z) : bool :=
  (c =? chr " ") || ((9 <=? c) && (c <=? 13)).

Definition isdigit (c : Z) : bool :=
  (chr "0" <=? c) && (c <=? chr "9").

Definition isalpha (c : Z) : bool :=
  ((chr "A" <=? c) && (c <=? chr "Z")) || ((chr "a" <=? c) && (c <=? chr "z")).

Definition isalnum (c : Z) : bool := isalpha c || isdigit c.

Definition isascii (c : Z) : bool := (0 <=? c) && (c <=? 127).

(** ** Numbers

    A [double] is an IEEE 754 binary64 value. *)

Definition double : Type := spec_float.

Definition prec : Z := 53.
Definition emax : Z := 1024.

Definition digit_val (c : ascii) : Z := chr c - chr "0".

(** Reads the decimal digits at the head of [s]: the number read so far,
    how many digits were read, and the text left. *)
Fixpoint read_digits (acc : Z) (n : nat) (s : string) : Z * nat * string :=
  match s with
  | String c rest =>
      if isdigit (chr c) then read_digits (10 * acc + digit_val c) (S n) rest
      else (acc, n, s)
  | EmptyString => (acc, n, s)
  end.

(** [strtod] is the C library's, not the program's.  On the texts that
    [gettok] hands to it, which hold only digits and dots (no sign, no
    exponent, no blank), it converts the longest prefix of the form
    digits [. digits] that has at least one digit, rounding to the nearest
    binary64, ties to even, with infinity on overflow; when there is no
    such prefix ("." or "..5") no conversion is performed and the result
    is zero.  The decimal value [m / 10 ^ nf] is rounded once, by the
    division of [SpecFloat]. *)
Definition strtod (NumStr : string) : double :=
  let '(ip, ni, rest) := read_digits 0 0 NumStr in
  let '(m, nf) :=
    match rest with
    | String "."%char frac =>
        let '(m, nf, _) := read_digits ip 0 frac in (m, nf)
    | _ => (ip, 0%nat)
    end in
  match (ni + nf)%nat, m with
  | O, _ => S754_zero false
  | _, Zpos p =>
      SFdiv prec emax (S754_finite false p 0)
                      (S754_finite false (Z.to_pos (10 ^ Z.of_nat nf)) 0)
  | _, _ => S754_zero false
  end.

(** ** Tokens

    [enum Token]: the lexer returns one of these negative codes, or the
    character itself (0..255) for anything it does not know. *)

Definition EOFToken : Z := -1.
Definition DefToken : Z := -2.
Definition ExternToken : Z := -3.
Definition IdentifierToken : Z := -4.
Definition NumberToken : Z := -5.

(** ** Program state

    The file-level variables of the program, the unread standard input and
    the lines written to standard error. *)

Record state : Type := mkState {
  stdin : string;                  (* what [getchar] has not returned yet *)
  LastChar : Z;                    (* [static int LastChar] of [gettok] *)
  IdentifierStr : string;
  NumVal : double;
  CurTok : Z;
  BinopPrecedence : gmap Z Z;      (* [std::map<char, int>] *)
  stderr : list string;
  stdout : list string
}.

Definition set_lexer (c : Z) (rest : string) (s : state) : state :=
  mkState rest c (IdentifierStr s) (NumVal s) (CurTok s)
          (BinopPrecedence s) (stderr s) (stdout s).

Definition set_IdentifierStr (id : string) (s : state) : state :=
  mkState (stdin s) (LastChar s) id (NumVal s) (CurTok s)
          (BinopPrecedence s) (stderr s) (stdout s).

Definition set_NumVal (v : double) (s : state) : state :=
  mkState (stdin s) (LastChar s) (IdentifierStr s) v (CurTok s)
          (BinopPrecedence s) (stderr s) (stdout s).

Definition set_CurTok (t : Z) (s : state) : state :=
  mkState (stdin s) (LastChar s) (IdentifierStr s) (NumVal s) t
          (BinopPrecedence s) (stderr s) (stdout s).

Definition set_BinopPrecedence (m : gmap Z Z) (s : state) : state :=
  mkState (stdin s) (LastChar s) (IdentifierStr s) (NumVal s) (CurTok s)
          m (stderr s) (stdout s).

Definition fprintf_stderr (line : string) (s : state) : state :=
  mkState (stdin s) (LastChar s) (IdentifierStr s) (NumVal s) (CurTok s)
          (BinopPrecedence s) (stderr s ++ [line])%list (stdout s).

Definition cout (text : string) (s : state) : state :=
  mkState (stdin s) (LastChar s) (IdentifierStr s) (NumVal s) (CurTok s)
          (BinopPrecedence s) (stderr s) (stdout s ++ [text])%list.

(** The state in which [main] starts on standard input [inp]: [LastChar] is
    initialised to a space, the strings and the table are empty, the
    numbers are zero. *)
Definition initial (inp : string) : state :=
  mkState inp (chr " ") "" (S754_zero false) 0 ∅ [] [].

(** ** Lexer *)

(** [getchar()]: once the input is exhausted it answers [EOF] for ever. *)
Definition getchar (inp : string) : Z * string :=
  match inp with
  | String c rest => (chr c, rest)
  | EmptyString => (EOF, EmptyString)
  end.

(** [while (isspace(LastChar)) LastChar = getchar();] *)
Fixpoint skip_whitespace (LastChar : Z) (inp : string) : Z * string :=
  if isspace LastChar then
    match inp with
    | String c rest => skip_whitespace (chr c) rest
    | EmptyString => (EOF, EmptyString)      (* isspace(EOF) ends the loop *)
    end
  else (LastChar, inp).

(** [while (isalnum((LastChar = getchar()))) IdentifierStr += LastChar;] *)
Fixpoint scan_identifier (IdentifierStr : string) (inp : string)
  : string * Z * string :=
  match inp with
  | String c rest =>
      if isalnum (chr c)
      then scan_identifier (IdentifierStr +:+ String c "") rest
      else (IdentifierStr, chr c, rest)
  | EmptyString => (IdentifierStr, EOF, EmptyString)
  end.

(** [do { NumStr += LastChar; LastChar = getchar(); }
     while (isdigit(LastChar) || LastChar == '.');] *)
Fixpoint scan_number (NumStr : string) (LastChar : Z) (inp : string)
  : string * Z * string :=
  let NumStr := NumStr +:+ String (char_of_int LastChar) "" in
  match inp with
  | String c rest =>
      if isdigit (chr c) || (chr c =? chr ".")
      then scan_number NumStr (chr c) rest
      else (NumStr, chr c, rest)
  | EmptyString => (NumStr, EOF, EmptyString)
  end.

(** [do LastChar = getchar();
     while (LastChar != EOF && LastChar != '\n' && LastChar != '\r');] *)
Fixpoint skip_comment (inp : string) : Z * string :=
  match inp with
  | String c rest =>
      if negb (chr c =? 10) && negb (chr c =? 13)
      then skip_comment rest
      else (chr c, rest)
  | EmptyString => (EOF, EmptyString)
  end.

(** The last two statements of [gettok], reached when the character is
    neither a letter, a digit, a dot nor the start of a comment that is
    followed by more input. *)
Definition gettok_char (s : state) : Z * state :=
  if LastChar s =? EOF then (EOFToken, s)
  else
    let ThisChar := LastChar s in
    let '(c, rest) := getchar (stdin s) in
    (ThisChar, set_lexer c rest s).

(** [gettok]; it calls itself after a comment, which the fuel bounds. *)
Fixpoint gettok_rec (fuel : nat) (s : state) : option (Z * state) :=
  match fuel with
  | O => None
  | S fuel =>
      let s := (let '(c, rest) := skip_whitespace (LastChar s) (stdin s) in
                set_lexer c rest s) in
      if isalpha (LastChar s) then
        let '(id, c, rest) :=
          scan_identifier (String (char_of_int (LastChar s)) "") (stdin s) in
        let s := set_IdentifierStr id (set_lexer c rest s) in
        if String.eqb id "def" then Some (DefToken, s)
        else if String.eqb id "extern" then Some (ExternToken, s)
        else Some (IdentifierToken, s)
      else if isdigit (LastChar s) || (LastChar s =? chr ".") then
        let '(NumStr, c, rest) := scan_number "" (LastChar s) (stdin s) in
        let s := set_NumVal (strtod NumStr) (set_lexer c rest s) in
        Some (NumberToken, s)
      else if LastChar s =? chr "#" then
        let s := (let '(c, rest) := skip_comment (stdin s) in
                  set_lexer c rest s) in
        if negb (LastChar s =? EOF) then gettok_rec fuel s
        else Some (gettok_char s)
      else Some (gettok_char s)
  end.

(** Every call after a comment starts on a strictly shorter input, so one
    more unit of fuel than there are unread characters is always enough
    (see [gettok_rec_total]); [gettok] is the resulting total function. *)
Definition gettok (s : state) : Z * state :=
  match gettok_rec (S (String.length (stdin s))) s with
  | Some r => r
  | None => (EOFToken, s)
  end.

(** ** Abstract syntax *)

#[local] Set Warnings "-register-all".

Inductive ExprAST : Type :=
| NumberExprAST (Val : double)
| VariableExprAST (Name : string)
| BinaryExprAST (Op : ascii) (LHS RHS : ExprAST)
| CallExprAST (Callee : string) (Args : list ExprAST).

Record PrototypeAST : Type := mkPrototypeAST {
  Name : string;
  Args : list string
}.

Record FunctionAST : Type := mkFunctionAST {
  Proto : PrototypeAST;
  Body : ExprAST
}.

(** ** Current token and operator precedence *)

(** [static int getNextToken() { return CurTok = gettok(); }] *)
Definition getNextToken (s : state) : Z * state :=
  let '(t, s) := gettok s in (t, set_CurTok t s).

(** [std::map::operator[]]: a key that is absent is inserted with the
    value-initialised [int], 0, before its value is returned. *)
Definition subscript (m : gmap Z Z) (k : Z) : Z * gmap Z Z :=
  match m !! k with
  | Some v => (v, m)
  | None => (0, <[k := 0]> m)
  end.

Definition GetTokPrecedence (s : state) : Z * state :=
  if negb (isascii (CurTok s)) then (-1, s)
  else
    let '(TokPrec, m) := subscript (BinopPrecedence s) (CurTok s) in
    let s := set_BinopPrecedence m s in
    if TokPrec <=? 0 then (-1, s) else (TokPrec, s).

(** ** Errors

    A parse function answers a node, or [nullptr] ([None]) after writing
    one line to standard error. *)

Definition newline : string := String (ascii_of_nat 10) "".

Definition LogError (Str : string) (s : state) : option ExprAST * state :=
  (None, fprintf_stderr ("Error: " +:+ Str +:+ newline) s).

Definition LogErrorP (Str : string) (s : state)
  : option PrototypeAST * state :=
  let '(_, s) := LogError Str s in (None, s).

(** ** Parser

    The parse functions call each other and loop for as long as there are
    tokens; [fuel] bounds the depth of calls and iterations, and [None] at
    the outer level means that it ran out (see [parser_terminates]: four
    units per token still to come, and four more, are always enough). *)

Definition ParseNumberExpr (s : state) : option ExprAST * state :=
  let Result := NumberExprAST (NumVal s) in
  let '(_, s) := getNextToken s in
  (Some Result, s).

Fixpoint ParsePrimary (fuel : nat) (s : state) {struct fuel}
  : option (option ExprAST * state) :=
  match fuel with
  | O => None
  | S fuel =>
      if CurTok s =? IdentifierToken then ParseIdentifierExpr fuel s
      else if CurTok s =? NumberToken then Some (ParseNumberExpr s)
      else if CurTok s =? chr "(" then ParseParenExpr fuel s
      else Some (LogError "unknown token when expecting an expression" s)
  end

with ParseParenExpr (fuel : nat) (s : state) {struct fuel}
  : option (option ExprAST * state) :=
  match fuel with
  | O => None
  | S fuel =>
      let '(_, s) := getNextToken s in                 (* eat (. *)
      match ParseExpression fuel s with
      | None => None
      | Some (None, s) => Some (None, s)
      | Some (Some V, s) =>
          if negb (CurTok s =? chr ")") then Some (LogError "expected ')'" s)
          else
            let '(_, s) := getNextToken s in           (* eat ). *)
            Some (Some V, s)
      end
  end

with ParseIdentifierExpr (fuel : nat) (s : state) {struct fuel}
  : option (option ExprAST * state) :=
  match fuel with
  | O => None
  | S fuel =>
      let IdName := IdentifierStr s in
      let '(_, s) := getNextToken s in
      if negb (CurTok s =? chr "(") then Some (Some (VariableExprAST IdName), s)
      else
        (* Its a call *)
        let '(_, s) := getNextToken s in
        let Args := [] in
        match (if negb (CurTok s =? chr ")")
               then ParseCallArgs fuel Args s
               else Some (Some Args, s)) with
        | None => None
        | Some (None, s) => Some (None, s)
        | Some (Some Args, s) =>
            let '(_, s) := getNextToken s in
            Some (Some (CallExprAST IdName Args), s)
        end
  end

(** The [while (true)] loop of [ParseIdentifierExpr]: [Some Args] when it
    leaves by [break], [None] when it leaves by [return]. *)
with ParseCallArgs (fuel : nat) (Args : list ExprAST) (s : state)
  {struct fuel} : option (option (list ExprAST) * state) :=
  match fuel with
  | O => None
  | S fuel =>
      match ParseExpression fuel s with
      | None => None
      | Some (None, s) => Some (None, s)
      | Some (Some Arg, s) =>
          let Args := (Args ++ [Arg])%list in
          if CurTok s =? chr ")" then Some (Some Args, s)
          else if negb (CurTok s =? chr ",") then
            let '(_, s) := LogError "Expected ')' or ',' in argument list" s in
            Some (None, s)
          else
            let '(_, s) := getNextToken s in
            ParseCallArgs fuel Args s
      end
  end

with ParseBinOpRHS (fuel : nat) (ExprPrec : Z) (LHS : ExprAST) (s : state)
  {struct fuel} : option (option ExprAST * state) :=
  match fuel with
  | O => None
  | S fuel =>
      let '(TokPrec, s) := GetTokPrecedence s in
      if TokPrec <? ExprPrec then Some (Some LHS, s)
      else
        let BinOp := CurTok s in
        let '(_, s) := getNextToken s in
        match ParsePrimary fuel s with
        | None => None
        | Some (None, s) => Some (None, s)
        | Some (Some RHS, s) =>
            let '(NextPrec, s) := GetTokPrecedence s in
            match (if TokPrec <? NextPrec
                   then ParseBinOpRHS fuel (TokPrec + 1) RHS s
                   else Some (Some RHS, s)) with
            | None => None
            | Some (None, s) => Some (None, s)
            | Some (Some RHS, s) =>
                (* Merge LHS/RHS. *)
                ParseBinOpRHS fuel ExprPrec
                  (BinaryExprAST (char_of_int BinOp) LHS RHS) s
            end
        end
  end

with ParseExpression (fuel : nat) (s : state) {struct fuel}
  : option (option ExprAST * state) :=
  match fuel with
  | O => None
  | S fuel =>
      match ParsePrimary fuel s with
      | None => None
      | Some (None, s) => Some (None, s)
      | Some (Some LHS, s) => ParseBinOpRHS fuel 0 LHS s
      end
  end.

(** [while (getNextToken() == IdentifierToken)
       ArgNames.push_back(IdentifierStr);] *)
Fixpoint ParsePrototypeArgs (fuel : nat) (ArgNames : list string) (s : state)
  : option (list string * state) :=
  match fuel with
  | O => None
  | S fuel =>
      let '(t, s) := getNextToken s in
      if t =? IdentifierToken
      then ParsePrototypeArgs fuel (ArgNames ++ [IdentifierStr s])%list s
      else Some (ArgNames, s)
  end.

Definition ParsePrototype (fuel : nat) (s : state)
  : option (option PrototypeAST * state) :=
  if negb (CurTok s =? IdentifierToken)
  then Some (LogErrorP "Expected function name in prototype" s)
  else
    let FnName := IdentifierStr s in
    let '(_, s) := getNextToken s in
    if negb (CurTok s =? chr "(")
    then Some (LogErrorP "Expected '(' in prototype" s)
    else
      match ParsePrototypeArgs fuel [] s with
      | None => None
      | Some (ArgNames, s) =>
          if negb (CurTok s =? chr ")")
          then Some (LogErrorP "Expected ')' in prototype" s)
          else
            (* success *)
            let '(_, s) := getNextToken s in
            Some (Some (mkPrototypeAST FnName ArgNames), s)
      end.

Definition ParseDefinition (fuel : nat) (s : state)
  : option (option FunctionAST * state) :=
  let '(_, s) := getNextToken s in
  match ParsePrototype fuel s with
  | None => None
  | Some (None, s) => Some (None, s)
  | Some (Some Proto, s) =>
      match ParseExpression fuel s with
      | None => None
      | Some (Some E, s) => Some (Some (mkFunctionAST Proto E), s)
      | Some (None, s) => Some (None, s)
      end
  end.

Definition ParseTopLevelExpr (fuel : nat) (s : state)
  : option (option FunctionAST * state) :=
  match ParseExpression fuel s with
  | None => None
  | Some (Some E, s) =>
      (* Make an anonymous proto. *)
      let Proto := mkPrototypeAST "__anon_expr" [] in
      Some (Some (mkFunctionAST Proto E), s)
  | Some (None, s) => Some (None, s)
  end.

Definition ParseExtern (fuel : nat) (s : state)
  : option (option PrototypeAST * state) :=
  let '(_, s) := getNextToken s in
  ParsePrototype fuel s.

Definition HandleDefinition (fuel : nat) (s : state) : option state :=
  match ParseDefinition fuel s with
  | None => None
  | Some (Some _, s) =>
      Some (fprintf_stderr ("Parsed a function definition." +:+ newline) s)
  | Some (None, s) => let '(_, s) := getNextToken s in Some s
  end.

Definition HandleExtern (fuel : nat) (s : state) : option state :=
  match ParseExtern fuel s with
  | None => None
  | Some (Some _, s) => Some (fprintf_stderr ("Parsed an extern" +:+ newline) s)
  | Some (None, s) => let '(_, s) := getNextToken s in Some s
  end.

Definition HandleTopLevelExpression (fuel : nat) (s : state) : option state :=
  match ParseTopLevelExpr fuel s with
  | None => None
  | Some (Some _, s) =>
      Some (fprintf_stderr ("Parsed a top-level expr" +:+ newline) s)
  | Some (None, s) => let '(_, s) := getNextToken s in Some s
  end.

(** ** Driver *)

(** The four assignments at the head of [main]. *)
Definition install_operators (s : state) : state :=
  let m := BinopPrecedence s in
  let m := <[chr "<" := 10]> m in
  let m := <[chr "+" := 20]> m in
  let m := <[chr "-" := 20]> m in
  let m := <[chr "*" := 40]> m in                      (* highest. *)
  set_BinopPrecedence m s.

(** The [while (true)] loop of [main]; it ends when the current token is
    [EOFToken]. *)
Fixpoint main_loop (fuel : nat) (s : state) : option state :=
  match fuel with
  | O => None
  | S fuel =>
      let s := cout "> " s in
      if CurTok s =? EOFToken then Some s
      else if CurTok s =? chr ";" then
        let '(_, s) := getNextToken s in main_loop fuel s
      else if CurTok s =? DefToken then
        match HandleDefinition fuel s with
        | Some s => main_loop fuel s
        | None => None
        end
      else if CurTok s =? ExternToken then
        match HandleExtern fuel s with
        | Some s => main_loop fuel s
        | None => None
        end
      else
        match HandleTopLevelExpression fuel s with
        | Some s => main_loop fuel s
        | None => None
        end
  end.

Definition main (fuel : nat) (inp : string) : option state :=
  let s := install_operators (initial inp) in
  let s := cout "> " s in
  let '(_, s) := getNextToken s in
  main_loop fuel s.

(** * Vocabulary of the statements

    Nothing below belongs to the program: these are the measures,
    invariants and readings of its state in which the properties are
    stated. *)

(** ** The lexer and its input *)

(** The lexer only ever holds [EOF] or a byte in [LastChar]. *)
Definition lex_wf (s : state) : Prop := -1 <= LastChar s <= 255.

(** Characters still to be examined: the pending [LastChar], unless it is
    [EOF], and the unread input. *)
Definition pending (c : Z) (inp : string) : nat :=
  if c =? EOF then O else S (String.length inp).

Definition unread (s : state) : nat := pending (LastChar s) (stdin s).

(** What one call of [gettok] from [s] guarantees about the token [t] it
    returns and the state [s'] it leaves. *)
Record gettok_post (s : state) (t : Z) (s' : state) : Prop := {
  post_wf : lex_wf s';
  post_CurTok : CurTok s' = CurTok s;
  post_table : BinopPrecedence s' = BinopPrecedence s;
  post_stderr : stderr s' = stderr s;
  post_stdout : stdout s' = stdout s;
  post_at_eof : LastChar s = EOF -> t = EOFToken /\ s' = s;
  post_unread : LastChar s <> EOF -> (unread s' < unread s)%nat;
  post_eof : t = EOFToken -> LastChar s' = EOF;
  post_token : -5 <= t <= 255;
  post_identifier : t = IdentifierToken ->
    exists c tail, isalpha (chr c) = true /\ IdentifierStr s' = String c tail /\
                   IdentifierStr s' <> "def" /\ IdentifierStr s' <> "extern"
}.

(** The answer of [f] with [fuel] is also its answer with more. *)
Definition stable {A : Type} (f : nat -> option A) (fuel : nat) : Prop :=
  forall r, f fuel = Some r -> f (S fuel) = Some r.

(** ** Progress of the parser *)

(** Tokens still to come: twice the characters the lexer has not examined,
    plus one while the current token is not [EOFToken]. *)
Definition remaining (s : state) : nat :=
  (2 * unread s + (if (CurTok s =? EOFToken)%Z then 0 else 1))%nat.

(** The precedence that [GetTokPrecedence] reports for a character [k] of
    the table [m]. *)
Definition precedence (m : gmap Z Z) (k : Z) : Z :=
  match m !! k with
  | Some v => if v <=? 0 then -1 else v
  | None => -1
  end.

(** Two tables that give every character the same precedence: they differ
    at most in entries that are zero or negative, or absent. *)
Definition same_operators (m1 m2 : gmap Z Z) : Prop :=
  forall k, precedence m1 k = precedence m2 k.

(** A stretch of parsing that wrote nothing to standard error. *)
Record quiet (s s' : state) : Prop := {
  quiet_wf : lex_wf s';
  quiet_remaining : (remaining s' <= remaining s)%nat;
  quiet_table : same_operators (BinopPrecedence s') (BinopPrecedence s);
  quiet_stderr : stderr s' = stderr s;
  quiet_stdout : stdout s' = stdout s
}.

(** The line that [LogError] writes. *)
Definition error_line (msg : string) : string := "Error: " +:+ msg +:+ newline.

(** The outcome of a parse function: on success nothing was written to
    standard error (and, under [strict], at least one token was consumed);
    on failure exactly one error line was written, after which nothing
    else happened. *)
Definition parsed {A : Type} (strict : Prop) (s : state)
    (res : option A * state) : Prop :=
  match res with
  | (Some _, s') => quiet s s' /\ (strict -> (remaining s' < remaining s)%nat)
  | (None, s') =>
      exists s0 msg, quiet s s0 /\ s' = fprintf_stderr (error_line msg) s0
  end.

(** How much fuel is enough, in terms of the tokens still to come. *)
Definition terminate_at (n : nat) (s : state) : Prop :=
  (CurTok s <> EOFToken -> is_Some (ParseParenExpr (4 * n + 1) s)) /\
  (CurTok s <> EOFToken -> is_Some (ParseIdentifierExpr (4 * n + 1) s)) /\
  (forall p l, 0 <= p -> is_Some (ParseBinOpRHS (4 * n + 1) p l s)) /\
  is_Some (ParsePrimary (4 * n + 2) s) /\
  is_Some (ParseExpression (4 * n + 3) s) /\
  (forall a, is_Some (ParseCallArgs (4 * n + 4) a s)).

(** What a handler leaves behind: the lexer has moved on, and one line was
    written to standard error (the report of success, or the error). *)
Record handled (s s' : state) : Prop := {
  handled_wf : lex_wf s';
  handled_remaining : (remaining s' <= remaining s)%nat;
  handled_advance : CurTok s <> EOFToken -> (remaining s' < remaining s)%nat;
  handled_table : same_operators (BinopPrecedence s') (BinopPrecedence s);
  handled_stderr : exists line, stderr s' = (stderr s ++ [line])%list;
  handled_stdout : stdout s' = stdout s
}.

(** ** The layout of an input *)

(** Every character of [text] satisfies [p]. *)
Fixpoint all_chars (p : Z -> bool) (text : string) : bool :=
  match text with
  | String c rest => p (chr c) && all_chars p rest
  | EmptyString => true
  end.

(** The run of characters satisfying [p] ends where [rest] starts. *)
Definition ends_run (p : Z -> bool) (rest : string) : bool :=
  negb (p (fst (getchar rest))).

(** The characters that continue a number, and those that continue a
    comment (anything but a line feed or a carriage return). *)
Definition isnumeric (c : Z) : bool := isdigit c || (c =? chr ".").

Definition iscomment (c : Z) : bool := negb (c =? 10) && negb (c =? 13).

(** ** Tokens as the caller sees them *)

(** A token code together with the payload that [gettok] left in
    [IdentifierStr] or [NumVal]. *)
Inductive lexeme : Type :=
| Def
| Extern
| Identifier (text : string)
| Number (value : double)
| Char (c : ascii).

(** The token [t], read in the state [s] that [gettok] left. *)
Definition lexeme_of (t : Z) (s : state) : lexeme :=
  if t =? DefToken then Def
  else if t =? ExternToken then Extern
  else if t =? IdentifierToken then Identifier (IdentifierStr s)
  else if t =? NumberToken then Number (NumVal s)
  else Char (char_of_int t).

(** Calls [gettok] until it answers [EOFToken]. *)
Fixpoint lex (fuel : nat) (s : state) : option (list lexeme) :=
  match fuel with
  | O => None
  | S fuel =>
      let '(t, s) := gettok s in
      if t =? EOFToken then Some []
      else option_map (cons (lexeme_of t s)) (lex fuel s)
  end.

(** The binary64 value [d] is a nearest one to the fraction [num / den]. *)
Definition nearest_double (num den : Z) (d : double) : Prop :=
  match d with
  | S754_finite false m e =>
      2 ^ 52 <= Zpos m < 2 ^ 53 /\ e <= 0 /\
      2 * Z.abs (Zpos m * den - num * 2 ^ (- e)) <= den
  | _ => False
  end.

(** The state of the lexer after [n] calls of [gettok] on the input [inp]. *)
Definition lexer_after (n : nat) (inp : string) : state :=
  Nat.iter n (fun s => snd (gettok s)) (initial inp).

(** ** Parsing *)

(** The state in which a parse function is entered on the input [inp]:
    the operators are installed and the first token has been read, as
    [main] does before its loop. *)
Definition parser_start (tbl : gmap Z Z) (inp : string) : state :=
  snd (getNextToken (set_BinopPrecedence tbl (initial inp))).

(** What [GetTokPrecedence] answers in the state [s]. *)
Definition tok_precedence (s : state) : Z :=
  if isascii (CurTok s) then precedence (BinopPrecedence s) (CurTok s) else -1.

(** The operator characters of the binary nodes of a tree. *)
Fixpoint operators (e : ExprAST) : list ascii :=
  match e with
  | NumberExprAST _ => []
  | VariableExprAST _ => []
  | BinaryExprAST op l r => op :: operators l ++ operators r
  | CallExprAST _ args => concat (map operators args)
  end.

(** [c] has an entry with a positive precedence in the table [m]. *)
Definition is_operator (m : gmap Z Z) (c : ascii) : Prop :=
  exists v, m !! chr c = Some v /\ 0 < v.

(** The call [r] returned [nullptr], leaving the state [s']. *)
Definition fails {A : Type} (r : option (option A * state)) (s' : state) : Prop :=
  r = Some (None, s').

(** Everything in the state but the table of operators. *)
Definition table_blind (s : state) :=
  (stdin s, LastChar s, IdentifierStr s, NumVal s, CurTok s, stderr s, stdout s).

(** Two states that differ at most in table entries that are not
    operators (absent in one, zero or negative in the other). *)
Definition same_parse_state (s1 s2 : state) : Prop :=
  table_blind s1 = table_blind s2 /\
  same_operators (BinopPrecedence s1) (BinopPrecedence s2).

(** Two runs of a parse function that ended alike: the same node or the
    same failure, in states that differ at most in such entries. *)
Definition same_result {A : Type} (r1 r2 : option (option A * state)) : Prop :=
  match r1, r2 with
  | Some (a1, s1), Some (a2, s2) => a1 = a2 /\ same_parse_state s1 s2
  | None, None => True
  | _, _ => False
  end.

(** ** Further readings of the state *)

(** The lexer has seen the end of the input only when nothing is left of
    it. *)
Definition eof_empty (s : state) : Prop := LastChar s = EOF -> stdin s = "".

(** A text of the form [[a-zA-Z][a-zA-Z0-9]*]. *)
Definition identifier_text (text : string) : Prop :=
  exists c tail, text = String c tail /\ isalpha (chr c) = true /\
                 all_chars isalnum tail = true.

(** A text that [gettok] hands out with [IdentifierToken]. *)
Definition is_identifier (text : string) : Prop :=
  identifier_text text /\ text <> "def" /\ text <> "extern".

(** What one call of [gettok] guarantees about the payloads and about a
    token that is a character. *)
Record gettok_payload (s : state) (t : Z) (s' : state) : Prop := {
  payload_eof_empty : eof_empty s -> eof_empty s';
  payload_IdentifierStr :
    t <> DefToken -> t <> ExternToken -> t <> IdentifierToken ->
    IdentifierStr s' = IdentifierStr s;
  payload_NumVal : t <> NumberToken -> NumVal s' = NumVal s;
  payload_char :
    0 <= t ->
    isspace t = false /\ isalnum t = false /\ t <> chr "." /\ t <> chr "#";
  payload_identifier : t = IdentifierToken -> is_identifier (IdentifierStr s');
  payload_def : t = DefToken -> IdentifierStr s' = "def";
  payload_extern : t = ExternToken -> IdentifierStr s' = "extern"
}.

(** The current token, when it is an identifier, has its text in
    [IdentifierStr]. *)
Definition tok_wf (s : state) : Prop :=
  CurTok s = IdentifierToken -> is_identifier (IdentifierStr s).

(** The current token is [EOFToken] only when the lexer has seen the end
    of the input. *)
Definition eof_seen (s : state) : Prop := CurTok s = EOFToken -> LastChar s = EOF.

(** The table that [main] installs. *)
Definition main_table : gmap Z Z := BinopPrecedence (install_operators (initial "")).

(** Parameter names as a prototype lists them: each after a blank. *)
Fixpoint spaced (params : list string) : string :=
  match params with
  | [] => ""
  | p :: ps => " " +:+ p +:+ spaced ps
  end.

(** The text of a prototype: its name, then its parameters in
    parentheses. *)
Definition prototype_text (name : string) (params : list string) : string :=
  name +:+ "(" +:+ spaced params +:+ ")".

(** The state [s'] comes from [s] by the four ways in which the program
    changes its state outside [gettok]: reading a token, looking up a
    precedence, writing a line to standard error, writing to standard
    output. *)
Inductive reaches (s : state) : state -> Prop :=
| reaches_refl : reaches s s
| reaches_token s' : reaches s s' -> reaches s (snd (getNextToken s'))
| reaches_lookup s' : reaches s s' -> reaches s (snd (GetTokPrecedence s'))
| reaches_stderr s' line : reaches s s' -> reaches s (fprintf_stderr line s')
| reaches_stdout s' text : reaches s s' -> reaches s (cout text s').

(** The table [m'] holds every entry of [m] unchanged, and beyond them
    only ASCII characters mapped to 0. *)
Definition grown_by_zeros (m m' : gmap Z Z) : Prop :=
  forall k,
    match m !! k with
    | Some v => m' !! k = Some v
    | None => m' !! k = None \/ (m' !! k = Some 0 /\ 0 <= k <= 127)
    end.

(** The tree [e] is [lhs], or has it as its leftmost operand under
    operators of precedence [p] or more in the table [m]. *)
Inductive extends (m : gmap Z Z) (p : Z) (lhs : ExprAST) : ExprAST -> Prop :=
| extends_refl : extends m p lhs lhs
| extends_merge op e rhs :
    extends m p lhs e -> p <= precedence m (chr op) ->
    extends m p lhs (BinaryExprAST op e rhs).

(** The names that a tree refers to: variables and callees. *)
Fixpoint names (e : ExprAST) : list string :=
  match e with
  | NumberExprAST _ => []
  | VariableExprAST name => [name]
  | BinaryExprAST _ l r => names l ++ names r
  | CallExprAST callee args => callee :: concat (map names args)
  end.

(** ** Expressions as they are written *)

(** An expression as a text: a number by its literal, a variable, a
    binary expression in its parentheses, a call. *)
Inductive written : Type :=
| WNumber (literal : string)
| WVariable (name : string)
| WBinary (op : ascii) (lhs rhs : written)
| WCall (callee : string) (args : list written).

(** The items of a list, separated by a comma and a blank. *)
Fixpoint separated (items : list string) : string :=
  match items with
  | [] => ""
  | item :: rest =>
      match rest with
      | [] => item
      | _ :: _ => item +:+ ", " +:+ separated rest
      end
  end.

(** The text of a written expression. *)
Fixpoint show (w : written) : string :=
  match w with
  | WNumber literal => literal
  | WVariable name => name
  | WBinary op lhs rhs =>
      "(" +:+ show lhs +:+ " " +:+ String op (" " +:+ show rhs +:+ ")")
  | WCall callee args =>
      callee +:+ "(" +:+ separated (map show args) +:+ ")"
  end.

(** The tree that a written expression stands for. *)
Fixpoint tree (w : written) : ExprAST :=
  match w with
  | WNumber literal => NumberExprAST (strtod literal)
  | WVariable name => VariableExprAST name
  | WBinary op lhs rhs => BinaryExprAST op (tree lhs) (tree rhs)
  | WCall callee args => CallExprAST callee (map tree args)
  end.

(** A character that [gettok] returns as a token of its own, or the end
    of the input. *)
Definition own_token (c : Z) : bool :=
  negb (isspace c) && negb (isalpha c) && negb (isnumeric c) &&
  negb (c =? chr "#").

(** A character that can follow an operand without being taken for the
    start of its arguments, or the end of the input. *)
Definition closes (c : Z) : bool := own_token c && negb (c =? chr "(").

(** [GetTokPrecedence] answers a positive precedence on the token [t]
    with the table [m]. *)
Definition binds (m : gmap Z Z) (t : Z) : bool :=
  isascii t && (0 <? precedence m t).

(** Decidable forms of [is_identifier] and of the texts that [gettok]
    hands out with [NumberToken]. *)
Definition identifierb (text : string) : bool :=
  match text with
  | String c tail => isalpha (chr c) && all_chars isalnum tail
  | EmptyString => false
  end && negb (String.eqb text "def") && negb (String.eqb text "extern").

Definition literalb (text : string) : bool :=
  match text with
  | String c tail => isnumeric (chr c) && all_chars isnumeric tail
  | EmptyString => false
  end.

(** A written expression whose names are identifiers, whose literals are
    made of digits and dots, and whose operators are characters with a
    positive precedence in the table [m]. *)
Fixpoint well_written (m : gmap Z Z) (w : written) : bool :=
  match w with
  | WNumber literal => literalb literal
  | WVariable name => identifierb name
  | WBinary op lhs rhs =>
      closes (chr op) && binds m (chr op) &&
      well_written m lhs && well_written m rhs
  | WCall callee args => identifierb callee && forallb (well_written m) args
  end.

(** The lexer of [s] is about to examine [text], after blanks. *)
Definition at_text (s : state) (text : string) : Prop :=
  exists ws, all_chars isspace ws = true /\
             LastChar s = fst (getchar (ws +:+ text)) /\
             stdin s = snd (getchar (ws +:+ text)).

(** From [s] the parser came to [s'] without writing anything: the
    current token is [t], the lexer is about to examine [text], and the
    table has the same operators. *)
Record reads (s s' : state) (t : Z) (text : string) : Prop := {
  reads_CurTok : CurTok s' = t;
  reads_text : at_text s' text;
  reads_stderr : stderr s' = stderr s;
  reads_stdout : stdout s' = stdout s;
  reads_table : same_operators (BinopPrecedence s') (BinopPrecedence s)
}.

(** What the round trip says of the parse function [parse] entered on the
    first token of the written expression [w]: with enough fuel it
    answers the tree of [w], leaving the token [t] current and the lexer
    at [rest]. *)
Definition parses_to (parse : nat -> state -> option (option ExprAST * state))
    (s : state) (w : written) (t : Z) (rest : string) : Prop :=
  exists n s',
    (forall fuel, (n <= fuel)%nat ->
       parse fuel (snd (getNextToken s)) = Some (Some (tree w), s')) /\
    reads s s' t rest.

(** The round trip for [ParsePrimary]: [w] may be followed by blanks and
    then by a character that closes it, or by the end of the input. *)
Definition primary_ok (tbl : gmap Z Z) (w : written) : Prop :=
  forall s ws follow,
    same_operators (BinopPrecedence s) tbl ->
    at_text s (show w +:+ ws +:+ follow) ->
    all_chars isspace ws = true ->
    closes (fst (getchar follow)) = true ->
    parses_to ParsePrimary s w (fst (getchar follow)) (snd (getchar follow)).

(** The round trip for [ParseExpression]: what follows [w] is moreover
    no operator of the table. *)
Definition expression_ok (tbl : gmap Z Z) (w : written) : Prop :=
  forall s ws follow,
    same_operators (BinopPrecedence s) tbl ->
    at_text s (show w +:+ ws +:+ follow) ->
    all_chars isspace ws = true ->
    closes (fst (getchar follow)) = true ->
    binds tbl (fst (getchar follow)) = false ->
    parses_to ParseExpression s w (fst (getchar follow)) (snd (getchar follow)).

(** ** Programs as they are written *)

(** What [main] reads at the top level: a definition, an external
    declaration or an expression. *)
Inductive item : Type :=
| IDefinition (name : string) (params : list string) (body : written)
| IExtern (name : string) (params : list string)
| IExpression (w : written).

(** The text of an item; the parameters of a prototype are separated by
    blanks. *)
Definition show_item (i : item) : string :=
  match i with
  | IDefinition name params body =>
      "def " +:+ prototype_text name params +:+ " " +:+ show body
  | IExtern name params => "extern " +:+ prototype_text name params
  | IExpression w => show w
  end.

(** An item whose names are identifiers and whose expression is well
    written. *)
Definition well_formed (m : gmap Z Z) (i : item) : bool :=
  match i with
  | IDefinition name params body =>
      identifierb name && forallb identifierb params && well_written m body
  | IExtern name params => identifierb name && forallb identifierb params
  | IExpression w => well_written m w
  end.

(** The line that the handler of an item writes to standard error when
    its parse succeeds. *)
Definition report (i : item) : string :=
  match i with
  | IDefinition _ _ _ => "Parsed a function definition." +:+ newline
  | IExtern _ _ => "Parsed an extern" +:+ newline
  | IExpression _ => "Parsed a top-level expr" +:+ newline
  end.

(** The text of a program: every item is closed by a semicolon and a
    newline. *)
Fixpoint program (items : list item) : string :=
  match items with
  | [] => ""
  | i :: rest => show_item i +:+ ";" +:+ newline +:+ program rest
  end.

(** ** Chains of operands *)

(** The operands that follow a first one, each after its operator. *)
Definition chain : Type := list (ascii * written).

(** The text of a chain: a blank on either side of every operator. *)
Fixpoint show_chain (c : chain) : string :=
  match c with
  | [] => ""
  | (op, w) :: rest => " " +:+ String op (" " +:+ show w +:+ show_chain rest)
  end.

(** The operators of a chain have a positive precedence in the table [m]
    and its operands are well written. *)
Definition well_chained (m : gmap Z Z) (c : chain) : bool :=
  forallb (fun '(op, w) => closes (chr op) && binds m (chr op) &&
                           well_written m w) c.

(** A way of grouping the operands of a chain two by two. *)
Inductive grouping : Type :=
| Operand (w : written)
| Group (op : ascii) (l r : grouping).

(** The tree of a grouping. *)
Fixpoint grouped_tree (g : grouping) : ExprAST :=
  match g with
  | Operand w => tree w
  | Group op l r => BinaryExprAST op (grouped_tree l) (grouped_tree r)
  end.

(** The first operand of a grouping and the chain that follows it, read
    from left to right. *)
Fixpoint flatten (g : grouping) : written * chain :=
  match g with
  | Operand w => (w, [])
  | Group op l r =>
      (fst (flatten l),
       (snd (flatten l) ++ (op, fst (flatten r)) :: snd (flatten r))%list)
  end.

(** The precedence of the operator at the root of a grouping, if any. *)
Definition root (m : gmap Z Z) (g : grouping) : option Z :=
  match g with
  | Operand _ => None
  | Group op _ _ => Some (precedence m (chr op))
  end.

(** The grouping is an operand, or its root has a precedence of at
    least [p] (more than [p] when [strict]). *)
Definition above (strict : bool) (p : Z) (r : option Z) : bool :=
  match r with
  | None => true
  | Some q => if strict then p <? q else p <=? q
  end.

(** The grouping that precedence and left associativity ask for: at
    every operator, the left operand is grouped by operators that bind
    at least as tightly, and the right operand by operators that bind
    strictly tighter. *)
Fixpoint ordered (m : gmap Z Z) (g : grouping) : bool :=
  match g with
  | Operand _ => true
  | Group op l r =>
      ordered m l && ordered m r &&
      above false (precedence m (chr op)) (root m l) &&
      above true (precedence m (chr op)) (root m r)
  end.

(** The token at the head of what is left of a chain, the text after it,
    and the precedence that [GetTokPrecedence] answers on it. *)
Definition chain_head (c : chain) (follow : string) : Z :=
  match c with
  | [] => fst (getchar follow)
  | (op, _) :: _ => chr op
  end.

Definition chain_tail (c : chain) (ws follow : string) : string :=
  match c with
  | [] => snd (getchar follow)
  | (op, w) :: rest => " " +:+ show w +:+ show_chain rest +:+ ws +:+ follow
  end.

Definition head_prec (m : gmap Z Z) (c : chain) : Z :=
  match c with
  | [] => -1
  | (op, _) :: _ => precedence m (chr op)
  end.

(** The tree that groups a chain to the left, and the one that groups it
    to the right. *)
Definition tree_left (e : ExprAST) (c : chain) : ExprAST :=
  fold_left (fun e '(op, w) => BinaryExprAST op e (tree w)) c e.

Fixpoint tree_right (e : ExprAST) (c : chain) : ExprAST :=
  match c with
  | [] => e
  | (op, w) :: rest => BinaryExprAST op e (tree_right (tree w) rest)
  end.

(** No operator of the chain binds tighter than the one before it; every
    operator of the chain binds tighter than the one before it. *)
Fixpoint never_rises (m : gmap Z Z) (c : chain) : bool :=
  match c with
  | [] => true
  | (op, _) :: rest =>
      (head_prec m rest <=? precedence m (chr op)) && never_rises m rest
  end.

Fixpoint always_rises (m : gmap Z Z) (c : chain) : bool :=
  match c with
  | [] => true
  | (op, _) :: rest =>
      match rest with
      | [] => true
      | _ :: _ => precedence m (chr op) <? head_prec m rest
      end && always_rises m rest
  end.

(** The groupings of those two trees. *)
Definition left_grouping (g : grouping) (c : chain) : grouping :=
  fold_left (fun g '(op, w) => Group op g (Operand w)) c g.

Fixpoint right_grouping (w : written) (c : chain) : grouping :=
  match c with
  | [] => Operand w
  | (op, w') :: rest => Group op (Operand w) (right_grouping w' rest)
  end.

(** * Properties *)

(** ** The lexer returns *)

#[local] Arguments gettok_rec : simpl never.
#[local] Arguments chr : simpl never.

Lemma gettok_rec_S fuel s :
  gettok_rec (S fuel) s =
    let s := (let '(c, rest) := skip_whitespace (LastChar s) (stdin s) in
              set_lexer c rest s) in
    if isalpha (LastChar s) then
      let '(id, c, rest) :=
        scan_identifier (String (char_of_int (LastChar s)) "") (stdin s) in
      let s := set_IdentifierStr id (set_lexer c rest s) in
      if String.eqb id "def" then Some (DefToken, s)
      else if String.eqb id "extern" then Some (ExternToken, s)
      else Some (IdentifierToken, s)
    else if isdigit (LastChar s) || (LastChar s =? chr ".") then
      let '(NumStr, c, rest) := scan_number "" (LastChar s) (stdin s) in
      let s := set_NumVal (strtod NumStr) (set_lexer c rest s) in
      Some (NumberToken, s)
    else if LastChar s =? chr "#" then
      let s := (let '(c, rest) := skip_comment (stdin s) in
                set_lexer c rest s) in
      if negb (LastChar s =? EOF) then gettok_rec fuel s
      else Some (gettok_char s)
    else Some (gettok_char s).
Proof. reflexivity. Qed.

Lemma chr_not_EOF c : chr c <> EOF.
Proof. unfold chr, EOF. lia. Qed.

Lemma chr_range c : 0 <= chr c <= 255.
Proof.
  unfold chr. pose proof (N_ascii_bounded c). lia.
Qed.

Lemma skip_whitespace_length inp : forall c,
  (String.length (snd (skip_whitespace c inp)) <= String.length inp)%nat.
Proof.
  induction inp as [|a inp IH]; intros c; simpl.
  - destruct (isspace c); simpl; lia.
  - destruct (isspace c); simpl; [specialize (IH (chr a)); lia | lia].
Qed.

Lemma skip_comment_length inp :
  fst (skip_comment inp) = EOF \/
  (String.length (snd (skip_comment inp)) < String.length inp)%nat.
Proof.
  induction inp as [|a inp IH]; simpl; [now left|].
  destruct (negb (chr a =? 10) && negb (chr a =? 13)); simpl.
  - destruct IH; [now left | right; lia].
  - right; lia.
Qed.

Lemma gettok_rec_total fuel : forall s,
  (String.length (stdin s) < fuel)%nat -> is_Some (gettok_rec fuel s).
Proof.
  induction fuel as [|fuel IH]; intros s Hlen; [lia|].
  rewrite gettok_rec_S.
  pose proof (skip_whitespace_length (stdin s) (LastChar s)) as Hws.
  destruct (skip_whitespace (LastChar s) (stdin s)) as [c rest]; simpl in *.
  destruct (isalpha c).
  { destruct (scan_identifier _ rest) as [[id c'] rest'].
    repeat case_match; eauto. }
  destruct (isdigit c || (c =? chr ".")).
  { destruct (scan_number _ c rest) as [[num c'] rest']. eauto. }
  destruct (c =? chr "#"); [|eauto].
  pose proof (skip_comment_length rest) as Hc.
  destruct (skip_comment rest) as [c' rest']; simpl in *.
  destruct (c' =? EOF) eqn:E; simpl; [eauto|].
  apply IH; simpl. destruct Hc; lia.
Qed.

Lemma gettok_rec_mono fuel : forall s r,
  gettok_rec fuel s = Some r -> gettok_rec (S fuel) s = Some r.
Proof.
  induction fuel as [|fuel IH]; intros s r; [discriminate|].
  rewrite (gettok_rec_S (S fuel)), (gettok_rec_S fuel).
  cbv zeta.
  repeat case_match; auto.
Qed.

Lemma gettok_rec_mono_le fuel fuel' s r :
  (fuel <= fuel')%nat -> gettok_rec fuel s = Some r ->
  gettok_rec fuel' s = Some r.
Proof.
  induction 1; auto using gettok_rec_mono.
Qed.

(** Whatever fuel makes [gettok_rec] answer, [gettok] gives that answer. *)
Lemma gettok_rec_gettok fuel s r :
  gettok_rec fuel s = Some r -> gettok s = r.
Proof.
  intros H. unfold gettok.
  destruct (gettok_rec_total (S (String.length (stdin s))) s) as [r' Hr']; [lia|].
  rewrite Hr'.
  destruct (Nat.le_ge_cases fuel (S (String.length (stdin s)))) as [Hle|Hle].
  - rewrite (gettok_rec_mono_le _ _ _ _ Hle H) in Hr'. congruence.
  - rewrite (gettok_rec_mono_le _ _ _ _ Hle Hr') in H. congruence.
Qed.

Lemma gettok_gettok_rec s :
  gettok_rec (S (String.length (stdin s))) s = Some (gettok s).
Proof.
  unfold gettok.
  destruct (gettok_rec_total (S (String.length (stdin s))) s) as [r' Hr']; [lia|].
  now rewrite Hr'.
Qed.

(** The text of [gettok], with the call to itself. *)
Lemma gettok_eq s :
  gettok s =
    let s := (let '(c, rest) := skip_whitespace (LastChar s) (stdin s) in
              set_lexer c rest s) in
    if isalpha (LastChar s) then
      let '(id, c, rest) :=
        scan_identifier (String (char_of_int (LastChar s)) "") (stdin s) in
      let s := set_IdentifierStr id (set_lexer c rest s) in
      if String.eqb id "def" then (DefToken, s)
      else if String.eqb id "extern" then (ExternToken, s)
      else (IdentifierToken, s)
    else if isdigit (LastChar s) || (LastChar s =? chr ".") then
      let '(NumStr, c, rest) := scan_number "" (LastChar s) (stdin s) in
      let s := set_NumVal (strtod NumStr) (set_lexer c rest s) in
      (NumberToken, s)
    else if LastChar s =? chr "#" then
      let s := (let '(c, rest) := skip_comment (stdin s) in
                set_lexer c rest s) in
      if negb (LastChar s =? EOF) then gettok s
      else gettok_char s
    else gettok_char s.
Proof.
  apply gettok_rec_gettok with (fuel := S (S (String.length (stdin s)))).
  rewrite gettok_rec_S. cbv zeta.
  pose proof (skip_whitespace_length (stdin s) (LastChar s)) as Hws.
  destruct (skip_whitespace (LastChar s) (stdin s)) as [c rest]; simpl in *.
  destruct (isalpha c).
  { destruct (scan_identifier _ rest) as [[id c'] rest'].
    repeat case_match; eauto. }
  destruct (isdigit c || (c =? chr ".")).
  { destruct (scan_number _ c rest) as [[num c'] rest']. eauto. }
  destruct (c =? chr "#"); [|eauto].
  pose proof (skip_comment_length rest) as Hc.
  destruct (skip_comment rest) as [c' rest']; simpl in *.
  destruct (c' =? EOF) eqn:E; simpl; [eauto|].
  eapply gettok_rec_mono_le; [|apply gettok_gettok_rec]. simpl.
  destruct Hc; lia.
Qed.

(** ** Facts about characters *)

Lemma isalpha_spec c :
  isalpha c = true <-> (65 <= c <= 90 \/ 97 <= c <= 122).
Proof.
  unfold isalpha.
  change (chr "A") with 65; change (chr "Z") with 90;
  change (chr "a") with 97; change (chr "z") with 122.
  rewrite orb_true_iff, !andb_true_iff, !Z.leb_le. tauto.
Qed.

Lemma isdigit_spec c : isdigit c = true <-> 48 <= c <= 57.
Proof.
  unfold isdigit. change (chr "0") with 48; change (chr "9") with 57.
  rewrite andb_true_iff, !Z.leb_le. tauto.
Qed.

Lemma isspace_spec c : isspace c = true <-> (c = 32 \/ 9 <= c <= 13).
Proof.
  unfold isspace. change (chr " ") with 32.
  rewrite orb_true_iff, andb_true_iff, !Z.leb_le, Z.eqb_eq. tauto.
Qed.

Lemma isascii_spec c : isascii c = true <-> 0 <= c <= 127.
Proof.
  unfold isascii. rewrite andb_true_iff, !Z.leb_le. tauto.
Qed.

Lemma chr_char_of_int c : 0 <= c <= 255 -> chr (char_of_int c) = c.
Proof.
  intros H. unfold chr, char_of_int.
  rewrite Z.mod_small by lia.
  rewrite N_ascii_embedding by lia. lia.
Qed.

Lemma char_of_int_chr c : char_of_int (chr c) = c.
Proof.
  unfold char_of_int. pose proof (chr_range c).
  rewrite Z.mod_small by lia. unfold chr.
  rewrite N2Z.id. apply ascii_N_embedding.
Qed.

(** ** What one call of [gettok] does to the lexer *)

Lemma pending_chr a inp : pending (chr a) inp = S (String.length inp).
Proof.
  unfold pending. pose proof (chr_not_EOF a).
  destruct (Z.eqb_spec (chr a) EOF); congruence.
Qed.

Lemma pending_neq c inp : c <> EOF -> pending c inp = S (String.length inp).
Proof. unfold pending. now destruct (Z.eqb_spec c EOF). Qed.

Lemma skip_whitespace_pending inp : forall c c' rest,
  skip_whitespace c inp = (c', rest) ->
  (pending c' rest <= pending c inp)%nat /\
  (c' = EOF \/ 0 <= c' <= 255 \/ c' = c) /\ isspace c' = false.
Proof.
  induction inp as [|a inp IH]; intros c c' rest; simpl.
  - destruct (isspace c) eqn:E; intros [= <- <-].
    + split; [unfold pending; simpl; lia|]. split; [now left | reflexivity].
    + split; [lia|]. split; [now right; right | assumption].
  - destruct (isspace c) eqn:E.
    + intros H. apply IH in H as (H1 & H2 & H3).
      rewrite pending_chr in H1.
      split; [|split; [|assumption]].
      * unfold pending at 2. apply isspace_spec in E.
        destruct (Z.eqb_spec c EOF); [unfold EOF in *; lia|]. simpl. lia.
      * pose proof (chr_range a). destruct H2 as [|[|]]; [now left| |];
          right; left; lia.
    + intros [= <- <-]. split; [lia|]. split; [now right; right | assumption].
Qed.

Lemma scan_identifier_pending inp : forall id id' c' rest,
  scan_identifier id inp = (id', c', rest) ->
  (pending c' rest <= String.length inp)%nat /\ -1 <= c' <= 255.
Proof.
  induction inp as [|a inp IH]; intros id id' c' rest; simpl.
  - intros [= <- <- <-]. unfold pending, EOF; simpl. lia.
  - pose proof (chr_range a). destruct (isalnum (chr a)).
    + intros H'. apply IH in H'. lia.
    + intros [= <- <- <-]. rewrite pending_chr. lia.
Qed.

Lemma scan_number_pending inp : forall num c num' c' rest,
  scan_number num c inp = (num', c', rest) ->
  (pending c' rest <= String.length inp)%nat /\ -1 <= c' <= 255.
Proof.
  induction inp as [|a inp IH]; intros num c num' c' rest; simpl.
  - intros [= <- <- <-]. unfold pending, EOF; simpl. lia.
  - pose proof (chr_range a). destruct (isdigit (chr a) || (chr a =? chr ".")).
    + intros H'. apply IH in H'. lia.
    + intros [= <- <- <-]. rewrite pending_chr. lia.
Qed.

Lemma skip_comment_pending inp : forall c' rest,
  skip_comment inp = (c', rest) ->
  (pending c' rest <= String.length inp)%nat /\ -1 <= c' <= 255.
Proof.
  induction inp as [|a inp IH]; intros c' rest; simpl.
  - intros [= <- <-]. unfold pending, EOF; simpl. lia.
  - pose proof (chr_range a).
    destruct (negb (chr a =? 10) && negb (chr a =? 13)).
    + intros H'. apply IH in H'. lia.
    + intros [= <- <-]. rewrite pending_chr. lia.
Qed.

Lemma getchar_pending inp c' rest :
  getchar inp = (c', rest) ->
  (pending c' rest <= String.length inp)%nat /\ -1 <= c' <= 255.
Proof.
  destruct inp as [|a inp]; simpl; intros [= <- <-].
  - unfold pending, EOF; simpl; lia.
  - pose proof (chr_range a). rewrite pending_chr. lia.
Qed.

Lemma append_cons a (u v : string) : String a u +:+ v = String a (u +:+ v).
Proof. reflexivity. Qed.

Lemma append_nil_r (u : string) : u +:+ "" = u.
Proof. induction u as [|a u IH]; [reflexivity|]. now rewrite append_cons, IH. Qed.

Lemma append_snoc (u : string) a (v : string) :
  (u +:+ String a "") +:+ v = u +:+ String a v.
Proof.
  induction u as [|b u IH]; [reflexivity|]. now rewrite !append_cons, IH.
Qed.

(** An identifier text as [gettok] builds it: a letter, then whatever the
    scanning loop appended. *)
Lemma scan_identifier_prefix inp : forall id id' c' rest,
  scan_identifier id inp = (id', c', rest) ->
  exists tail, id' = id +:+ tail.
Proof.
  induction inp as [|a inp IH]; intros id id' c' rest; simpl.
  - intros [= <- <- <-]. exists "". now rewrite append_nil_r.
  - destruct (isalnum (chr a)).
    + intros H. apply IH in H as [tail ->]. exists (String a tail).
      now rewrite append_snoc.
    + intros [= <- <- <-]. exists "". now rewrite append_nil_r.
Qed.

Ltac fields :=
  cbn [stdin LastChar IdentifierStr NumVal CurTok BinopPrecedence stderr stdout
       set_lexer set_IdentifierStr set_NumVal set_CurTok set_BinopPrecedence
       fprintf_stderr cout fst snd] in *.

Lemma gettok_rec_post fuel : forall s t s',
  lex_wf s -> gettok_rec fuel s = Some (t, s') -> gettok_post s t s'.
Proof.
  induction fuel as [|fuel IH]; intros s t s' Hwf; [discriminate|].
  rewrite gettok_rec_S. cbv zeta.
  destruct (skip_whitespace (LastChar s) (stdin s)) as [c rest] eqn:Ews.
  pose proof (skip_whitespace_pending _ _ _ _ Ews) as (Hp & Hc & Hsp).
  assert (Hcr : -1 <= c <= 255)
    by (unfold lex_wf, EOF in *; destruct Hc as [|[|]]; lia).
  assert (Heof : LastChar s = EOF -> c = EOF /\ rest = stdin s).
  { intros E. rewrite E in *. revert Ews. clear.
    destruct (stdin s); simpl; intros [= <- <-]; auto. }
  fields.
  destruct (isalpha c) eqn:Ealpha.
  { apply isalpha_spec in Ealpha as Hrange.
    destruct (scan_identifier _ rest) as [[id c'] rest'] eqn:Eid.
    apply scan_identifier_prefix in Eid as Hpre. destruct Hpre as [tail ->].
    apply scan_identifier_pending in Eid as [Hp' Hc'].
    assert (Hpc : pending c rest = S (String.length rest)).
    { unfold pending. destruct (Z.eqb_spec c EOF); [unfold EOF in *; lia|easy]. }
    change (String (char_of_int c) "" +:+ tail)
      with (String (char_of_int c) tail) in *.
    fields. intros H.
    assert (Hbase : forall t s'',
      s'' = set_IdentifierStr (String (char_of_int c) tail) (set_lexer c' rest' s) ->
      (t = IdentifierToken ->
         String (char_of_int c) tail <> "def" /\
         String (char_of_int c) tail <> "extern") ->
      -5 <= t <= -2 -> gettok_post s t s'').
    { intros t0 s'' -> Hid Ht. split; fields; auto.
      - intros E. destruct (Heof E) as [-> _]. unfold EOF in *; lia.
      - intros _. unfold unread. fields. lia.
      - unfold EOFToken. lia.
      - lia.
      - intros E. exists (char_of_int c), tail.
        rewrite chr_char_of_int by lia.
        split; [now apply isalpha_spec|]. split; [reflexivity|]. auto. }
    destruct (String.eqb_spec (String (char_of_int c) tail) "def");
      [injection H as <- <-; apply Hbase; [reflexivity| discriminate | unfold DefToken; lia]|].
    destruct (String.eqb_spec (String (char_of_int c) tail) "extern");
      injection H as <- <-; apply Hbase;
      [reflexivity| discriminate | unfold ExternToken; lia
      |reflexivity| auto | unfold IdentifierToken; lia]. }
  destruct (isdigit c || (c =? chr ".")) eqn:Enum.
  { destruct (scan_number _ c rest) as [[num c'] rest'] eqn:En.
    apply scan_number_pending in En as [Hp' Hc'].
    assert (c <> EOF).
    { intros ->. discriminate Enum. }
    assert (Hpc : pending c rest = S (String.length rest)).
    { unfold pending. destruct (Z.eqb_spec c EOF); easy. }
    intros [= <- <-]. split; simpl; auto; try discriminate.
    - intros E. destruct (Heof E) as [-> _]. congruence.
    - intros _. unfold unread; simpl. lia.
    - unfold NumberToken; lia. }
  assert (Hchar : forall s1, lex_wf s1 ->
    CurTok s1 = CurTok s -> BinopPrecedence s1 = BinopPrecedence s ->
    stderr s1 = stderr s -> stdout s1 = stdout s ->
    (LastChar s = EOF -> s1 = s) ->
    (LastChar s <> EOF -> LastChar s1 <> EOF -> (unread s1 <= unread s)%nat) ->
    (LastChar s1 = -4 -> False) ->
    gettok_char s1 = (t, s') -> gettok_post s t s').
  { intros s1 Hwf1 F1 F2 F3 F4 Hsame Hun Hn4. unfold gettok_char.
    destruct (Z.eqb_spec (LastChar s1) EOF) as [E1|E1].
    - intros [= <- <-]. split; auto; try discriminate.
      + unfold unread at 1, pending. rewrite E1. simpl.
        intros Hne. unfold unread, pending.
        destruct (Z.eqb_spec (LastChar s) EOF); [contradiction|lia].
      + unfold EOFToken; lia.
    - destruct (getchar (stdin s1)) as [c1 rest1] eqn:Eg.
      apply getchar_pending in Eg as [Hg1 Hg2].
      intros [= <- <-]. split; simpl; auto.
      + intros E. rewrite (Hsame E) in E1. contradiction.
      + intros Hne. specialize (Hun Hne E1). unfold unread in *; simpl.
        rewrite (pending_neq _ _ E1) in Hun. lia.
      + unfold EOFToken, EOF in *. intros; lia.
      + unfold lex_wf in Hwf1. lia.
      + unfold IdentifierToken. intros E. now apply Hn4 in E. }
  destruct (Z.eqb_spec c (chr "#")) as [Ehash|Ehash].
  2:{ intros [= H]. revert H. apply Hchar; simpl; auto;
        try (intros; unfold unread; simpl; lia).
      intros E. destruct (Heof E) as [-> ->]. rewrite <- E. now destruct s. }
  destruct (skip_comment rest) as [c' rest'] eqn:Ec.
  apply skip_comment_pending in Ec as [Hp' Hc'].
  assert (Hs : (S (String.length rest) <= unread s)%nat).
  { subst c. unfold pending at 1 in Hp. simpl in Hp. exact Hp. }
  simpl.
  destruct (Z.eqb_spec c' EOF) as [E'|E']; simpl.
  - intros [= H]. revert H. apply Hchar; simpl; auto;
      try (intros; unfold unread in *; simpl; lia);
      try (subst c'; discriminate).
    intros E. destruct (Heof E) as [-> _]. discriminate Ehash.
  - intros H. apply IH in H; [|exact Hc'].
    destruct H as [W F1 F2 F3 F4 Ha Hu He Ht Hi]. simpl in *.
    split; auto.
    + intros E. destruct (Heof E) as [-> _]. discriminate Ehash.
    + intros _. specialize (Hu E'). unfold unread in *; simpl in *.
      rewrite (pending_neq _ _ E') in *. lia.
Qed.

Lemma gettok_post_holds s :
  lex_wf s -> gettok_post s (fst (gettok s)) (snd (gettok s)).
Proof.
  intros H. eapply gettok_rec_post; [exact H|].
  rewrite gettok_gettok_rec. now destruct (gettok s).
Qed.

(** ** The parse functions, one call deep *)

#[local] Arguments ParsePrimary : simpl never.
#[local] Arguments ParseParenExpr : simpl never.
#[local] Arguments ParseIdentifierExpr : simpl never.
#[local] Arguments ParseCallArgs : simpl never.
#[local] Arguments ParseBinOpRHS : simpl never.
#[local] Arguments ParseExpression : simpl never.
#[local] Arguments ParsePrototypeArgs : simpl never.
#[local] Arguments main_loop : simpl never.

Lemma ParsePrimary_S fuel s :
  ParsePrimary (S fuel) s =
    if CurTok s =? IdentifierToken then ParseIdentifierExpr fuel s
    else if CurTok s =? NumberToken then Some (ParseNumberExpr s)
    else if CurTok s =? chr "(" then ParseParenExpr fuel s
    else Some (LogError "unknown token when expecting an expression" s).
Proof. reflexivity. Qed.

Lemma ParseParenExpr_S fuel s :
  ParseParenExpr (S fuel) s =
    let '(_, s) := getNextToken s in
    match ParseExpression fuel s with
    | None => None
    | Some (None, s) => Some (None, s)
    | Some (Some V, s) =>
        if negb (CurTok s =? chr ")") then Some (LogError "expected ')'" s)
        else let '(_, s) := getNextToken s in Some (Some V, s)
    end.
Proof. reflexivity. Qed.

Lemma ParseIdentifierExpr_S fuel s :
  ParseIdentifierExpr (S fuel) s =
    let IdName := IdentifierStr s in
    let '(_, s) := getNextToken s in
    if negb (CurTok s =? chr "(") then Some (Some (VariableExprAST IdName), s)
    else
      let '(_, s) := getNextToken s in
      match (if negb (CurTok s =? chr ")")
             then ParseCallArgs fuel [] s
             else Some (Some [], s)) with
      | None => None
      | Some (None, s) => Some (None, s)
      | Some (Some Args, s) =>
          let '(_, s) := getNextToken s in
          Some (Some (CallExprAST IdName Args), s)
      end.
Proof. reflexivity. Qed.

Lemma ParseCallArgs_S fuel Args s :
  ParseCallArgs (S fuel) Args s =
    match ParseExpression fuel s with
    | None => None
    | Some (None, s) => Some (None, s)
    | Some (Some Arg, s) =>
        if CurTok s =? chr ")" then Some (Some (Args ++ [Arg])%list, s)
        else if negb (CurTok s =? chr ",") then
          let '(_, s) := LogError "Expected ')' or ',' in argument list" s in
          Some (None, s)
        else
          let '(_, s) := getNextToken s in
          ParseCallArgs fuel (Args ++ [Arg])%list s
    end.
Proof. reflexivity. Qed.

Lemma ParseBinOpRHS_S fuel ExprPrec LHS s :
  ParseBinOpRHS (S fuel) ExprPrec LHS s =
    let '(TokPrec, s) := GetTokPrecedence s in
    if TokPrec <? ExprPrec then Some (Some LHS, s)
    else
      let BinOp := CurTok s in
      let '(_, s) := getNextToken s in
      match ParsePrimary fuel s with
      | None => None
      | Some (None, s) => Some (None, s)
      | Some (Some RHS, s) =>
          let '(NextPrec, s) := GetTokPrecedence s in
          match (if TokPrec <? NextPrec
                 then ParseBinOpRHS fuel (TokPrec + 1) RHS s
                 else Some (Some RHS, s)) with
          | None => None
          | Some (None, s) => Some (None, s)
          | Some (Some RHS, s) =>
              ParseBinOpRHS fuel ExprPrec
                (BinaryExprAST (char_of_int BinOp) LHS RHS) s
          end
      end.
Proof. reflexivity. Qed.

Lemma ParseExpression_S fuel s :
  ParseExpression (S fuel) s =
    match ParsePrimary fuel s with
    | None => None
    | Some (None, s) => Some (None, s)
    | Some (Some LHS, s) => ParseBinOpRHS fuel 0 LHS s
    end.
Proof. reflexivity. Qed.

Lemma ParsePrototypeArgs_S fuel ArgNames s :
  ParsePrototypeArgs (S fuel) ArgNames s =
    let '(t, s) := getNextToken s in
    if t =? IdentifierToken
    then ParsePrototypeArgs fuel (ArgNames ++ [IdentifierStr s])%list s
    else Some (ArgNames, s).
Proof. reflexivity. Qed.

Ltac parser_step :=
  rewrite ?ParsePrimary_S, ?ParseParenExpr_S, ?ParseIdentifierExpr_S,
    ?ParseCallArgs_S, ?ParseBinOpRHS_S, ?ParseExpression_S,
    ?ParsePrototypeArgs_S.

(** ** More fuel never changes an answer *)

Lemma parser_mono fuel :
  (forall s, stable (fun n => ParsePrimary n s) fuel) /\
  (forall s, stable (fun n => ParseParenExpr n s) fuel) /\
  (forall s, stable (fun n => ParseIdentifierExpr n s) fuel) /\
  (forall a s, stable (fun n => ParseCallArgs n a s) fuel) /\
  (forall p l s, stable (fun n => ParseBinOpRHS n p l s) fuel) /\
  (forall s, stable (fun n => ParseExpression n s) fuel).
Proof.
  unfold stable.
  induction fuel as [|fuel (IH1 & IH2 & IH3 & IH4 & IH5 & IH6)];
    [repeat split; intros; discriminate|].
  repeat split; intros *.
  - rewrite (ParsePrimary_S (S fuel)), (ParsePrimary_S fuel).
    repeat case_match; auto.
  - rewrite (ParseParenExpr_S (S fuel)), (ParseParenExpr_S fuel).
    destruct (getNextToken s) as [? s1].
    destruct (ParseExpression fuel s1) as [[[V|] s2]|] eqn:E; [| |discriminate];
      rewrite (IH6 _ _ E); auto.
  - rewrite (ParseIdentifierExpr_S (S fuel)), (ParseIdentifierExpr_S fuel).
    cbv zeta.
    destruct (getNextToken s) as [? s1].
    destruct (negb (CurTok s1 =? chr "(")); [auto|].
    destruct (getNextToken s1) as [? s2].
    destruct (negb (CurTok s2 =? chr ")")); [|auto].
    destruct (ParseCallArgs fuel [] s2) as [[[V|] s3]|] eqn:E; [| |discriminate];
      rewrite (IH4 _ _ _ E); auto.
  - rewrite (ParseCallArgs_S (S fuel)), (ParseCallArgs_S fuel).
    destruct (ParseExpression fuel s) as [[[V|] s2]|] eqn:E; [| |discriminate];
      rewrite (IH6 _ _ E); auto.
    repeat case_match; auto.
  - rewrite (ParseBinOpRHS_S (S fuel)), (ParseBinOpRHS_S fuel).
    destruct (GetTokPrecedence s) as [TokPrec s1].
    destruct (TokPrec <? p); [auto|]. cbv zeta.
    destruct (getNextToken s1) as [? s2].
    destruct (ParsePrimary fuel s2) as [[[V|] s3]|] eqn:E; [| |discriminate];
      rewrite (IH1 _ _ E); auto.
    destruct (GetTokPrecedence s3) as [NextPrec s4].
    destruct (TokPrec <? NextPrec); [|auto].
    destruct (ParseBinOpRHS fuel _ V s4) as [[[V'|] s5]|] eqn:E';
      [| |discriminate]; rewrite (IH5 _ _ _ _ E'); auto.
  - rewrite (ParseExpression_S (S fuel)), (ParseExpression_S fuel).
    destruct (ParsePrimary fuel s) as [[[V|] s3]|] eqn:E; [| |discriminate];
      rewrite (IH1 _ _ E); auto.
Qed.

(** ** What a parse leaves behind *)

Lemma same_operators_refl m : same_operators m m.
Proof. now intros k. Qed.

Lemma same_operators_trans m1 m2 m3 :
  same_operators m1 m2 -> same_operators m2 m3 -> same_operators m1 m3.
Proof. intros H1 H2 k. now rewrite H1. Qed.

Lemma same_operators_sym m1 m2 : same_operators m1 m2 -> same_operators m2 m1.
Proof. intros H k. now rewrite H. Qed.

Lemma subscript_spec m k :
  fst (subscript m k) = match m !! k with Some v => v | None => 0 end /\
  same_operators (snd (subscript m k)) m.
Proof.
  unfold subscript. destruct (m !! k) as [v|] eqn:E; simpl.
  - split; [reflexivity | apply same_operators_refl].
  - split; [reflexivity|]. intros k'. unfold precedence.
    destruct (decide (k = k')) as [->|Hne].
    + now rewrite lookup_insert_eq, E.
    + now rewrite lookup_insert_ne.
Qed.

Lemma quiet_refl s : lex_wf s -> quiet s s.
Proof. intros H. split; auto using same_operators_refl. Qed.

Lemma quiet_trans s1 s2 s3 : quiet s1 s2 -> quiet s2 s3 -> quiet s1 s3.
Proof.
  intros [] []. split; eauto using same_operators_trans; try congruence. lia.
Qed.

Lemma getNextToken_quiet s t s' :
  lex_wf s -> getNextToken s = (t, s') ->
  quiet s s' /\ CurTok s' = t /\ -5 <= t <= 255 /\
  (CurTok s <> EOFToken -> (remaining s' < remaining s)%nat).
Proof.
  intros Hwf. unfold getNextToken.
  pose proof (gettok_post_holds s Hwf) as [W F1 F2 F3 F4 Ha Hu He Ht Hi].
  destruct (gettok s) as [t0 s0]. simpl in *. intros [= <- <-].
  assert (Hrem : (remaining (set_CurTok t0 s0) <= remaining s)%nat /\
                 (CurTok s <> EOFToken ->
                  (remaining (set_CurTok t0 s0) < remaining s)%nat)).
  { unfold remaining, unread in *. simpl.
    destruct (Z.eqb_spec (LastChar s) EOF) as [E|E].
    - destruct (Ha E) as [-> ->]. rewrite E. simpl.
      split; [lia|]. intros Hne. destruct (Z.eqb_spec (CurTok s) EOFToken); [easy|lia].
    - specialize (Hu E). repeat case_match; lia. }
  destruct Hrem as [Hle Hlt].
  split; [split; simpl; auto|split; [reflexivity|split; assumption]].
  rewrite F2. apply same_operators_refl.
Qed.

Lemma GetTokPrecedence_spec s :
  let '(p, s') := GetTokPrecedence s in
  p = (if isascii (CurTok s) then precedence (BinopPrecedence s) (CurTok s)
       else -1) /\
  s' = set_BinopPrecedence (BinopPrecedence s') s /\
  same_operators (BinopPrecedence s') (BinopPrecedence s).
Proof.
  unfold GetTokPrecedence.
  destruct (isascii (CurTok s)); simpl.
  2:{ split; [reflexivity|]. split; [now destruct s | apply same_operators_refl]. }
  pose proof (subscript_spec (BinopPrecedence s) (CurTok s)) as [H1 H2].
  destruct (subscript (BinopPrecedence s) (CurTok s)) as [v m]. simpl in *.
  assert (Hp : (if v <=? 0 then -1 else v) =
               precedence (BinopPrecedence s) (CurTok s)).
  { unfold precedence. subst v. now destruct (BinopPrecedence s !! CurTok s). }
  destruct (v <=? 0); simpl; auto.
Qed.

Lemma GetTokPrecedence_quiet s p s' :
  lex_wf s -> GetTokPrecedence s = (p, s') ->
  quiet s s' /\ CurTok s' = CurTok s /\ remaining s' = remaining s.
Proof.
  intros Hwf E. pose proof (GetTokPrecedence_spec s) as H. rewrite E in H.
  destruct H as (_ & -> & Hops). simpl.
  split; [split|]; simpl; auto.
Qed.

Lemma parsed_advance {A} strict s (r : option A) s' :
  parsed strict s (r, s') ->
  lex_wf s' /\ (remaining s' <= remaining s)%nat /\
  same_operators (BinopPrecedence s') (BinopPrecedence s) /\
  stdout s' = stdout s.
Proof.
  destruct r; simpl.
  - intros [[] _]. auto.
  - intros (s0 & msg & [] & ->). simpl. auto.
Qed.

Lemma parsed_after {A} (P : Prop) s s1 (res : option A * state) :
  quiet s s1 -> parsed P s1 res -> parsed P s res.
Proof.
  destruct res as [[a|] s']; simpl.
  - intros Q [Q' Hs]. split; [eapply quiet_trans; eauto|].
    intros E. specialize (Hs E). destruct Q. lia.
  - intros Q (s0 & msg & Q' & ->). exists s0, msg.
    split; [eapply quiet_trans; eauto | reflexivity].
Qed.

Lemma parsed_after_strict {A} (P Q : Prop) s s1 (res : option A * state) :
  quiet s s1 -> (remaining s1 < remaining s)%nat ->
  parsed Q s1 res -> parsed P s res.
Proof.
  destruct res as [[a|] s']; simpl.
  - intros Hq Hlt [[] _]. split; [eapply quiet_trans; eauto; now split|].
    intros _. lia.
  - intros Hq _ (s0 & msg & Q' & ->). exists s0, msg.
    split; [eapply quiet_trans; eauto | reflexivity].
Qed.

Lemma parsed_weaken {A} (P Q : Prop) s (res : option A * state) :
  (Q -> P) -> parsed P s res -> parsed Q s res.
Proof.
  destruct res as [[a|] s']; simpl; [|auto]. intros H [Hq Hs]. split; auto.
Qed.

Lemma LogError_parsed (P : Prop) msg s : lex_wf s -> parsed P s (LogError msg s).
Proof.
  intros H. exists s, msg. split; [now apply quiet_refl | reflexivity].
Qed.

Ltac quiet_chain :=
  match goal with
  | H : quiet ?a ?b |- quiet ?a ?b => exact H
  | H : lex_wf ?a |- quiet ?a ?a => exact (quiet_refl a H)
  | H : quiet ?a ?b |- quiet ?a ?c => apply (quiet_trans a b c H); quiet_chain
  end.

Ltac quiet_facts :=
  repeat match goal with
  | H : quiet ?a ?b |- _ =>
      lazymatch goal with
      | _ : (remaining b <= remaining a)%nat |- _ => fail
      | _ => pose proof (quiet_remaining _ _ H); pose proof (quiet_wf _ _ H)
      end
  end.

(** Runs [getNextToken] or [GetTokPrecedence] at the head of the goal. *)
Ltac run_token :=
  match goal with
  | W : lex_wf ?s |- context [getNextToken ?s] =>
      let t := fresh "t" in let s' := fresh "s" in
      let E := fresh "E" in let Q := fresh "Q" in
      let C := fresh "C" in let R := fresh "R" in let L := fresh "L" in
      destruct (getNextToken s) as [t s'] eqn:E;
      destruct (getNextToken_quiet _ _ _ W E) as (Q & C & R & L);
      pose proof (quiet_wf _ _ Q)
  | W : lex_wf ?s |- context [GetTokPrecedence ?s] =>
      let t := fresh "p" in let s' := fresh "s" in
      let E := fresh "E" in let Q := fresh "Q" in
      let C := fresh "C" in let R := fresh "R" in
      destruct (GetTokPrecedence s) as [t s'] eqn:E;
      destruct (GetTokPrecedence_quiet _ _ _ W E) as (Q & C & R);
      pose proof (quiet_wf _ _ Q)
  end.

Ltac token_neq :=
  match goal with
  | H : (CurTok ?s =? ?k) = true |- CurTok ?s <> EOFToken =>
      apply Z.eqb_eq in H; rewrite H; discriminate
  end.

Lemma parser_parsed fuel :
  (forall s r, lex_wf s -> ParsePrimary fuel s = Some r -> parsed True s r) /\
  (forall s r, lex_wf s -> ParseParenExpr fuel s = Some r ->
     parsed (CurTok s <> EOFToken) s r) /\
  (forall s r, lex_wf s -> ParseIdentifierExpr fuel s = Some r ->
     parsed (CurTok s <> EOFToken) s r) /\
  (forall a s r, lex_wf s -> ParseCallArgs fuel a s = Some r ->
     parsed True s r) /\
  (forall p l s r, lex_wf s -> ParseBinOpRHS fuel p l s = Some r ->
     parsed False s r) /\
  (forall s r, lex_wf s -> ParseExpression fuel s = Some r -> parsed True s r).
Proof.
  induction fuel as [|fuel (IH1 & IH2 & IH3 & IH4 & IH5 & IH6)];
    [repeat split; intros; discriminate|].
  repeat split; intros * W; parser_step; cbv zeta.
  - (* ParsePrimary *)
    destruct (CurTok s =? IdentifierToken) eqn:E1.
    { intros H. apply IH3 in H; [|assumption].
      eapply parsed_weaken; [|exact H]. intros _. token_neq. }
    destruct (CurTok s =? NumberToken) eqn:E2.
    { intros [= <-]. unfold ParseNumberExpr. run_token.
      split; [assumption|]. intros _. apply L. token_neq. }
    destruct (CurTok s =? chr "(") eqn:E3.
    { intros H. apply IH2 in H; [|assumption].
      eapply parsed_weaken; [|exact H]. intros _. token_neq. }
    intros [= <-]. now apply LogError_parsed.
  - (* ParseParenExpr *)
    run_token.
    destruct (ParseExpression fuel s0) as [[[V|] s1]|] eqn:E1; [| |discriminate].
    2:{ intros [= <-]. apply IH6 in E1; [|assumption].
        eapply parsed_after; [exact Q|].
        eapply parsed_weaken; [|exact E1]. auto. }
    apply IH6 in E1; [|assumption]. destruct E1 as [Q1 S1]. specialize (S1 I).
    pose proof (quiet_wf _ _ Q1).
    destruct (negb (CurTok s1 =? chr ")")).
    { intros [= <-]. exists s1, "expected ')'". split; [quiet_chain|reflexivity]. }
    run_token. intros [= <-]. quiet_facts.
    split; [quiet_chain|]. intros _. lia.
  - (* ParseIdentifierExpr *)
    run_token.
    destruct (negb (CurTok s0 =? chr "(")) eqn:E1.
    { intros [= <-]. split; [assumption|]. exact L. }
    apply negb_false_iff in E1.
    assert (L0 : CurTok s0 <> EOFToken) by token_neq.
    run_token. specialize (L1 L0).
    assert (Hargs : forall res : option (list ExprAST) * state,
      parsed False s1 res ->
      parsed (CurTok s <> EOFToken) s
        (let (o, s2) := res in
         match o with
         | Some Args0 =>
             let '(_, s3) := getNextToken s2 in (Some (CallExprAST (IdentifierStr s) Args0), s3)
         | None => (None, s2)
         end)).
    { intros [[args|] s2]; simpl.
      - intros [Q2 _]. pose proof (quiet_wf _ _ Q2). run_token. quiet_facts.
        split; [quiet_chain|]. intros _. lia.
      - intros (s3 & msg & Q2 & ->). exists s3, msg.
        split; [quiet_chain|reflexivity]. }
    destruct (negb (CurTok s1 =? chr ")")).
    + destruct (ParseCallArgs fuel [] s1) as [[o s2]|] eqn:E2; [|discriminate].
      apply IH4 in E2; [|assumption].
      apply (parsed_weaken True False) in E2; [|tauto].
      specialize (Hargs _ E2). simpl in Hargs.
      destruct o; [destruct (getNextToken s2)|]; intros [= <-]; exact Hargs.
    + specialize (Hargs (Some [], s1)). simpl in Hargs.
      destruct (getNextToken s1). intros [= <-]. apply Hargs.
      split; [now apply quiet_refl | tauto].
  - (* ParseCallArgs *)
    destruct (ParseExpression fuel s) as [[[V|] s1]|] eqn:E1; [| |discriminate].
    2:{ intros [= <-]. now apply IH6 in E1. }
    apply IH6 in E1; [|assumption]. destruct E1 as [Q1 S1]. specialize (S1 I).
    pose proof (quiet_wf _ _ Q1).
    destruct (CurTok s1 =? chr ")").
    { intros [= <-]. split; auto. }
    destruct (negb (CurTok s1 =? chr ",")).
    { intros [= <-]. exists s1, "Expected ')' or ',' in argument list".
      split; [assumption|reflexivity]. }
    run_token. intros H'. apply IH4 in H'; [|assumption].
    quiet_facts.
    eapply (parsed_after_strict _ True s s0); [quiet_chain|lia|exact H'].
  - (* ParseBinOpRHS *)
    run_token.
    destruct (p0 <? p). { intros [= <-]. split; [assumption|tauto]. }
    run_token.
    destruct (ParsePrimary fuel s1) as [[[V|] s2]|] eqn:E1; [| |discriminate].
    2:{ intros [= <-]. apply IH1 in E1; [|assumption].
        eapply (parsed_after _ s s1); [quiet_chain|].
        eapply parsed_weaken; [|exact E1]. tauto. }
    apply IH1 in E1; [|assumption]. destruct E1 as [Q1 _].
    pose proof (quiet_wf _ _ Q1).
    run_token.
    assert (Hrhs : forall res : option ExprAST * state,
      parsed False s3 res ->
      forall r,
      match res with
      | (Some RHS, s4) =>
          ParseBinOpRHS fuel p (BinaryExprAST (char_of_int (CurTok s0)) l RHS) s4
      | (None, s4) => Some (None, s4)
      end = Some r -> parsed False s r).
    { intros [[rhs|] s4]; simpl.
      - intros [Q4 _] r' H'. pose proof (quiet_wf _ _ Q4).
        apply IH5 in H'; [|assumption].
        eapply (parsed_after _ s s4); [quiet_chain|exact H'].
      - intros (s5 & msg & Q4 & ->) r' [= <-]. exists s5, msg.
        split; [quiet_chain|reflexivity]. }
    destruct (p0 <? p1).
    + destruct (ParseBinOpRHS fuel (p0 + 1) V s3) as [res|] eqn:E2; [|discriminate].
      apply IH5 in E2; [|assumption].
      specialize (Hrhs _ E2 r). destruct res as [[?|] ?]; exact Hrhs.
    + apply (Hrhs (Some V, s3)). split; [now apply quiet_refl|tauto].
  - (* ParseExpression *)
    destruct (ParsePrimary fuel s) as [[[V|] s1]|] eqn:E1; [| |discriminate].
    2:{ intros [= <-]. now apply IH1 in E1. }
    apply IH1 in E1; [|assumption]. destruct E1 as [Q1 S1]. specialize (S1 I).
    pose proof (quiet_wf _ _ Q1).
    intros H'. apply IH5 in H'; [|assumption]. quiet_facts.
    eapply (parsed_after_strict _ False s s1); [quiet_chain|lia|exact H'].
Qed.

(** ** The parse functions return *)

Lemma stable_ge {A} (f : nat -> option A) :
  (forall n, stable f n) ->
  forall a b, (a <= b)%nat -> is_Some (f a) -> f b = f a.
Proof.
  intros Hst a b Hle [r Hr]. rewrite Hr.
  induction Hle; [assumption|]. now apply Hst.
Qed.

Lemma ParsePrimary_ge a b s :
  (a <= b)%nat -> is_Some (ParsePrimary a s) -> ParsePrimary b s = ParsePrimary a s.
Proof.
  apply (stable_ge (fun n => ParsePrimary n s)).
  intros n. apply (parser_mono n).
Qed.

Lemma ParseParenExpr_ge a b s :
  (a <= b)%nat -> is_Some (ParseParenExpr a s) ->
  ParseParenExpr b s = ParseParenExpr a s.
Proof.
  apply (stable_ge (fun n => ParseParenExpr n s)).
  intros n. apply (parser_mono n).
Qed.

Lemma ParseIdentifierExpr_ge a b s :
  (a <= b)%nat -> is_Some (ParseIdentifierExpr a s) ->
  ParseIdentifierExpr b s = ParseIdentifierExpr a s.
Proof.
  apply (stable_ge (fun n => ParseIdentifierExpr n s)).
  intros n. apply (parser_mono n).
Qed.

Lemma ParseCallArgs_ge a b args s :
  (a <= b)%nat -> is_Some (ParseCallArgs a args s) ->
  ParseCallArgs b args s = ParseCallArgs a args s.
Proof.
  apply (stable_ge (fun n => ParseCallArgs n args s)).
  intros n. apply (parser_mono n).
Qed.

Lemma ParseBinOpRHS_ge a b p l s :
  (a <= b)%nat -> is_Some (ParseBinOpRHS a p l s) ->
  ParseBinOpRHS b p l s = ParseBinOpRHS a p l s.
Proof.
  apply (stable_ge (fun n => ParseBinOpRHS n p l s)).
  intros n. apply (parser_mono n).
Qed.

Lemma ParseExpression_ge a b s :
  (a <= b)%nat -> is_Some (ParseExpression a s) ->
  ParseExpression b s = ParseExpression a s.
Proof.
  apply (stable_ge (fun n => ParseExpression n s)).
  intros n. apply (parser_mono n).
Qed.

Lemma ParsePrototypeArgs_mono fuel : forall a s r,
  ParsePrototypeArgs fuel a s = Some r -> ParsePrototypeArgs (S fuel) a s = Some r.
Proof.
  induction fuel as [|fuel IH]; intros a s r; [discriminate|].
  rewrite (ParsePrototypeArgs_S (S fuel)), (ParsePrototypeArgs_S fuel).
  destruct (getNextToken s) as [t s1]. destruct (t =? IdentifierToken); auto.
Qed.

Lemma ParsePrototypeArgs_ge a b args s :
  (a <= b)%nat -> is_Some (ParsePrototypeArgs a args s) ->
  ParsePrototypeArgs b args s = ParsePrototypeArgs a args s.
Proof.
  apply (stable_ge (fun n => ParsePrototypeArgs n args s)).
  intros n r. apply ParsePrototypeArgs_mono.
Qed.

(** A token with a precedence of its own is a character, not [EOFToken]. *)
Lemma GetTokPrecedence_operator s p s' :
  GetTokPrecedence s = (p, s') -> 0 <= p ->
  isascii (CurTok s) = true /\ BinopPrecedence s !! CurTok s = Some p /\ 0 < p.
Proof.
  intros E Hp. pose proof (GetTokPrecedence_spec s) as H. rewrite E in H.
  destruct H as (-> & _ & _).
  destruct (isascii (CurTok s)); [|lia]. split; [reflexivity|].
  unfold precedence in *. destruct (BinopPrecedence s !! CurTok s) as [v|]; [|lia].
  destruct (Z.leb_spec v 0); [lia|]. split; [reflexivity|lia].
Qed.

Lemma parser_terminates n : forall s,
  lex_wf s -> (remaining s <= n)%nat -> terminate_at n s.
Proof.
  induction n as [n IH] using lt_wf_ind. intros s W Hn.
  assert (HParen : CurTok s <> EOFToken -> is_Some (ParseParenExpr (4 * n + 1) s)).
  { intros Hne. rewrite Nat.add_1_r, ParseParenExpr_S. run_token.
    specialize (L Hne).
    assert (Hm : (remaining s0 < n)%nat) by lia.
    destruct (IH _ Hm s0 H (Nat.le_refl _)) as (_ & _ & _ & _ & [r Hr] & _).
    rewrite (ParseExpression_ge (4 * remaining s0 + 3) (4 * n)) by first [lia | eexists; eassumption | eauto].
    rewrite Hr. destruct r as [[V|] s1]; [|eauto].
    destruct (negb (CurTok s1 =? chr ")")); [eauto|].
    destruct (getNextToken s1). eauto. }
  assert (HIdent : CurTok s <> EOFToken ->
                   is_Some (ParseIdentifierExpr (4 * n + 1) s)).
  { intros Hne. rewrite Nat.add_1_r, ParseIdentifierExpr_S. cbv zeta. run_token.
    specialize (L Hne).
    destruct (negb (CurTok s0 =? chr "(")) eqn:E1; [eauto|].
    apply negb_false_iff in E1.
    assert (L0 : CurTok s0 <> EOFToken) by token_neq.
    run_token. specialize (L1 L0).
    destruct (negb (CurTok s1 =? chr ")")).
    2:{ destruct (getNextToken s1). eauto. }
    assert (Hm : (remaining s1 < n)%nat) by lia.
    destruct (IH _ Hm s1 H0 (Nat.le_refl _)) as (_ & _ & _ & _ & _ & Hargs).
    destruct (Hargs []) as [r Hr].
    rewrite (ParseCallArgs_ge (4 * remaining s1 + 4) (4 * n)) by first [lia | eexists; eassumption | eauto].
    rewrite Hr. destruct r as [[V|] s2]; [|eauto].
    destruct (getNextToken s2). eauto. }
  assert (HBin : forall p l, 0 <= p -> is_Some (ParseBinOpRHS (4 * n + 1) p l s)).
  { intros p l Hp. rewrite Nat.add_1_r, ParseBinOpRHS_S. run_token.
    destruct (Z.ltb_spec p0 p) as [|Hge]; [eauto|]. cbv zeta.
    destruct (GetTokPrecedence_operator _ _ _ E ltac:(lia)) as (Hascii & _ & Hpos).
    assert (Hne : CurTok s0 <> EOFToken).
    { rewrite C. apply isascii_spec in Hascii. unfold EOFToken. lia. }
    run_token. specialize (L Hne).
    assert (Hm : (remaining s1 < n)%nat) by lia.
    destruct (IH _ Hm s1 H0 (Nat.le_refl _)) as (_ & _ & _ & [r Hr] & _ & _).
    rewrite (ParsePrimary_ge (4 * remaining s1 + 2) (4 * n)) by first [lia | eexists; eassumption | eauto].
    rewrite Hr. apply (proj1 (parser_parsed _)) in Hr; [|assumption].
    destruct r as [[V|] s2]; [|eauto]. destruct Hr as [Q1 S1]. specialize (S1 I).
    pose proof (quiet_wf _ _ Q1).
    run_token.
    assert (Hnext : forall l' s4, lex_wf s4 -> (remaining s4 <= remaining s3)%nat ->
              is_Some (ParseBinOpRHS (4 * n) p l' s4)).
    { intros l' s4 W4 Hle.
      assert (Hm4 : (remaining s4 < n)%nat) by lia.
      destruct (IH _ Hm4 s4 W4 (Nat.le_refl _)) as (_ & _ & Hb & _).
      rewrite (ParseBinOpRHS_ge (4 * remaining s4 + 1) (4 * n)) by first [lia | eexists; eassumption | eauto].
      now apply Hb. }
    destruct (p0 <? p1); [|now apply Hnext].
    assert (Hm3 : (remaining s3 < n)%nat) by lia.
    destruct (IH _ Hm3 s3 H2 (Nat.le_refl _)) as (_ & _ & Hb & _).
    destruct (Hb (p0 + 1) V ltac:(lia)) as [r' Hr'].
    rewrite (ParseBinOpRHS_ge (4 * remaining s3 + 1) (4 * n)) by first [lia | eexists; eassumption | eauto].
    rewrite Hr'. apply (proj1 (proj2 (proj2 (proj2 (proj2 (parser_parsed _)))))) in Hr';
      [|assumption].
    destruct r' as [[V'|] s4]; [|eauto]. destruct Hr' as [Q4 _].
    apply Hnext; [apply Q4 | apply Q4]. }
  assert (HPrim : is_Some (ParsePrimary (4 * n + 2) s)).
  { replace (4 * n + 2)%nat with (S (4 * n + 1)) by lia. rewrite ParsePrimary_S.
    destruct (CurTok s =? IdentifierToken) eqn:E1; [apply HIdent; token_neq|].
    destruct (CurTok s =? NumberToken) eqn:E2; [eauto|].
    destruct (CurTok s =? chr "(") eqn:E3; [apply HParen; token_neq|eauto]. }
  assert (HExpr : is_Some (ParseExpression (4 * n + 3) s)).
  { replace (4 * n + 3)%nat with (S (4 * n + 2)) by lia. rewrite ParseExpression_S.
    destruct HPrim as [r Hr]. rewrite Hr.
    apply (proj1 (parser_parsed _)) in Hr; [|assumption].
    destruct r as [[V|] s1]; [|eauto]. destruct Hr as [Q1 S1]. specialize (S1 I).
    pose proof (quiet_wf _ _ Q1).
    assert (Hm : (remaining s1 < n)%nat) by lia.
    destruct (IH _ Hm s1 H (Nat.le_refl _)) as (_ & _ & Hb & _).
    destruct (Hb 0 V ltac:(lia)) as [r' Hr'].
    rewrite (ParseBinOpRHS_ge (4 * remaining s1 + 1) (4 * n + 2))
      by first [lia | eexists; eassumption].
    eauto. }
  repeat split; auto.
  intros a. replace (4 * n + 4)%nat with (S (4 * n + 3)) by lia.
  rewrite ParseCallArgs_S. destruct HExpr as [r Hr]. rewrite Hr.
  apply (proj2 (proj2 (proj2 (proj2 (proj2 (parser_parsed _)))))) in Hr; [|assumption].
  destruct r as [[V|] s1]; [|eauto]. destruct Hr as [Q1 S1]. specialize (S1 I).
  pose proof (quiet_wf _ _ Q1).
  destruct (CurTok s1 =? chr ")"); [eauto|].
  destruct (negb (CurTok s1 =? chr ",")); [simpl; eauto|].
  run_token.
  assert (Hm : (remaining s0 < n)%nat) by (destruct Q; lia).
  destruct (IH _ Hm s0 H0 (Nat.le_refl _)) as (_ & _ & _ & _ & _ & Hargs).
  rewrite (ParseCallArgs_ge (4 * remaining s0 + 4) (4 * n + 3)) by first [lia | eexists; eassumption | eauto].
  apply Hargs.
Qed.

(** ** Top-level forms *)

Lemma getNextToken_unread s t s' :
  lex_wf s -> getNextToken s = (t, s') -> t <> EOFToken ->
  (unread s' < unread s)%nat.
Proof.
  intros Hwf. unfold getNextToken.
  pose proof (gettok_post_holds s Hwf) as [W F1 F2 F3 F4 Ha Hu He Ht Hi].
  destruct (gettok s) as [t0 s0]. simpl in *. intros [= <- <-] Hne.
  unfold unread in *. simpl. apply Hu. intros E. now apply Ha in E.
Qed.

Lemma ParsePrototypeArgs_quiet fuel : forall a s r,
  lex_wf s -> ParsePrototypeArgs fuel a s = Some r ->
  quiet s (snd r) /\
  (CurTok s <> EOFToken -> (remaining (snd r) < remaining s)%nat).
Proof.
  induction fuel as [|fuel IH]; intros a s r W; [discriminate|].
  rewrite ParsePrototypeArgs_S. run_token.
  destruct (Z.eqb_spec t IdentifierToken) as [Et|Et].
  - intros H'. apply IH in H' as [Q' S']; [|assumption].
    assert (CurTok s0 <> EOFToken) by (rewrite C, Et; discriminate).
    quiet_facts. split; [quiet_chain|]. lia.
  - intros [= <-]. simpl. auto.
Qed.

Lemma ParsePrototypeArgs_terminates fuel : forall a s,
  lex_wf s -> (unread s < fuel)%nat -> is_Some (ParsePrototypeArgs fuel a s).
Proof.
  induction fuel as [|fuel IH]; intros a s W Hlt; [lia|].
  rewrite ParsePrototypeArgs_S. run_token.
  destruct (Z.eqb_spec t IdentifierToken) as [Et|Et]; [|eauto].
  apply IH; [assumption|].
  assert (t <> EOFToken) by (rewrite Et; discriminate).
  pose proof (getNextToken_unread _ _ _ W E). lia.
Qed.

Lemma LogErrorP_parsed (P : Prop) msg s :
  lex_wf s -> parsed P s (LogErrorP msg s).
Proof.
  intros H. exists s, msg. split; [now apply quiet_refl | reflexivity].
Qed.

Lemma ParsePrototype_parsed fuel s r :
  lex_wf s -> ParsePrototype fuel s = Some r -> parsed True s r.
Proof.
  intros W. unfold ParsePrototype.
  destruct (Z.eqb_spec (CurTok s) IdentifierToken) as [Et|Et]; simpl.
  2:{ intros [= <-]. now apply LogErrorP_parsed. }
  assert (L0 : CurTok s <> EOFToken) by (rewrite Et; discriminate).
  run_token. specialize (L L0).
  destruct (negb (CurTok s0 =? chr "(")).
  { intros [= <-]. exists s0, "Expected '(' in prototype". split; [assumption|reflexivity]. }
  destruct (ParsePrototypeArgs fuel [] s0) as [[names s1]|] eqn:E1; [|discriminate].
  apply ParsePrototypeArgs_quiet in E1 as [Q1 _]; [|assumption]. simpl in Q1.
  pose proof (quiet_wf _ _ Q1).
  destruct (negb (CurTok s1 =? chr ")")).
  { intros [= <-]. exists s1, "Expected ')' in prototype". split; [quiet_chain|reflexivity]. }
  run_token. intros [= <-]. quiet_facts. split; [quiet_chain|]. intros _. lia.
Qed.

Lemma ParsePrototype_terminates fuel s :
  lex_wf s -> (remaining s < fuel)%nat -> is_Some (ParsePrototype fuel s).
Proof.
  intros W Hf. unfold ParsePrototype.
  destruct (negb (CurTok s =? IdentifierToken)); [eauto|].
  run_token.
  destruct (negb (CurTok s0 =? chr "(")); [eauto|].
  destruct (ParsePrototypeArgs_terminates fuel [] s0 H) as [[names s1] E1].
  { destruct Q. unfold remaining in *. lia. }
  rewrite E1. destruct (negb (CurTok s1 =? chr ")")); [eauto|].
  destruct (getNextToken s1). eauto.
Qed.

Lemma ParseExpression_terminates fuel s :
  lex_wf s -> (4 * remaining s + 3 <= fuel)%nat -> is_Some (ParseExpression fuel s).
Proof.
  intros W Hf.
  destruct (parser_terminates _ s W (Nat.le_refl _)) as (_ & _ & _ & _ & He & _).
  now rewrite (ParseExpression_ge (4 * remaining s + 3) fuel).
Qed.

Lemma ParseExpression_parsed fuel s r :
  lex_wf s -> ParseExpression fuel s = Some r -> parsed True s r.
Proof. apply parser_parsed. Qed.

Lemma ParseDefinition_parsed fuel s r :
  lex_wf s -> ParseDefinition fuel s = Some r -> parsed True s r.
Proof.
  intros W. unfold ParseDefinition. run_token.
  destruct (ParsePrototype fuel s0) as [[[proto|] s1]|] eqn:E1; [| |discriminate].
  2:{ intros [= <-]. apply ParsePrototype_parsed in E1; [|assumption].
      destruct E1 as (s2 & msg & Q2 & ->). exists s2, msg.
      split; [quiet_chain|reflexivity]. }
  apply ParsePrototype_parsed in E1 as [Q1 _]; [|assumption].
  pose proof (quiet_wf _ _ Q1).
  destruct (ParseExpression fuel s1) as [[[e|] s2]|] eqn:E2; [| |discriminate];
    apply ParseExpression_parsed in E2; try assumption; intros [= <-].
  - destruct E2 as [Q2 S2]. specialize (S2 I). quiet_facts.
    split; [quiet_chain|]. intros _. lia.
  - destruct E2 as (s3 & msg & Q2 & ->). exists s3, msg.
    split; [quiet_chain|reflexivity].
Qed.

Lemma ParseDefinition_terminates fuel s :
  lex_wf s -> (4 * remaining s + 3 <= fuel)%nat ->
  is_Some (ParseDefinition fuel s).
Proof.
  intros W Hf. unfold ParseDefinition. run_token. quiet_facts.
  destruct (ParsePrototype_terminates fuel s0) as [[r s1] E1]; [assumption|lia|].
  rewrite E1. apply ParsePrototype_parsed in E1; [|assumption].
  destruct r; [|eauto]. destruct E1 as [Q1 _]. quiet_facts.
  destruct (ParseExpression_terminates fuel s1) as [[[e|] s2] E2];
    [assumption|lia| |]; rewrite E2; eauto.
Qed.

Lemma ParseExtern_parsed fuel s r :
  lex_wf s -> ParseExtern fuel s = Some r -> parsed True s r.
Proof.
  intros W. unfold ParseExtern. run_token. intros H'.
  apply ParsePrototype_parsed in H'; [|assumption].
  eapply parsed_after; eauto.
Qed.

Lemma ParseExtern_terminates fuel s :
  lex_wf s -> (4 * remaining s + 3 <= fuel)%nat -> is_Some (ParseExtern fuel s).
Proof.
  intros W Hf. unfold ParseExtern. run_token. quiet_facts.
  apply ParsePrototype_terminates; [assumption|lia].
Qed.

Lemma ParseTopLevelExpr_parsed fuel s r :
  lex_wf s -> ParseTopLevelExpr fuel s = Some r -> parsed True s r.
Proof.
  intros W. unfold ParseTopLevelExpr.
  destruct (ParseExpression fuel s) as [[[e|] s2]|] eqn:E2; [| |discriminate];
    apply ParseExpression_parsed in E2; try assumption; intros [= <-]; exact E2.
Qed.

Lemma ParseTopLevelExpr_terminates fuel s :
  lex_wf s -> (4 * remaining s + 3 <= fuel)%nat ->
  is_Some (ParseTopLevelExpr fuel s).
Proof.
  intros W Hf. unfold ParseTopLevelExpr.
  destruct (ParseExpression_terminates fuel s W Hf) as [[[e|] s2] E2];
    rewrite E2; eauto.
Qed.

(** The handlers share one shape: report a success, or skip a token. *)
Lemma handler_handled {A} (report : string) s (res : option A * state) :
  lex_wf s -> parsed True s res ->
  handled s (match res with
             | (Some _, s1) => fprintf_stderr report s1
             | (None, s1) => snd (getNextToken s1)
             end).
Proof.
  intros W. destruct res as [[a|] s1]; simpl.
  - intros [[] S1]. specialize (S1 I). split; simpl; auto; try lia.
    exists report. congruence.
  - intros (s0 & msg & Q & ->).
    assert (W0 : lex_wf (fprintf_stderr (error_line msg) s0)) by apply Q.
    destruct (getNextToken _) as [t s2] eqn:E. simpl.
    destruct (getNextToken_quiet _ _ _ W0 E) as ([] & _ & _ & L).
    destruct Q. simpl in *.
    change (remaining (fprintf_stderr (error_line msg) s0)) with (remaining s0) in *.
    split; auto; try lia.
    + intros Hne. destruct (Z.eqb_spec (CurTok s0) EOFToken) as [E0|E0];
        [|specialize (L E0); lia].
      unfold remaining in *.
      destruct (Z.eqb_spec (CurTok s0) EOFToken); [|contradiction].
      destruct (Z.eqb_spec (CurTok s) EOFToken); [contradiction|]. lia.
    + eauto using same_operators_trans.
    + exists (error_line msg). congruence.
    + congruence.
Qed.

Lemma HandleDefinition_handled fuel s s' :
  lex_wf s -> HandleDefinition fuel s = Some s' -> handled s s'.
Proof.
  intros W. unfold HandleDefinition.
  destruct (ParseDefinition fuel s) as [res|] eqn:E; [|discriminate].
  apply ParseDefinition_parsed in E; [|assumption].
  pose proof (handler_handled ("Parsed a function definition." +:+ newline) s res W E) as H.
  destruct res as [[?|] s1]; [|destruct (getNextToken s1)]; now intros [= <-].
Qed.

Lemma HandleExtern_handled fuel s s' :
  lex_wf s -> HandleExtern fuel s = Some s' -> handled s s'.
Proof.
  intros W. unfold HandleExtern.
  destruct (ParseExtern fuel s) as [res|] eqn:E; [|discriminate].
  apply ParseExtern_parsed in E; [|assumption].
  pose proof (handler_handled ("Parsed an extern" +:+ newline) s res W E) as H.
  destruct res as [[?|] s1]; [|destruct (getNextToken s1)]; now intros [= <-].
Qed.

Lemma HandleTopLevelExpression_handled fuel s s' :
  lex_wf s -> HandleTopLevelExpression fuel s = Some s' -> handled s s'.
Proof.
  intros W. unfold HandleTopLevelExpression.
  destruct (ParseTopLevelExpr fuel s) as [res|] eqn:E; [|discriminate].
  apply ParseTopLevelExpr_parsed in E; [|assumption].
  pose proof (handler_handled ("Parsed a top-level expr" +:+ newline) s res W E) as H.
  destruct res as [[?|] s1]; [|destruct (getNextToken s1)]; now intros [= <-].
Qed.

Lemma HandleDefinition_terminates fuel s :
  lex_wf s -> (4 * remaining s + 3 <= fuel)%nat ->
  is_Some (HandleDefinition fuel s).
Proof.
  intros W Hf. unfold HandleDefinition.
  destruct (ParseDefinition_terminates fuel s W Hf) as [[[?|] s1] ->];
    [|destruct (getNextToken s1)]; eauto.
Qed.

Lemma HandleExtern_terminates fuel s :
  lex_wf s -> (4 * remaining s + 3 <= fuel)%nat -> is_Some (HandleExtern fuel s).
Proof.
  intros W Hf. unfold HandleExtern.
  destruct (ParseExtern_terminates fuel s W Hf) as [[[?|] s1] ->];
    [|destruct (getNextToken s1)]; eauto.
Qed.

Lemma HandleTopLevelExpression_terminates fuel s :
  lex_wf s -> (4 * remaining s + 3 <= fuel)%nat ->
  is_Some (HandleTopLevelExpression fuel s).
Proof.
  intros W Hf. unfold HandleTopLevelExpression.
  destruct (ParseTopLevelExpr_terminates fuel s W Hf) as [[[?|] s1] ->];
    [|destruct (getNextToken s1)]; eauto.
Qed.

Lemma main_loop_S fuel s :
  main_loop (S fuel) s =
    let s := cout "> " s in
    if CurTok s =? EOFToken then Some s
    else if CurTok s =? chr ";" then
      let '(_, s) := getNextToken s in main_loop fuel s
    else if CurTok s =? DefToken then
      match HandleDefinition fuel s with
      | Some s => main_loop fuel s
      | None => None
      end
    else if CurTok s =? ExternToken then
      match HandleExtern fuel s with
      | Some s => main_loop fuel s
      | None => None
      end
    else
      match HandleTopLevelExpression fuel s with
      | Some s => main_loop fuel s
      | None => None
      end.
Proof. reflexivity. Qed.

Lemma main_loop_terminates fuel : forall s,
  lex_wf s -> (4 * remaining s + 4 <= fuel)%nat -> is_Some (main_loop fuel s).
Proof.
  induction fuel as [|fuel IH]; intros s W Hf; [lia|].
  rewrite main_loop_S. cbv zeta.
  assert (W' : lex_wf (cout "> " s)) by exact W.
  change (remaining s) with (remaining (cout "> " s)) in Hf.
  revert W' Hf. generalize (cout "> " s). clear s W. intros s W Hf.
  destruct (Z.eqb_spec (CurTok s) EOFToken) as [E0|E0]; [eauto|].
  assert (Hnext : forall s', handled s s' -> is_Some (main_loop fuel s')).
  { intros s' [W' _ Hadv _ _ _]. apply IH; [assumption|]. specialize (Hadv E0). lia. }
  destruct (CurTok s =? chr ";").
  { run_token. apply IH; [assumption|]. specialize (L E0). lia. }
  destruct (CurTok s =? DefToken).
  { destruct (HandleDefinition_terminates fuel s W) as [s' E]; [lia|].
    rewrite E. eapply Hnext, HandleDefinition_handled; eauto. }
  destruct (CurTok s =? ExternToken).
  { destruct (HandleExtern_terminates fuel s W) as [s' E]; [lia|].
    rewrite E. eapply Hnext, HandleExtern_handled; eauto. }
  destruct (HandleTopLevelExpression_terminates fuel s W) as [s' E]; [lia|].
  rewrite E. eapply Hnext, HandleTopLevelExpression_handled; eauto.
Qed.

Lemma initial_wf inp : lex_wf (initial inp).
Proof. unfold lex_wf; simpl. change (chr " ") with 32. lia. Qed.

Lemma main_terminates inp :
  is_Some (main (4 * (2 * S (String.length inp) + 1) + 4) inp).
Proof.
  unfold main.
  assert (W : lex_wf (cout "> " (install_operators (initial inp))))
    by apply initial_wf.
  run_token. apply main_loop_terminates; [assumption|].
  destruct Q as [_ Hr _ _ _].
  assert (remaining (cout "> " (install_operators (initial inp))) =
          (2 * S (String.length inp) + 1)%nat) by reflexivity.
  lia.
Qed.

(** ** Maximal munch

    What the scanning loops do on an input that is laid out as blanks, the
    first character of a token, the rest of its run, and what follows. *)

Lemma skip_whitespace_layout ws : forall lc inp c tail,
  0 <= lc <= 255 ->
  String (char_of_int lc) inp = ws +:+ String c tail ->
  all_chars isspace ws = true -> isspace (chr c) = false ->
  skip_whitespace lc inp = (chr c, tail).
Proof.
  induction ws as [|w ws IH]; intros lc inp c tail Hlc Heq Hws Hc.
  - injection Heq as E1 E2. subst inp.
    assert (lc = chr c) as -> by (rewrite <- E1; now rewrite chr_char_of_int).
    destruct tail; simpl; now rewrite Hc.
  - rewrite append_cons in Heq. injection Heq as E1 E2.
    simpl in Hws. apply andb_true_iff in Hws as [Hw Hws].
    assert (lc = chr w) as -> by (rewrite <- E1; now rewrite chr_char_of_int).
    destruct inp as [|a inp].
    { destruct ws; discriminate E2. }
    simpl. rewrite Hw. apply IH; auto using chr_range.
    now rewrite char_of_int_chr.
Qed.

Lemma scan_identifier_layout run : forall id rest,
  all_chars isalnum run = true -> ends_run isalnum rest = true ->
  scan_identifier id (run +:+ rest) = (id +:+ run, fst (getchar rest), snd (getchar rest)).
Proof.
  induction run as [|a run IH]; intros id rest Hrun Hend.
  - rewrite append_nil_r. change ("" +:+ rest) with rest.
    unfold ends_run in Hend. apply negb_true_iff in Hend.
    destruct rest as [|b rest]; simpl in *; [reflexivity|now rewrite Hend].
  - simpl in Hrun. apply andb_true_iff in Hrun as [Ha Hrun].
    rewrite append_cons. simpl. rewrite Ha, IH by assumption.
    now rewrite append_snoc.
Qed.

Lemma scan_number_layout run : forall num c rest,
  all_chars isnumeric run = true -> ends_run isnumeric rest = true ->
  scan_number num (chr c) (run +:+ rest) =
    (num +:+ String c run, fst (getchar rest), snd (getchar rest)).
Proof.
  induction run as [|a run IH]; intros num c rest Hrun Hend.
  - change ("" +:+ rest) with rest.
    unfold ends_run, isnumeric in Hend. apply negb_true_iff in Hend.
    destruct rest as [|b rest]; simpl in *; rewrite char_of_int_chr;
      [reflexivity|now rewrite Hend].
  - simpl in Hrun. apply andb_true_iff in Hrun as [Ha Hrun].
    rewrite append_cons. simpl. unfold isnumeric in Ha. rewrite Ha.
    rewrite IH by assumption. now rewrite char_of_int_chr, append_snoc.
Qed.

Lemma skip_comment_layout text : forall rest,
  all_chars iscomment text = true -> ends_run iscomment rest = true ->
  skip_comment (text +:+ rest) = getchar rest.
Proof.
  induction text as [|a text IH]; intros rest Htext Hend.
  - change ("" +:+ rest) with rest.
    unfold ends_run, iscomment in Hend. apply negb_true_iff in Hend.
    destruct rest as [|b rest]; simpl in *; [reflexivity|now rewrite Hend].
  - simpl in Htext. apply andb_true_iff in Htext as [Ha Htext].
    rewrite append_cons. simpl. unfold iscomment in Ha. rewrite Ha. now apply IH.
Qed.

Lemma isalpha_not_space c : isalpha c = true -> isspace c = false.
Proof.
  intros H. apply isalpha_spec in H. apply not_true_iff_false.
  rewrite isspace_spec. lia.
Qed.

Lemma isnumeric_spec c : isnumeric c = true <-> (48 <= c <= 57 \/ c = 46).
Proof.
  unfold isnumeric. change (chr ".") with 46.
  rewrite orb_true_iff, isdigit_spec, Z.eqb_eq. tauto.
Qed.

Lemma isnumeric_not_space c : isnumeric c = true -> isspace c = false.
Proof.
  intros H. apply isnumeric_spec in H. apply not_true_iff_false.
  rewrite isspace_spec. lia.
Qed.

Lemma isnumeric_not_alpha c : isnumeric c = true -> isalpha c = false.
Proof.
  intros H. apply isnumeric_spec in H. apply not_true_iff_false.
  rewrite isalpha_spec. lia.
Qed.

(** ** The token stream ends *)

Lemma lex_terminates fuel : forall s,
  lex_wf s -> (unread s < fuel)%nat -> is_Some (lex fuel s).
Proof.
  induction fuel as [|fuel IH]; intros s W Hf; [lia|]. simpl.
  pose proof (gettok_post_holds s W) as [W' _ _ _ _ Ha Hu _ _ _].
  destruct (gettok s) as [t s']. simpl in *.
  destruct (Z.eqb_spec t EOFToken) as [E|E]; [eauto|].
  assert (Hne : LastChar s <> EOF) by (intros E'; now apply Ha in E').
  specialize (Hu Hne).
  destruct (IH s' W') as [l ->]; [lia|]. simpl. eauto.
Qed.

(** * The lexer *)

(** [gettok] on an input laid out as blanks, a letter, the rest of its
    alphanumeric run and what follows. *)
Lemma gettok_identifier s ws c run rest :
  0 <= LastChar s <= 255 ->
  String (char_of_int (LastChar s)) (stdin s) = ws +:+ String c (run +:+ rest) ->
  all_chars isspace ws = true ->
  isalpha (chr c) = true ->
  all_chars isalnum run = true ->
  ends_run isalnum rest = true ->
  gettok s =
    ((if String.eqb (String c run) "def" then DefToken
      else if String.eqb (String c run) "extern" then ExternToken
      else IdentifierToken),
     set_IdentifierStr (String c run)
       (set_lexer (fst (getchar rest)) (snd (getchar rest)) s)).
Proof.
  intros Hlc Hlay Hws Hc Hrun Hend.
  rewrite gettok_eq. cbv zeta.
  rewrite (skip_whitespace_layout ws _ _ c (run +:+ rest))
    by auto using isalpha_not_space.
  fields. rewrite Hc, char_of_int_chr.
  rewrite scan_identifier_layout by assumption.
  change (String c "" +:+ run) with (String c run).
  repeat case_match; reflexivity.
Qed.

(** C6: lexing the texts "def" and "extern" gives [DefToken] and
    [ExternToken]; any other run of alphanumeric characters that starts
    with a letter gives [IdentifierToken] with the run in [IdentifierStr];
    and [gettok] never answers [IdentifierToken] with "def" or "extern" in
    [IdentifierStr]. *)
Theorem keywords_and_identifiers :
  fst (gettok (initial "def")) = DefToken /\
  fst (gettok (initial "extern")) = ExternToken /\
  (forall s ws c run rest,
     0 <= LastChar s <= 255 ->
     String (char_of_int (LastChar s)) (stdin s)
       = ws +:+ String c (run +:+ rest) ->
     all_chars isspace ws = true ->
     isalpha (chr c) = true ->
     all_chars isalnum run = true ->
     ends_run isalnum rest = true ->
     let text := String c run in
     let '(t, s') := gettok s in
     (text = "def" -> t = DefToken) /\
     (text = "extern" -> t = ExternToken) /\
     (text <> "def" -> text <> "extern" -> t = IdentifierToken) /\
     IdentifierStr s' = text /\
     LastChar s' = fst (getchar rest) /\ stdin s' = snd (getchar rest)) /\
  (forall s,
     lex_wf s -> fst (gettok s) = IdentifierToken ->
     IdentifierStr (snd (gettok s)) <> "def" /\
     IdentifierStr (snd (gettok s)) <> "extern").
Proof.
  split; [reflexivity|]. split; [reflexivity|]. split.
  - intros s ws c run rest Hlc Hlay Hws Hc Hrun Hend text.
    rewrite (gettok_identifier s ws c run rest) by assumption.
    fold text. fields.
    destruct (String.eqb_spec text "def") as [E1|E1].
    { repeat split; auto; try contradiction. rewrite E1. discriminate. }
    destruct (String.eqb_spec text "extern") as [E2|E2];
      repeat split; auto; try contradiction.
  - intros s W Ht.
    destruct (gettok_post_holds s W) as [_ _ _ _ _ _ _ _ _ Hi].
    destruct (Hi Ht) as (c & tail & _ & _ & H1 & H2). auto.
Qed.

Lemma keywords_and_identifiers_witness :
  let s := initial "  foo123 =" in
  let '(t, s') := gettok s in
  ("foo123" = "def" -> t = DefToken) /\
  ("foo123" = "extern" -> t = ExternToken) /\
  ("foo123" <> "def" -> "foo123" <> "extern" -> t = IdentifierToken) /\
  IdentifierStr s' = "foo123" /\
  LastChar s' = chr " " /\ stdin s' = "=".
Proof.
  exact (proj1 (proj2 (proj2 keywords_and_identifiers))
           (initial "  foo123 =") "   " "f"%char "oo123" " ="
           ltac:(vm_compute; split; discriminate) eq_refl eq_refl eq_refl
           eq_refl eq_refl).
Defined.

(** [gettok] on an input laid out as blanks, a '#', the text of the
    comment, and the end of the line or of the input. *)
Lemma gettok_comment s ws text rest :
  0 <= LastChar s <= 255 ->
  String (char_of_int (LastChar s)) (stdin s)
    = ws +:+ String "#" (text +:+ rest) ->
  all_chars isspace ws = true ->
  all_chars iscomment text = true ->
  ends_run iscomment rest = true ->
  gettok s =
    match rest with
    | String nl rest' => gettok (set_lexer (chr nl) rest' s)
    | EmptyString => (EOFToken, set_lexer EOF "" s)
    end.
Proof.
  intros Hlc Hlay Hws Htext Hend.
  rewrite gettok_eq. cbv zeta.
  rewrite (skip_whitespace_layout ws _ _ "#" (text +:+ rest)) by auto.
  fields. change (isalpha (chr "#")) with false. cbv iota.
  change (isdigit (chr "#") || (chr "#" =? chr ".")) with false. cbv iota.
  rewrite Z.eqb_refl. rewrite skip_comment_layout by assumption.
  destruct rest as [|nl rest']; simpl; [reflexivity|].
  destruct (Z.eqb_spec (chr nl) EOF) as [E|E]; [now apply chr_not_EOF in E|].
  reflexivity.
Qed.

(** [gettok] on an input laid out as blanks, a digit or a dot, the rest
    of the run of digits and dots, and what follows. *)
Lemma gettok_number s ws c run rest :
  0 <= LastChar s <= 255 ->
  String (char_of_int (LastChar s)) (stdin s) = ws +:+ String c (run +:+ rest) ->
  all_chars isspace ws = true ->
  isnumeric (chr c) = true ->
  all_chars isnumeric run = true ->
  ends_run isnumeric rest = true ->
  gettok s =
    (NumberToken,
     set_NumVal (strtod (String c run))
       (set_lexer (fst (getchar rest)) (snd (getchar rest)) s)).
Proof.
  intros Hlc Hlay Hws Hc Hrun Hend.
  rewrite gettok_eq. cbv zeta.
  rewrite (skip_whitespace_layout ws _ _ c (run +:+ rest))
    by auto using isnumeric_not_space.
  fields. rewrite (isnumeric_not_alpha _ Hc).
  unfold isnumeric in Hc. rewrite Hc.
  rewrite scan_number_layout by assumption. reflexivity.
Qed.

(** C7: a '#' starts a comment; [gettok] drops everything up to the end
    of the line and goes on with the line end as its pending character,
    or answers [EOFToken] when the input ends first; whatever the text of
    the comment, "1 #<text>\n2" lexes as the numbers 1 and 2, and so does
    "1 # comment\n2". *)
Theorem comment_skipped :
  (forall s ws text rest,
     0 <= LastChar s <= 255 ->
     String (char_of_int (LastChar s)) (stdin s)
       = ws +:+ String "#" (text +:+ rest) ->
     all_chars isspace ws = true ->
     all_chars iscomment text = true ->
     ends_run iscomment rest = true ->
     gettok s =
       match rest with
       | String nl rest' => gettok (set_lexer (chr nl) rest' s)
       | EmptyString => (EOFToken, set_lexer EOF "" s)
       end) /\
  (forall text,
     all_chars iscomment text = true ->
     lex 3 (initial ("1 #" +:+ text +:+ newline +:+ "2"))
       = Some [Number (strtod "1"); Number (strtod "2")]) /\
  lex 3 (initial ("1 # comment" +:+ newline +:+ "2"))
    = Some [Number (strtod "1"); Number (strtod "2")] /\
  nearest_double 1 1 (strtod "1") /\ nearest_double 2 1 (strtod "2").
Proof.
  split; [exact gettok_comment|].
  assert (H : forall text,
     all_chars iscomment text = true ->
     lex 3 (initial ("1 #" +:+ text +:+ newline +:+ "2"))
       = Some [Number (strtod "1"); Number (strtod "2")]).
  { intros text Htext.
    change ("1 #" +:+ text +:+ newline +:+ "2")
      with (String "1" (String " " (String "#" (text +:+ newline +:+ "2")))).
    set (tail := String "#" (text +:+ newline +:+ "2")).
    cbn [lex].
    rewrite (gettok_number _ " " "1" "" (String " " tail));
      [|vm_compute; split; discriminate|reflexivity..].
    cbn [Z.eqb NumberToken EOFToken getchar fst snd]. cbv iota.
    match goal with |- context [gettok ?s] => set (s1 := s) end.
    rewrite (gettok_comment s1 " " text (newline +:+ "2"));
      [|vm_compute; split; discriminate|reflexivity|reflexivity|assumption|reflexivity].
    change (newline +:+ "2") with (String (ascii_of_nat 10) "2"). cbv iota.
    rewrite (gettok_number _ (String (ascii_of_nat 10) "") "2" "" "");
      [|vm_compute; split; discriminate|reflexivity..].
    cbn [Z.eqb NumberToken EOFToken getchar fst snd]. cbv iota.
    reflexivity. }
  split; [exact H|]. split; [exact (H " comment" eq_refl)|].
  split; vm_compute; intuition discriminate.
Qed.

Lemma comment_skipped_witness :
  gettok (initial ("  # note" +:+ newline +:+ "x"))
    = gettok (set_lexer 10 "x" (initial ("  # note" +:+ newline +:+ "x"))) /\
  lex 3 (initial ("1 ## 3 + 4 #" +:+ newline +:+ "2"))
    = Some [Number (strtod "1"); Number (strtod "2")].
Proof.
  split.
  - exact (proj1 comment_skipped
             (initial ("  # note" +:+ newline +:+ "x")) "   " " note"
             (newline +:+ "x")
             ltac:(vm_compute; split; discriminate) eq_refl eq_refl eq_refl
             eq_refl).
  - exact (proj1 (proj2 comment_skipped) "# 3 + 4 #" eq_refl).
Defined.

(** C8: a run of digits and dots at the start of a token gives one
    [NumberToken] whose [NumVal] is [strtod] of the whole run; "3.14" gives
    the double nearest to 3.14, ".5" gives 0.5, and "1.2.3" is still one
    number token (with the value of "1.2") and no error. *)
Theorem number_literals :
  (forall s ws c run rest,
     0 <= LastChar s <= 255 ->
     String (char_of_int (LastChar s)) (stdin s)
       = ws +:+ String c (run +:+ rest) ->
     all_chars isspace ws = true ->
     isnumeric (chr c) = true ->
     all_chars isnumeric run = true ->
     ends_run isnumeric rest = true ->
     let '(t, s') := gettok s in
     t = NumberToken /\ NumVal s' = strtod (String c run) /\
     LastChar s' = fst (getchar rest) /\ stdin s' = snd (getchar rest) /\
     stderr s' = stderr s) /\
  (lex 2 (initial "3.14") = Some [Number (strtod "3.14")] /\
   strtod "3.14" = S754_finite false 7070651414971679 (-51) /\
   nearest_double 314 100 (strtod "3.14")) /\
  (lex 2 (initial ".5") = Some [Number (strtod ".5")] /\
   strtod ".5" = S754_finite false 4503599627370496 (-53) /\
   nearest_double 5 10 (strtod ".5")) /\
  (lex 2 (initial "1.2.3") = Some [Number (strtod "1.2.3")] /\
   strtod "1.2.3" = strtod "1.2" /\
   stderr (snd (gettok (initial "1.2.3"))) = []).
Proof.
  split.
  - intros s ws c run rest Hlc Hlay Hws Hc Hrun Hend.
    rewrite (gettok_number s ws c run rest) by assumption.
    fields. auto.
  - repeat split; try reflexivity; vm_compute; discriminate.
Qed.

Lemma number_literals_witness :
  let '(t, s') := gettok (initial " 12.5.7+x") in
  t = NumberToken /\ NumVal s' = strtod "12.5.7" /\
  LastChar s' = chr "+" /\ stdin s' = "x" /\ stderr s' = [].
Proof.
  exact (proj1 number_literals (initial " 12.5.7+x") "  " "1"%char "2.5.7" "+x"
           ltac:(vm_compute; split; discriminate) eq_refl eq_refl eq_refl
           eq_refl eq_refl).
Defined.

Lemma lexer_after_wf n inp : lex_wf (lexer_after n inp).
Proof.
  induction n as [|n IH]; [apply initial_wf|].
  unfold lexer_after in *. simpl. now apply gettok_post_holds.
Qed.

(** C9: [ParseTopLevelExpr] wraps the expression it parsed in a function
    whose prototype is named "__anon_expr" and has no parameters, and fails
    when the expression fails; and no input makes [gettok], however often
    it is called, answer [IdentifierToken] with "__anon_expr" in
    [IdentifierStr]: that text always starts with a letter. *)
Theorem anonymous_name_reserved :
  (forall fuel s,
     ParseTopLevelExpr fuel s =
       match ParseExpression fuel s with
       | Some (Some E, s') =>
           Some (Some (mkFunctionAST (mkPrototypeAST "__anon_expr" []) E), s')
       | Some (None, s') => Some (None, s')
       | None => None
       end) /\
  (forall inp n,
     fst (gettok (lexer_after n inp)) = IdentifierToken ->
     (exists c tail,
        IdentifierStr (snd (gettok (lexer_after n inp))) = String c tail /\
        isalpha (chr c) = true) /\
     IdentifierStr (snd (gettok (lexer_after n inp))) <> "__anon_expr").
Proof.
  split; [reflexivity|].
  intros inp n Ht.
  destruct (gettok_post_holds _ (lexer_after_wf n inp)) as [_ _ _ _ _ _ _ _ _ Hi].
  destruct (Hi Ht) as (c & tail & Hc & Hid & _).
  split; [eauto|]. rewrite Hid. intros [= -> _]. discriminate Hc.
Qed.

Lemma anonymous_name_reserved_witness :
  (exists c tail,
     IdentifierStr (snd (gettok (lexer_after 2 "def anon expr"))) = String c tail /\
     isalpha (chr c) = true) /\
  IdentifierStr (snd (gettok (lexer_after 2 "def anon expr"))) <> "__anon_expr".
Proof.
  exact (proj2 anonymous_name_reserved "def anon expr" 2%nat eq_refl).
Defined.

(** * The parser *)

Lemma GetTokPrecedence_run s :
  exists m, same_operators m (BinopPrecedence s) /\
            GetTokPrecedence s = (tok_precedence s, set_BinopPrecedence m s).
Proof.
  pose proof (GetTokPrecedence_spec s) as H.
  destruct (GetTokPrecedence s) as [p s']. destruct H as (-> & -> & Hops).
  exists (BinopPrecedence s'). split; [assumption|]. destruct s'; reflexivity.
Qed.

(** Runs the parse functions on a state whose input is known and whose
    table is known only through [precedence]. *)
Ltac run_lexer :=
  match goal with
  | |- context [getNextToken ?s] =>
      let r := eval vm_compute in (getNextToken s) in
      change (getNextToken s) with r
  end.

Ltac run_precedence :=
  match goal with
  | |- context [GetTokPrecedence ?s] =>
      let m := fresh "m" in let Hm := fresh "Hm" in
      destruct (GetTokPrecedence_run s) as (m & Hm & ->);
      unfold tok_precedence, same_operators in *; fields;
      match goal with
      | |- context [isascii ?c] =>
          let r := eval vm_compute in (isascii c) in change (isascii c) with r
      end;
      cbv iota
  end.

Ltac run_test :=
  match goal with
  | |- context [Z.eqb ?a ?b] =>
      let r := eval vm_compute in (Z.eqb a b) in
      match r with true => idtac | false => idtac end;
      change (Z.eqb a b) with r
  | |- context [Z.ltb ?a ?b] => destruct (Z.ltb_spec a b); try lia
  end.

Ltac run_parser :=
  repeat first
    [ progress parser_step
    | progress (cbv zeta; fields; cbv iota; cbn [negb])
    | progress unfold ParseNumberExpr
    | run_lexer
    | run_precedence
    | progress repeat match goal with
                      | H : forall k, precedence _ k = _ |- _ => rewrite H
                      end
    | match goal with H : precedence _ _ = _ |- _ => rewrite H end
    | run_test ].

(** One turn of the loop of [ParseBinOpRHS], when the operator is taken. *)
Lemma ParseBinOpRHS_turn fuel ExprPrec LHS s TokPrec s1 t s2 RHS s3 NextPrec s4 :
  GetTokPrecedence s = (TokPrec, s1) -> ExprPrec <= TokPrec ->
  getNextToken s1 = (t, s2) ->
  ParsePrimary fuel s2 = Some (Some RHS, s3) ->
  GetTokPrecedence s3 = (NextPrec, s4) ->
  ParseBinOpRHS (S fuel) ExprPrec LHS s =
    if TokPrec <? NextPrec then
      match ParseBinOpRHS fuel (TokPrec + 1) RHS s4 with
      | Some (Some RHS', s5) =>
          ParseBinOpRHS fuel ExprPrec
            (BinaryExprAST (char_of_int (CurTok s1)) LHS RHS') s5
      | Some (None, s5) => Some (None, s5)
      | None => None
      end
    else
      ParseBinOpRHS fuel ExprPrec
        (BinaryExprAST (char_of_int (CurTok s1)) LHS RHS) s4.
Proof.
  intros E1 Hge E2 E3 E4. rewrite ParseBinOpRHS_S, E1.
  destruct (Z.ltb_spec TokPrec ExprPrec); [lia|].
  cbv zeta. rewrite E2, E3, E4. now destruct (TokPrec <? NextPrec).
Qed.

(** C1: in [ParseBinOpRHS], when the operator after the right-hand side
    binds strictly tighter than the one just consumed, the right-hand side
    is first extended by the call with [TokPrec + 1]; so with any table in
    which '*' has a greater precedence than '+' (such as '+': 20,
    '*': 40), [ParsePrimary] followed by [ParseBinOpRHS 0], that is
    [ParseExpression], turns "1+2*3" into 1 + (2 * 3). *)
Theorem product_binds_tighter :
  (forall fuel ExprPrec LHS s TokPrec s1 t s2 RHS s3 NextPrec s4,
     GetTokPrecedence s = (TokPrec, s1) -> ExprPrec <= TokPrec ->
     getNextToken s1 = (t, s2) ->
     ParsePrimary fuel s2 = Some (Some RHS, s3) ->
     GetTokPrecedence s3 = (NextPrec, s4) ->
     TokPrec < NextPrec ->
     ParseBinOpRHS (S fuel) ExprPrec LHS s =
       match ParseBinOpRHS fuel (TokPrec + 1) RHS s4 with
       | Some (Some RHS', s5) =>
           ParseBinOpRHS fuel ExprPrec
             (BinaryExprAST (char_of_int (CurTok s1)) LHS RHS') s5
       | Some (None, s5) => Some (None, s5)
       | None => None
       end) /\
  (forall tbl p q,
     precedence tbl (chr "+") = p -> precedence tbl (chr "*") = q ->
     0 < p -> p < q ->
     let s := parser_start tbl "1+2*3" in
     let tree :=
       BinaryExprAST "+" (NumberExprAST (strtod "1"))
         (BinaryExprAST "*" (NumberExprAST (strtod "2"))
                            (NumberExprAST (strtod "3"))) in
     exists s1 s',
       ParsePrimary 4 s = Some (Some (NumberExprAST (strtod "1")), s1) /\
       ParseBinOpRHS 4 0 (NumberExprAST (strtod "1")) s1 = Some (Some tree, s') /\
       (forall fuel, (5 <= fuel)%nat ->
          ParseExpression fuel s = Some (Some tree, s')) /\
       CurTok s' = EOFToken /\ stderr s' = []) /\
  fst <$> ParseExpression 5
            (parser_start {[ chr "+" := 20; chr "*" := 40 ]} "1+2*3")
    = Some (Some
        (BinaryExprAST "+" (NumberExprAST (strtod "1"))
           (BinaryExprAST "*" (NumberExprAST (strtod "2"))
                              (NumberExprAST (strtod "3"))))).
Proof.
  split; [|split; [|reflexivity]].
  - intros * E1 Hge E2 E3 E4 Hlt.
    rewrite (ParseBinOpRHS_turn _ _ _ _ _ _ _ _ _ _ _ _ E1 Hge E2 E3 E4).
    destruct (Z.ltb_spec TokPrec NextPrec); [reflexivity|lia].
  - intros tbl p q Hp Hq Hpos Hlt s tree. subst s tree. unfold parser_start.
    change (chr "+") with 43 in Hp. change (chr "*") with 42 in Hq.
    run_lexer. cbn [snd].
    match goal with |- context [ParsePrimary 4 ?s] => set (s0 := s) end.
    assert (E1 : exists s1, ParsePrimary 4 s0 =
                   Some (Some (NumberExprAST (strtod "1")), s1) /\
                 exists s', ParseBinOpRHS 4 0 (NumberExprAST (strtod "1")) s1 =
                   Some (Some
                     (BinaryExprAST "+" (NumberExprAST (strtod "1"))
                        (BinaryExprAST "*" (NumberExprAST (strtod "2"))
                           (NumberExprAST (strtod "3")))), s') /\
                   CurTok s' = EOFToken /\ stderr s' = []).
    { subst s0. eexists. split; [run_parser; reflexivity|].
      run_parser. eexists. split; [reflexivity|]. split; reflexivity. }
    destruct E1 as (s1 & E1 & s' & E2 & Hc & He).
    exists s1, s'. repeat split; auto.
    intros fuel Hf.
    assert (E5 : ParseExpression 5 s0 =
                 ParseBinOpRHS 4 0 (NumberExprAST (strtod "1")) s1)
      by now rewrite ParseExpression_S, E1.
    rewrite (ParseExpression_ge 5 fuel) by (try lia; rewrite E5, E2; eauto).
    now rewrite E5.
Qed.

Lemma product_binds_tighter_witness :
  let s := parser_start {[ chr "+" := 20; chr "*" := 40 ]} "1+2*3" in
  let tree :=
    BinaryExprAST "+" (NumberExprAST (strtod "1"))
      (BinaryExprAST "*" (NumberExprAST (strtod "2"))
                         (NumberExprAST (strtod "3"))) in
  exists s1 s',
    ParsePrimary 4 s = Some (Some (NumberExprAST (strtod "1")), s1) /\
    ParseBinOpRHS 4 0 (NumberExprAST (strtod "1")) s1 = Some (Some tree, s') /\
    (forall fuel, (5 <= fuel)%nat ->
       ParseExpression fuel s = Some (Some tree, s')) /\
    CurTok s' = EOFToken /\ stderr s' = [].
Proof.
  exact (proj1 (proj2 product_binds_tighter)
           {[ chr "+" := 20; chr "*" := 40 ]} 20 40 eq_refl eq_refl
           ltac:(lia) ltac:(lia)).
Defined.

(** C2: in [ParseBinOpRHS], when the operator after the right-hand side
    does not bind strictly tighter than the one just consumed (equal
    precedence included), there is no call with [TokPrec + 1] and the two
    sides are merged at once; so, whatever positive precedence '-' has,
    "1-2-3" becomes (1 - 2) - 3, and 1 - (2 - 3) with no amount of
    fuel. *)
Theorem equal_precedence_binds_left :
  (forall fuel ExprPrec LHS s TokPrec s1 t s2 RHS s3 NextPrec s4,
     GetTokPrecedence s = (TokPrec, s1) -> ExprPrec <= TokPrec ->
     getNextToken s1 = (t, s2) ->
     ParsePrimary fuel s2 = Some (Some RHS, s3) ->
     GetTokPrecedence s3 = (NextPrec, s4) ->
     NextPrec <= TokPrec ->
     ParseBinOpRHS (S fuel) ExprPrec LHS s =
       ParseBinOpRHS fuel ExprPrec
         (BinaryExprAST (char_of_int (CurTok s1)) LHS RHS) s4) /\
  (forall tbl p,
     precedence tbl (chr "-") = p -> 0 < p ->
     let s := parser_start tbl "1-2-3" in
     let one := NumberExprAST (strtod "1") in
     let two := NumberExprAST (strtod "2") in
     let three := NumberExprAST (strtod "3") in
     (exists s',
        (forall fuel, (5 <= fuel)%nat ->
           ParseExpression fuel s =
             Some (Some (BinaryExprAST "-" (BinaryExprAST "-" one two) three), s')) /\
        CurTok s' = EOFToken /\ stderr s' = []) /\
     (forall fuel s',
        ParseExpression fuel s <>
          Some (Some (BinaryExprAST "-" one (BinaryExprAST "-" two three)), s'))).
Proof.
  split.
  - intros * E1 Hge E2 E3 E4 Hle.
    rewrite (ParseBinOpRHS_turn _ _ _ _ _ _ _ _ _ _ _ _ E1 Hge E2 E3 E4).
    destruct (Z.ltb_spec TokPrec NextPrec); [lia|reflexivity].
  - intros tbl p Hp Hpos s one two three.
    assert (E5 : exists s',
      ParseExpression 5 s =
        Some (Some (BinaryExprAST "-" (BinaryExprAST "-" one two) three), s') /\
      CurTok s' = EOFToken /\ stderr s' = []).
    { subst s one two three. unfold parser_start.
      change (chr "-") with 45 in Hp.
      run_lexer. cbn [snd]. run_parser.
      eexists. split; [reflexivity|]. split; reflexivity. }
    destruct E5 as (s' & E5 & Hc & He).
    assert (Hall : forall fuel, (5 <= fuel)%nat ->
      ParseExpression fuel s =
        Some (Some (BinaryExprAST "-" (BinaryExprAST "-" one two) three), s')).
    { intros fuel Hf. rewrite (ParseExpression_ge 5 fuel) by (try lia; eauto).
      exact E5. }
    split; [exists s'; auto|].
    intros fuel s'' E.
    assert (E' : ParseExpression (fuel + 5) s =
                 Some (Some (BinaryExprAST "-" one (BinaryExprAST "-" two three)), s'')).
    { rewrite (ParseExpression_ge fuel (fuel + 5)) by (try lia; eauto). exact E. }
    rewrite Hall in E' by lia. discriminate E'.
Qed.

Lemma equal_precedence_binds_left_witness :
  let s := parser_start (BinopPrecedence (install_operators (initial ""))) "1-2-3" in
  let one := NumberExprAST (strtod "1") in
  let two := NumberExprAST (strtod "2") in
  let three := NumberExprAST (strtod "3") in
  (exists s',
     (forall fuel, (5 <= fuel)%nat ->
        ParseExpression fuel s =
          Some (Some (BinaryExprAST "-" (BinaryExprAST "-" one two) three), s')) /\
     CurTok s' = EOFToken /\ stderr s' = []) /\
  (forall fuel s',
     ParseExpression fuel s <>
       Some (Some (BinaryExprAST "-" one (BinaryExprAST "-" two three)), s')).
Proof.
  exact (proj2 equal_precedence_binds_left
           (BinopPrecedence (install_operators (initial ""))) 20 eq_refl
           ltac:(lia)).
Defined.

(** ** Operators of a tree *)

Lemma is_operator_precedence m c : is_operator m c <-> 0 < precedence m (chr c).
Proof.
  unfold is_operator, precedence. split.
  - intros (v & -> & Hv). destruct (Z.leb_spec v 0); lia.
  - destruct (m !! chr c) as [v|]; [|lia].
    destruct (Z.leb_spec v 0); [lia|]. eauto.
Qed.

Lemma is_operator_same m1 m2 c :
  same_operators m1 m2 -> is_operator m1 c -> is_operator m2 c.
Proof. rewrite !is_operator_precedence. intros H. now rewrite H. Qed.

Ltac table_chain Hq :=
  solve [ eassumption
        | match goal with
          | Q : quiet ?a ?b |- same_operators (BinopPrecedence ?b) _ =>
              apply (Hq a b Q); table_chain Hq
          end ].

Lemma operators_in_table fuel : forall tbl,
  (forall s e s', lex_wf s -> same_operators (BinopPrecedence s) tbl ->
     ParsePrimary fuel s = Some (Some e, s') ->
     Forall (is_operator tbl) (operators e)) /\
  (forall s e s', lex_wf s -> same_operators (BinopPrecedence s) tbl ->
     ParseParenExpr fuel s = Some (Some e, s') ->
     Forall (is_operator tbl) (operators e)) /\
  (forall s e s', lex_wf s -> same_operators (BinopPrecedence s) tbl ->
     ParseIdentifierExpr fuel s = Some (Some e, s') ->
     Forall (is_operator tbl) (operators e)) /\
  (forall a s args s', lex_wf s -> same_operators (BinopPrecedence s) tbl ->
     Forall (is_operator tbl) (concat (map operators a)) ->
     ParseCallArgs fuel a s = Some (Some args, s') ->
     Forall (is_operator tbl) (concat (map operators args))) /\
  (forall p l s e s', lex_wf s -> same_operators (BinopPrecedence s) tbl ->
     0 <= p -> Forall (is_operator tbl) (operators l) ->
     ParseBinOpRHS fuel p l s = Some (Some e, s') ->
     Forall (is_operator tbl) (operators e)) /\
  (forall s e s', lex_wf s -> same_operators (BinopPrecedence s) tbl ->
     ParseExpression fuel s = Some (Some e, s') ->
     Forall (is_operator tbl) (operators e)).
Proof.
  induction fuel as [|fuel IH]; intros tbl;
    [repeat split; intros; discriminate|].
  destruct (IH tbl) as (IH1 & IH2 & IH3 & IH4 & IH5 & IH6). clear IH.
  assert (Hq : forall s s1, quiet s s1 -> same_operators (BinopPrecedence s) tbl ->
                 same_operators (BinopPrecedence s1) tbl).
  { intros s s1 [] H. eauto using same_operators_trans. }
  repeat split; intros * W T; parser_step; cbv zeta.
  - (* ParsePrimary *)
    destruct (CurTok s =? IdentifierToken); [now apply IH3|].
    destruct (CurTok s =? NumberToken).
    { unfold ParseNumberExpr. destruct (getNextToken s). intros [= <- <-]. constructor. }
    destruct (CurTok s =? chr "("); [now apply IH2|discriminate].
  - (* ParseParenExpr *)
    run_token.
    destruct (ParseExpression fuel s0) as [[[V|] s1]|] eqn:E1; try discriminate.
    destruct (negb (CurTok s1 =? chr ")")); [discriminate|].
    destruct (getNextToken s1). intros [= <- <-].
    eapply (IH6 s0); [assumption|table_chain Hq|exact E1].
  - (* ParseIdentifierExpr *)
    run_token.
    destruct (negb (CurTok s0 =? chr "(")). { intros [= <- <-]. constructor. }
    run_token.
    destruct (negb (CurTok s1 =? chr ")")).
    + destruct (ParseCallArgs fuel [] s1) as [[[args|] s2]|] eqn:E2; try discriminate.
      destruct (getNextToken s2). intros [= <- <-]. simpl.
      eapply (IH4 [] s1); [assumption|table_chain Hq|constructor|exact E2].
    + destruct (getNextToken s1). intros [= <- <-]. constructor.
  - (* ParseCallArgs *)
    intros Ha.
    destruct (ParseExpression fuel s) as [[[V|] s1]|] eqn:E1; try discriminate.
    pose proof (IH6 _ _ _ W T E1) as HV.
    apply ParseExpression_parsed in E1 as [Q1 _]; [|assumption].
    pose proof (quiet_wf _ _ Q1).
    assert (Ha' : Forall (is_operator tbl) (concat (map operators (a ++ [V])))).
    { rewrite map_app, concat_app. apply Forall_app. split; [assumption|].
      simpl. now rewrite app_nil_r. }
    destruct (CurTok s1 =? chr ")"). { now intros [= <- <-]. }
    destruct (negb (CurTok s1 =? chr ",")); [discriminate|].
    run_token. apply IH4; [assumption|table_chain Hq|assumption].
  - (* ParseBinOpRHS *)
    intros Hp Hl. run_token.
    destruct (Z.ltb_spec p0 p). { now intros [= <- <-]. }
    destruct (GetTokPrecedence_operator _ _ _ E ltac:(lia)) as (Hascii & Hv & Hpos).
    assert (Hop : is_operator tbl (char_of_int (CurTok s0))).
    { apply (is_operator_same (BinopPrecedence s)); [assumption|].
      apply isascii_spec in Hascii. exists p0.
      rewrite C, chr_char_of_int by lia. split; [assumption|lia]. }
    run_token.
    destruct (ParsePrimary fuel s1) as [[[V|] s2]|] eqn:E1; try discriminate.
    assert (HV : Forall (is_operator tbl) (operators V)).
    { eapply (IH1 s1); [assumption|table_chain Hq|exact E1]. }
    apply (proj1 (parser_parsed _)) in E1 as [Q1 _]; [|assumption].
    pose proof (quiet_wf _ _ Q1).
    run_token.
    assert (Hmerge : forall V' s4, lex_wf s4 ->
              same_operators (BinopPrecedence s4) tbl ->
              Forall (is_operator tbl) (operators V') ->
              ParseBinOpRHS fuel p (BinaryExprAST (char_of_int (CurTok s0)) l V') s4
                = Some (Some e, s') ->
              Forall (is_operator tbl) (operators e)).
    { intros V' s4 W4 T4 HV'. apply IH5; auto. simpl. constructor; [assumption|].
      apply Forall_app. now split. }
    destruct (p0 <? p1).
    + destruct (ParseBinOpRHS fuel (p0 + 1) V s3) as [[[V'|] s4]|] eqn:E2;
        try discriminate.
      assert (HV' : Forall (is_operator tbl) (operators V')).
      { eapply (IH5 (p0 + 1) V s3); [assumption|table_chain Hq|lia|exact HV|exact E2]. }
      apply (proj1 (proj2 (proj2 (proj2 (proj2 (parser_parsed _)))))) in E2 as [Q4 _];
        [|assumption].
      apply Hmerge; [apply Q4 | table_chain Hq | assumption].
    + apply Hmerge; [assumption | table_chain Hq | assumption].
  - (* ParseExpression *)
    destruct (ParsePrimary fuel s) as [[[V|] s1]|] eqn:E1; try discriminate.
    pose proof (IH1 _ _ _ W T E1) as HV.
    apply (proj1 (parser_parsed _)) in E1 as [Q1 _]; [|assumption].
    apply IH5; [apply Q1|table_chain Hq|lia|assumption].
Qed.

(** C3: [GetTokPrecedence] answers -1 for every current token that has no
    positive entry in the table (a token that is not ASCII, such as
    [EOFToken], [IdentifierToken] or [NumberToken], a character without an
    entry, a character mapped to 0 or less); [ParseBinOpRHS], when the
    precedence it is told is below [ExprPrec], returns [LHS] as it is and
    consumes nothing; and every operator of a tree returned by
    [ParseExpression] has a positive entry in the table. *)
Theorem only_table_entries_are_operators :
  (forall s,
     isascii (CurTok s) = false \/
     BinopPrecedence s !! CurTok s = None \/
     (exists v, BinopPrecedence s !! CurTok s = Some v /\ v <= 0) ->
     fst (GetTokPrecedence s) = -1) /\
  (forall s,
     fst (GetTokPrecedence s) <> -1 ->
     isascii (CurTok s) = true /\
     BinopPrecedence s !! CurTok s = Some (fst (GetTokPrecedence s)) /\
     0 < fst (GetTokPrecedence s)) /\
  (forall fuel ExprPrec LHS s,
     fst (GetTokPrecedence s) < ExprPrec ->
     let s' := snd (GetTokPrecedence s) in
     ParseBinOpRHS (S fuel) ExprPrec LHS s = Some (Some LHS, s') /\
     CurTok s' = CurTok s /\ stdin s' = stdin s /\ LastChar s' = LastChar s /\
     stderr s' = stderr s /\
     same_operators (BinopPrecedence s') (BinopPrecedence s)) /\
  (forall fuel s e s',
     lex_wf s -> ParseExpression fuel s = Some (Some e, s') ->
     Forall (is_operator (BinopPrecedence s)) (operators e)).
Proof.
  split; [|split; [|split]].
  - intros s H. pose proof (GetTokPrecedence_spec s) as Hs.
    destruct (GetTokPrecedence s) as [p s']. destruct Hs as (-> & _ & _). simpl.
    unfold precedence.
    destruct H as [-> | [-> | (v & -> & Hv)]]; [reflexivity|now destruct (isascii _)|].
    destruct (Z.leb_spec v 0); [|lia]. now destruct (isascii _).
  - intros s H. destruct (GetTokPrecedence s) as [p s'] eqn:E. simpl in *.
    apply (GetTokPrecedence_operator s p s' E).
    pose proof (GetTokPrecedence_spec s) as Hs. rewrite E in Hs.
    destruct Hs as (Hp & _ & _). unfold precedence in Hp.
    destruct (isascii (CurTok s)); [|lia].
    destruct (BinopPrecedence s !! CurTok s) as [v|]; [|lia].
    destruct (Z.leb_spec v 0); lia.
  - intros fuel ExprPrec LHS s Hlt s'. subst s'.
    rewrite ParseBinOpRHS_S.
    pose proof (GetTokPrecedence_spec s) as Hs.
    destruct (GetTokPrecedence s) as [p s']. simpl in *.
    destruct Hs as (_ & -> & Hops).
    destruct (Z.ltb_spec p ExprPrec); [|lia]. simpl. auto 10.
  - intros fuel s e s' W.
    apply (proj2 (proj2 (proj2 (proj2 (proj2
             (operators_in_table fuel (BinopPrecedence s))))))); auto.
    apply same_operators_refl.
Qed.

Lemma only_table_entries_are_operators_witness :
  let s := parser_start (BinopPrecedence (install_operators (initial ""))) "x = 1" in
  let s1 := snd (getNextToken s) in
  let s2 := parser_start (BinopPrecedence (install_operators (initial "")))
                         "1+2*(3-x)" in
  fst (GetTokPrecedence s1) = -1 /\
  (ParseBinOpRHS 1 0 (VariableExprAST "x") s1
     = Some (Some (VariableExprAST "x"), snd (GetTokPrecedence s1)) /\
   CurTok (snd (GetTokPrecedence s1)) = CurTok s1 /\
   stdin (snd (GetTokPrecedence s1)) = stdin s1 /\
   LastChar (snd (GetTokPrecedence s1)) = LastChar s1 /\
   stderr (snd (GetTokPrecedence s1)) = stderr s1 /\
   same_operators (BinopPrecedence (snd (GetTokPrecedence s1)))
                  (BinopPrecedence s1)) /\
  Forall (is_operator (BinopPrecedence s2)) [ "+"; "*"; "-" ]%char.
Proof.
  intros s s1 s2. split; [|split].
  - apply (proj1 only_table_entries_are_operators s1).
    right; left. vm_compute. reflexivity.
  - apply (proj1 (proj2 (proj2 only_table_entries_are_operators))
             O 0 (VariableExprAST "x") s1).
    vm_compute. reflexivity.
  - assert (W : lex_wf s2) by (vm_compute; split; discriminate).
    destruct (ParseExpression 20 s2) as [[[e|] s']|] eqn:E;
      [|vm_compute in E; discriminate E..].
    pose proof (proj2 (proj2 (proj2 only_table_entries_are_operators))
                  20%nat s2 e s' W E) as H.
    vm_compute in E. injection E as <- _. exact H.
Defined.

(** ** Failure *)

(** C4: a parse function whose sub-parse returns [nullptr] returns
    [nullptr] itself, in the state the sub-parse left (no token read, no
    line written after it); a failure of any parse function is one line
    "Error: ..." on standard error and no node; and "foo(1 2)" fails with
    "Expected ')' or ',' in argument list" and gives no call node, with
    any table of operators. *)
Theorem failure_propagates :
  (forall fuel s s',
     fails (ParsePrimary fuel s) s' -> fails (ParseExpression (S fuel) s) s') /\
  (forall fuel s s',
     fails (ParseExpression fuel (snd (getNextToken s))) s' ->
     fails (ParseParenExpr (S fuel) s) s') /\
  (forall fuel a s s',
     fails (ParseExpression fuel s) s' -> fails (ParseCallArgs (S fuel) a s) s') /\
  (forall fuel s s',
     let s1 := snd (getNextToken s) in
     let s2 := snd (getNextToken s1) in
     CurTok s1 = chr "(" -> CurTok s2 <> chr ")" ->
     fails (ParseCallArgs fuel [] s2) s' ->
     fails (ParseIdentifierExpr (S fuel) s) s') /\
  (forall fuel s s',
     (CurTok s = IdentifierToken /\ fails (ParseIdentifierExpr fuel s) s') \/
     (CurTok s = chr "(" /\ fails (ParseParenExpr fuel s) s') ->
     fails (ParsePrimary (S fuel) s) s') /\
  (forall fuel ExprPrec LHS s s',
     let s1 := snd (GetTokPrecedence s) in
     ExprPrec <= fst (GetTokPrecedence s) ->
     fails (ParsePrimary fuel (snd (getNextToken s1))) s' ->
     fails (ParseBinOpRHS (S fuel) ExprPrec LHS s) s') /\
  (forall fuel ExprPrec LHS s TokPrec s1 t s2 RHS s3 NextPrec s4 s',
     GetTokPrecedence s = (TokPrec, s1) -> ExprPrec <= TokPrec ->
     getNextToken s1 = (t, s2) ->
     ParsePrimary fuel s2 = Some (Some RHS, s3) ->
     GetTokPrecedence s3 = (NextPrec, s4) -> TokPrec < NextPrec ->
     fails (ParseBinOpRHS fuel (TokPrec + 1) RHS s4) s' ->
     fails (ParseBinOpRHS (S fuel) ExprPrec LHS s) s') /\
  (forall fuel s s',
     fails (ParsePrototype fuel (snd (getNextToken s))) s' ->
     fails (ParseDefinition fuel s) s' /\ fails (ParseExtern fuel s) s') /\
  (forall fuel s Proto s1 s',
     ParsePrototype fuel (snd (getNextToken s)) = Some (Some Proto, s1) ->
     fails (ParseExpression fuel s1) s' -> fails (ParseDefinition fuel s) s') /\
  (forall fuel s s',
     fails (ParseExpression fuel s) s' -> fails (ParseTopLevelExpr fuel s) s') /\
  (forall fuel s s',
     lex_wf s ->
     fails (ParsePrimary fuel s) s' \/ fails (ParseExpression fuel s) s' \/
     fails (ParsePrototype fuel s) s' \/ fails (ParseDefinition fuel s) s' \/
     fails (ParseExtern fuel s) s' \/ fails (ParseTopLevelExpr fuel s) s' ->
     exists msg, stderr s' = (stderr s ++ [error_line msg])%list) /\
  (forall tbl,
     let s := parser_start tbl "foo(1 2)" in
     exists s',
       (forall fuel, (6 <= fuel)%nat ->
          fails (ParseExpression fuel s) s' /\
          fails (ParseTopLevelExpr fuel s) s') /\
       stderr s' = [error_line "Expected ')' or ',' in argument list"]).
Proof.
  unfold fails. repeat split.
  - intros fuel s s' E. now rewrite ParseExpression_S, E.
  - intros fuel s s' E. rewrite ParseParenExpr_S.
    destruct (getNextToken s). simpl in E. now rewrite E.
  - intros fuel a s s' E. now rewrite ParseCallArgs_S, E.
  - intros fuel s s'. cbv zeta. intros E1 E2 E. rewrite ParseIdentifierExpr_S.
    cbv zeta. destruct (getNextToken s) as [t s1]. simpl in *.
    rewrite E1, Z.eqb_refl. simpl.
    destruct (getNextToken s1) as [t' s2]. simpl in *.
    destruct (Z.eqb_spec (CurTok s2) (chr ")")); [contradiction|]. simpl.
    now rewrite E.
  - intros fuel s s' [[E1 E]|[E1 E]]; rewrite ParsePrimary_S, E1; exact E.
  - intros fuel ExprPrec LHS s s'. cbv zeta. intros Hge E. rewrite ParseBinOpRHS_S.
    destruct (GetTokPrecedence s) as [TokPrec s1]. simpl in *.
    destruct (Z.ltb_spec TokPrec ExprPrec); [lia|]. cbv zeta.
    destruct (getNextToken s1). simpl in E. now rewrite E.
  - intros * E1 Hge E2 E3 E4 Hlt E.
    rewrite (ParseBinOpRHS_turn _ _ _ _ _ _ _ _ _ _ _ _ E1 Hge E2 E3 E4).
    destruct (Z.ltb_spec TokPrec NextPrec); [|lia]. now rewrite E.
  - unfold ParseDefinition. destruct (getNextToken s). simpl in *. now rewrite H.
  - unfold ParseExtern. destruct (getNextToken s). simpl in *. assumption.
  - intros fuel s Proto s1 s' E1 E. unfold ParseDefinition.
    destruct (getNextToken s). simpl in *. now rewrite E1, E.
  - intros fuel s s' E. unfold ParseTopLevelExpr. now rewrite E.
  - intros fuel s s' W H.
    assert (Hp : exists A (r : option A * state),
                   parsed True s r /\ fst r = None /\ snd r = s').
    { destruct H as [H|[H|[H|[H|[H|H]]]]].
      - eexists _, _. split; [eapply (proj1 (parser_parsed fuel)); eauto|auto].
      - eexists _, _. split; [eapply ParseExpression_parsed; eauto|auto].
      - eexists _, _. split; [eapply ParsePrototype_parsed; eauto|auto].
      - eexists _, _. split; [eapply ParseDefinition_parsed; eauto|auto].
      - eexists _, _. split; [eapply ParseExtern_parsed; eauto|auto].
      - eexists _, _. split; [eapply ParseTopLevelExpr_parsed; eauto|auto]. }
    destruct Hp as (A & [r s0] & Hp & Hr & Hs). simpl in *. subst r s0.
    destruct Hp as (s0 & msg & [] & ->). exists msg. simpl. congruence.
  - intros tbl. cbv zeta. set (s := parser_start tbl "foo(1 2)").
    assert (E : exists s', ParseExpression 6 s = Some (None, s') /\
              stderr s' = [error_line "Expected ')' or ',' in argument list"]).
    { subst s. unfold parser_start. run_lexer. cbn [snd]. run_parser.
      unfold LogError. eexists. split; reflexivity. }
    destruct E as (s' & E & Hs'). exists s'. split; [|exact Hs'].
    intros fuel Hf.
    assert (E' : ParseExpression fuel s = Some (None, s')).
    { rewrite (ParseExpression_ge 6 fuel) by (try lia; eauto). exact E. }
    split; [exact E'|]. unfold ParseTopLevelExpr. now rewrite E'.
Qed.

Lemma failure_propagates_witness :
  let s := parser_start ∅ "foo(1 2)" in
  let s1 := snd (getNextToken s) in
  let s2 := snd (getNextToken s1) in
  let s' := fprintf_stderr (error_line "Expected ')' or ',' in argument list")
              (snd (getNextToken s2)) in
  fails (ParseIdentifierExpr 5 s) s' /\
  exists msg, stderr s' = (stderr s ++ [error_line msg])%list.
Proof.
  intros s s1 s2 s'.
  destruct failure_propagates as (_ & _ & _ & H4 & _ & _ & _ & _ & _ & _ & H11 & _).
  split.
  - apply (H4 4%nat s s'); vm_compute; (reflexivity || discriminate).
  - apply (H11 6%nat s s').
    + vm_compute. split; discriminate.
    + right; left. vm_compute. reflexivity.
Defined.

(** ** The driver's contract *)

(** C5: each of [HandleDefinition], [HandleExtern] and
    [HandleTopLevelExpression] returns, and when it was entered on a token
    other than [EOFToken] it leaves strictly fewer tokens to come, whether
    the parse succeeded or failed; after a failed parse the handler itself
    calls [getNextToken]; hence [main] ends on every input. *)
Theorem handlers_advance :
  (forall fuel s s',
     lex_wf s ->
     HandleDefinition fuel s = Some s' \/ HandleExtern fuel s = Some s' \/
     HandleTopLevelExpression fuel s = Some s' ->
     lex_wf s' /\
     (remaining s' <= remaining s)%nat /\
     (CurTok s <> EOFToken -> (remaining s' < remaining s)%nat)) /\
  (forall fuel s,
     lex_wf s -> (4 * remaining s + 3 <= fuel)%nat ->
     is_Some (HandleDefinition fuel s) /\ is_Some (HandleExtern fuel s) /\
     is_Some (HandleTopLevelExpression fuel s)) /\
  (forall fuel s s1,
     (fails (ParseDefinition fuel s) s1 ->
      HandleDefinition fuel s = Some (snd (getNextToken s1))) /\
     (fails (ParseExtern fuel s) s1 ->
      HandleExtern fuel s = Some (snd (getNextToken s1))) /\
     (fails (ParseTopLevelExpr fuel s) s1 ->
      HandleTopLevelExpression fuel s = Some (snd (getNextToken s1)))) /\
  (forall inp, exists fuel s', main fuel inp = Some s' /\ CurTok s' = EOFToken).
Proof.
  split; [|split; [|split]].
  - intros fuel s s' W H.
    assert (Hh : handled s s').
    { destruct H as [H|[H|H]];
        eauto using HandleDefinition_handled, HandleExtern_handled,
                    HandleTopLevelExpression_handled. }
    destruct Hh. auto.
  - intros fuel s W Hf.
    auto using HandleDefinition_terminates, HandleExtern_terminates,
               HandleTopLevelExpression_terminates.
  - intros fuel s s1. unfold fails, HandleDefinition, HandleExtern,
      HandleTopLevelExpression.
    repeat split; intros ->; now destruct (getNextToken s1).
  - intros inp. destruct (main_terminates inp) as [s' E].
    exists (4 * (2 * S (String.length inp) + 1) + 4)%nat, s'. split; [exact E|].
    revert E. unfold main. destruct (getNextToken _) as [t s0].
    generalize (4 * (2 * S (String.length inp) + 1) + 4)%nat. clear.
    intros fuel. revert s0. induction fuel as [|fuel IH]; intros s0; [discriminate|].
    rewrite main_loop_S. cbv zeta.
    destruct (Z.eqb_spec (CurTok (cout "> " s0)) EOFToken) as [E0|E0].
    { now intros [= <-]. }
    destruct (CurTok (cout "> " s0) =? chr ";").
    { destruct (getNextToken _). apply IH. }
    destruct (CurTok (cout "> " s0) =? DefToken).
    { destruct (HandleDefinition _ _); [apply IH|discriminate]. }
    destruct (CurTok (cout "> " s0) =? ExternToken).
    { destruct (HandleExtern _ _); [apply IH|discriminate]. }
    destruct (HandleTopLevelExpression _ _); [apply IH|discriminate].
Qed.

Lemma handlers_advance_witness :
  let s := parser_start (BinopPrecedence (install_operators (initial "")))
                        "foo(1 2) + 4" in
  let s' := snd (getNextToken
                   (fprintf_stderr (error_line "Expected ')' or ',' in argument list")
                      (snd (getNextToken (snd (getNextToken
                         (snd (getNextToken s)))))))) in
  (lex_wf s' /\ (remaining s' <= remaining s)%nat /\
   (CurTok s <> EOFToken -> (remaining s' < remaining s)%nat)) /\
  CurTok s' = chr ")" /\
  is_Some (HandleTopLevelExpression 100 s).
Proof.
  intros s s'.
  destruct handlers_advance as (H1 & H2 & _ & _).
  split; [|split; [reflexivity|]].
  - apply (H1 100%nat s s'); [vm_compute; split; discriminate|].
    right; right. vm_compute. reflexivity.
  - apply (H2 100%nat s); [vm_compute; split; discriminate|vm_compute; lia].
Defined.

(** ** The table as a side effect *)

Lemma gettok_rec_table fuel : forall m s,
  gettok_rec fuel (set_BinopPrecedence m s) =
    match gettok_rec fuel s with
    | Some (t, s') => Some (t, set_BinopPrecedence m s')
    | None => None
    end.
Proof.
  induction fuel as [|fuel IH]; intros m s; [reflexivity|].
  rewrite !gettok_rec_S. cbv zeta. fields.
  destruct (skip_whitespace (LastChar s) (stdin s)) as [c rest]. fields.
  destruct (isalpha c).
  { destruct (scan_identifier _ rest) as [[id c'] rest']. fields.
    repeat case_match; reflexivity. }
  destruct (isdigit c || (c =? chr ".")).
  { destruct (scan_number _ c rest) as [[num c'] rest']. reflexivity. }
  unfold gettok_char.
  destruct (c =? chr "#").
  - destruct (skip_comment rest) as [c' rest']. fields.
    destruct (c' =? EOF); simpl.
    + reflexivity.
    + apply (IH m (set_lexer c' rest' (set_lexer c rest s))).
  - fields. destruct (c =? EOF); [reflexivity|].
    destruct (getchar rest). reflexivity.
Qed.

Lemma gettok_table m s :
  gettok (set_BinopPrecedence m s) =
    (fst (gettok s), set_BinopPrecedence m (snd (gettok s))).
Proof.
  apply gettok_rec_gettok with (fuel := S (String.length (stdin s))).
  rewrite gettok_rec_table, gettok_gettok_rec. now destruct (gettok s).
Qed.

Lemma same_parse_state_eq s1 s2 :
  same_parse_state s1 s2 -> s2 = set_BinopPrecedence (BinopPrecedence s2) s1.
Proof.
  intros [H _]. destruct s1, s2. unfold table_blind in H. simpl in *.
  now injection H as -> -> -> -> -> -> ->.
Qed.

Lemma same_parse_state_refl s : same_parse_state s s.
Proof. split; [reflexivity | apply same_operators_refl]. Qed.

Lemma getNextToken_blind s1 s2 :
  same_parse_state s1 s2 ->
  fst (getNextToken s1) = fst (getNextToken s2) /\
  same_parse_state (snd (getNextToken s1)) (snd (getNextToken s2)).
Proof.
  intros H. pose proof (same_parse_state_eq _ _ H) as E. destruct H as [_ Ho].
  rewrite E. unfold getNextToken. rewrite gettok_table.
  assert (Et : BinopPrecedence (snd (gettok s1)) = BinopPrecedence s1).
  { assert (E1 : s1 = set_BinopPrecedence (BinopPrecedence s1) s1) by now destruct s1.
    rewrite E1 at 1. now rewrite gettok_table. }
  destruct (gettok s1) as [t s1']. simpl in *.
  split; [reflexivity|]. split; [reflexivity|]. simpl. now rewrite Et.
Qed.

Lemma GetTokPrecedence_blind s1 s2 :
  same_parse_state s1 s2 ->
  fst (GetTokPrecedence s1) = fst (GetTokPrecedence s2) /\
  same_parse_state (snd (GetTokPrecedence s1)) (snd (GetTokPrecedence s2)) /\
  CurTok (snd (GetTokPrecedence s1)) = CurTok s1.
Proof.
  intros H. pose proof (same_parse_state_eq _ _ H) as E. destruct H as [Hb Ho].
  pose proof (GetTokPrecedence_spec s1) as H1.
  pose proof (GetTokPrecedence_spec s2) as H2.
  destruct (GetTokPrecedence s1) as [p1 s1'], (GetTokPrecedence s2) as [p2 s2'].
  destruct H1 as (-> & E1 & O1), H2 as (-> & E2 & O2). simpl.
  assert (Ec : CurTok s2 = CurTok s1) by (rewrite E; reflexivity).
  split; [|split].
  - rewrite Ec, Ho. reflexivity.
  - rewrite E1, E2. split; simpl.
    + unfold table_blind in *. simpl. now rewrite Hb.
    + eauto using same_operators_trans, same_operators_sym.
  - rewrite E1. reflexivity.
Qed.

Lemma fprintf_stderr_blind line s1 s2 :
  same_parse_state s1 s2 ->
  same_parse_state (fprintf_stderr line s1) (fprintf_stderr line s2).
Proof.
  intros [Hb Ho]. split; [|exact Ho].
  unfold table_blind in *. simpl. injection Hb as -> -> -> -> -> -> ->. reflexivity.
Qed.

Lemma same_parse_state_fields s1 s2 :
  same_parse_state s1 s2 ->
  CurTok s1 = CurTok s2 /\ IdentifierStr s1 = IdentifierStr s2 /\
  NumVal s1 = NumVal s2.
Proof.
  intros [Hb _]. unfold table_blind in Hb. now injection Hb as _ _ -> -> -> _ _.
Qed.

(** Relates the next call of [getNextToken] or [GetTokPrecedence] in two
    runs that started from states related by [H]. *)
Ltac couple_token H :=
  match type of H with
  | same_parse_state ?a ?b =>
      match goal with
      | |- context [getNextToken a] =>
          let H' := fresh "B" in
          destruct (getNextToken_blind a b H) as [_ H'];
          destruct (getNextToken a) as [? ?], (getNextToken b) as [? ?];
          cbn [fst snd] in H'
      | |- context [GetTokPrecedence a] =>
          let H' := fresh "B" in let P := fresh "P" in let C := fresh "C" in
          destruct (GetTokPrecedence_blind a b H) as (P & H' & C);
          destruct (GetTokPrecedence a) as [? ?], (GetTokPrecedence b) as [? ?];
          cbn [fst snd] in H', P, C; subst
      end
  end.

Ltac couple_test H :=
  let F := fresh "F" in
  destruct (same_parse_state_fields _ _ H) as (F & _ & _); rewrite <- ?F; clear F.

Lemma parser_table_blind fuel :
  (forall s1 s2, same_parse_state s1 s2 ->
     same_result (ParsePrimary fuel s1) (ParsePrimary fuel s2)) /\
  (forall s1 s2, same_parse_state s1 s2 ->
     same_result (ParseParenExpr fuel s1) (ParseParenExpr fuel s2)) /\
  (forall s1 s2, same_parse_state s1 s2 ->
     same_result (ParseIdentifierExpr fuel s1) (ParseIdentifierExpr fuel s2)) /\
  (forall a s1 s2, same_parse_state s1 s2 ->
     same_result (ParseCallArgs fuel a s1) (ParseCallArgs fuel a s2)) /\
  (forall p l s1 s2, same_parse_state s1 s2 ->
     same_result (ParseBinOpRHS fuel p l s1) (ParseBinOpRHS fuel p l s2)) /\
  (forall s1 s2, same_parse_state s1 s2 ->
     same_result (ParseExpression fuel s1) (ParseExpression fuel s2)).
Proof.
  induction fuel as [|fuel (IH1 & IH2 & IH3 & IH4 & IH5 & IH6)];
    [repeat split; intros; exact I|].
  repeat split; intros * H; parser_step; cbv zeta.
  - (* ParsePrimary *)
    couple_test H.
    destruct (CurTok s1 =? IdentifierToken); [now apply IH3|].
    destruct (CurTok s1 =? NumberToken).
    { unfold ParseNumberExpr.
      destruct (same_parse_state_fields _ _ H) as (_ & _ & <-).
      couple_token H. split; [reflexivity|assumption]. }
    destruct (CurTok s1 =? chr "("); [now apply IH2|].
    split; [reflexivity|]. now apply fprintf_stderr_blind.
  - (* ParseParenExpr *)
    couple_token H.
    pose proof (IH6 _ _ B) as R.
    destruct (ParseExpression fuel s) as [[[V1|] t1]|],
             (ParseExpression fuel s0) as [[[V2|] t2]|];
      cbn [same_result] in R; try contradiction; try exact I;
      destruct R as [R B']; try discriminate R; [|now split].
    injection R as <-. couple_test B'.
    destruct (negb (CurTok t1 =? chr ")")).
    { split; [reflexivity|]. now apply fprintf_stderr_blind. }
    couple_token B'. now split.
  - (* ParseIdentifierExpr *)
    destruct (same_parse_state_fields _ _ H) as (_ & <- & _).
    couple_token H. couple_test B.
    destruct (negb (CurTok s =? chr "(")); [now split|].
    couple_token B. couple_test B0.
    destruct (negb (CurTok s3 =? chr ")")).
    + pose proof (IH4 [] _ _ B0) as R.
      destruct (ParseCallArgs fuel [] s3) as [[[V1|] t1]|],
               (ParseCallArgs fuel [] s4) as [[[V2|] t2]|];
        cbn [same_result] in R; try contradiction; try exact I;
        destruct R as [R B']; try discriminate R; [|now split].
      injection R as <-. couple_token B'. now split.
    + couple_token B0. now split.
  - (* ParseCallArgs *)
    pose proof (IH6 _ _ H) as R.
    destruct (ParseExpression fuel s1) as [[[V1|] t1]|],
             (ParseExpression fuel s2) as [[[V2|] t2]|];
      cbn [same_result] in R; try contradiction; try exact I;
      destruct R as [R B']; try discriminate R; [|now split].
    injection R as <-. couple_test B'.
    destruct (CurTok t1 =? chr ")"); [now split|].
    destruct (negb (CurTok t1 =? chr ",")).
    { cbn. split; [reflexivity|]. now apply fprintf_stderr_blind. }
    couple_token B'. now apply IH4.
  - (* ParseBinOpRHS *)
    couple_token H.
    match goal with |- context [?a <? p] => destruct (a <? p) end; [now split|].
    assert (Ec : CurTok s = CurTok s0)
      by (now destruct (same_parse_state_fields _ _ B) as (-> & _)).
    rewrite <- Ec.
    couple_token B.
    pose proof (IH1 _ _ B0) as R.
    destruct (ParsePrimary fuel s3) as [[[V1|] t1]|],
             (ParsePrimary fuel s4) as [[[V2|] t2]|];
      cbn [same_result] in R; try contradiction; try exact I;
      destruct R as [R B']; try discriminate R; [|now split].
    injection R as <-.
    couple_token B'.
    match goal with |- context [if ?c then _ else _] => destruct c end;
      [|now apply IH5].
    match goal with
    | B1 : same_parse_state ?u ?v |- context [ParseBinOpRHS fuel ?q V1 ?u] =>
        pose proof (IH5 q V1 u v B1) as R;
        destruct (ParseBinOpRHS fuel q V1 u) as [[[W1|] u1]|],
                 (ParseBinOpRHS fuel q V1 v) as [[[W2|] u2]|]
    end;
      cbn [same_result] in R; try contradiction; try exact I;
      destruct R as [R B'']; try discriminate R; [|now split].
    injection R as <-. now apply IH5.
  - (* ParseExpression *)
    pose proof (IH1 _ _ H) as R.
    destruct (ParsePrimary fuel s1) as [[[V1|] t1]|],
             (ParsePrimary fuel s2) as [[[V2|] t2]|];
      cbn [same_result] in R; try contradiction; try exact I;
      destruct R as [R B']; try discriminate R; [|now split].
    injection R as <-. now apply IH5.
Qed.

(** C10: [GetTokPrecedence] on an ASCII token that has no entry adds that
    character to the table with the value 0 and answers -1; an entry that
    is 0 is answered -1 as well and leaves the state alone, so the token is
    never taken as an operator by [ParseBinOpRHS]; and two runs of
    [ParseExpression] from states that differ only in such entries return
    the same tree and again differ only in such entries.  Parsing
    "foo(1, 2+3)" adds ',' and ')' to the table of [main]. *)
Theorem lookup_inserts_zero :
  (forall s,
     isascii (CurTok s) = true -> BinopPrecedence s !! CurTok s = None ->
     GetTokPrecedence s =
       (-1, set_BinopPrecedence (<[CurTok s := 0]> (BinopPrecedence s)) s) /\
     BinopPrecedence (snd (GetTokPrecedence s)) !! CurTok s = Some 0 /\
     BinopPrecedence (snd (GetTokPrecedence s)) <> BinopPrecedence s) /\
  (forall s,
     BinopPrecedence s !! CurTok s = Some 0 -> GetTokPrecedence s = (-1, s)) /\
  (forall fuel ExprPrec LHS s,
     0 <= ExprPrec ->
     BinopPrecedence s !! CurTok s = None \/
     BinopPrecedence s !! CurTok s = Some 0 ->
     ParseBinOpRHS (S fuel) ExprPrec LHS s
       = Some (Some LHS, snd (GetTokPrecedence s))) /\
  (forall fuel s1 s2,
     same_parse_state s1 s2 ->
     same_result (ParseExpression fuel s1) (ParseExpression fuel s2)) /\
  (forall fuel s,
     same_result (ParseExpression fuel s)
                 (ParseExpression fuel (snd (GetTokPrecedence s)))) /\
  (let tbl := BinopPrecedence (install_operators (initial "")) in
   exists s',
     ParseExpression 8 (parser_start tbl "foo(1, 2+3)") =
       Some (Some (CallExprAST "foo"
                     [NumberExprAST (strtod "1");
                      BinaryExprAST "+" (NumberExprAST (strtod "2"))
                                        (NumberExprAST (strtod "3"))]), s') /\
     BinopPrecedence s' = <[chr ")" := 0]> (<[chr "," := 0]> tbl)).
Proof.
  assert (Hzero : forall s, BinopPrecedence s !! CurTok s = Some 0 ->
                    GetTokPrecedence s = (-1, s)).
  { intros s E. unfold GetTokPrecedence, subscript. rewrite E. simpl.
    destruct (isascii (CurTok s)); simpl; [now destruct s|reflexivity]. }
  assert (Hnone : forall s, isascii (CurTok s) = true ->
            BinopPrecedence s !! CurTok s = None ->
            GetTokPrecedence s =
              (-1, set_BinopPrecedence (<[CurTok s := 0]> (BinopPrecedence s)) s)).
  { intros s Ha E. unfold GetTokPrecedence, subscript. rewrite Ha, E. reflexivity. }
  split; [|split; [exact Hzero|split; [|split; [|split]]]].
  - intros s Ha E. rewrite (Hnone s Ha E). simpl.
    split; [reflexivity|]. split; [apply lookup_insert_eq|].
    intros E'. rewrite <- E' in E. rewrite lookup_insert_eq in E. discriminate E.
  - intros fuel ExprPrec LHS s Hp H. rewrite ParseBinOpRHS_S.
    assert (E : fst (GetTokPrecedence s) = -1).
    { destruct H as [H|H]; [|now rewrite (Hzero s H)].
      destruct (isascii (CurTok s)) eqn:Ha; [now rewrite (Hnone s Ha H)|].
      unfold GetTokPrecedence. now rewrite Ha. }
    destruct (GetTokPrecedence s) as [p s']. simpl in *. subst p.
    destruct (Z.ltb_spec (-1) ExprPrec); [reflexivity|lia].
  - intros fuel. apply parser_table_blind.
  - intros fuel s. apply parser_table_blind.
    destruct (GetTokPrecedence_blind s s (same_parse_state_refl s)) as (_ & H & _).
    pose proof (GetTokPrecedence_spec s) as Hs.
    destruct (GetTokPrecedence s) as [p s']. destruct Hs as (_ & E & Ho).
    simpl. rewrite E. split; [reflexivity|]. simpl.
    now apply same_operators_sym.
  - cbv zeta. eexists. split; vm_compute; reflexivity.
Qed.

Lemma lookup_inserts_zero_witness :
  let s := snd (getNextToken
                  (parser_start (BinopPrecedence (install_operators (initial "")))
                                "x, y")) in
  (GetTokPrecedence s =
     (-1, set_BinopPrecedence (<[CurTok s := 0]> (BinopPrecedence s)) s) /\
   BinopPrecedence (snd (GetTokPrecedence s)) !! CurTok s = Some 0 /\
   BinopPrecedence (snd (GetTokPrecedence s)) <> BinopPrecedence s) /\
  GetTokPrecedence (snd (GetTokPrecedence s)) = (-1, snd (GetTokPrecedence s)) /\
  ParseBinOpRHS 1 0 (VariableExprAST "x") s
    = Some (Some (VariableExprAST "x"), snd (GetTokPrecedence s)).
Proof.
  intros s.
  destruct lookup_inserts_zero as (H1 & H2 & H3 & _).
  split; [|split].
  - apply (H1 s); vm_compute; reflexivity.
  - apply (H2 (snd (GetTokPrecedence s))). vm_compute. reflexivity.
  - apply (H3 O 0 (VariableExprAST "x") s); [lia|]. left. vm_compute. reflexivity.
Defined.

(** * Further properties of the lexer *)

Lemma skip_whitespace_eof inp : forall lc c rest,
  (lc = EOF -> inp = "") -> skip_whitespace lc inp = (c, rest) ->
  c = EOF -> rest = "".
Proof.
  induction inp as [|a inp IH]; intros lc c rest Hlc; simpl.
  - destruct (isspace lc); now intros [= <- <-].
  - destruct (isspace lc) eqn:E.
    + apply IH. intros H. now apply chr_not_EOF in H.
    + intros [= <- <-] H. now apply Hlc in H.
Qed.

Lemma scan_identifier_eof inp : forall id id' c' rest,
  scan_identifier id inp = (id', c', rest) ->
  (c' = EOF -> rest = "") /\
  exists tail, id' = id +:+ tail /\ all_chars isalnum tail = true.
Proof.
  induction inp as [|a inp IH]; intros id id' c' rest; simpl.
  - intros [= <- <- <-]. split; [reflexivity|]. exists "".
    now rewrite append_nil_r.
  - destruct (isalnum (chr a)) eqn:E.
    + intros H. apply IH in H as (H1 & tail & -> & H2). split; [assumption|].
      exists (String a tail). rewrite append_snoc. split; [reflexivity|].
      simpl. now rewrite E.
    + intros [= <- <- <-]. split.
      * intros H. now apply chr_not_EOF in H.
      * exists "". now rewrite append_nil_r.
Qed.

Lemma scan_number_eof inp : forall num c num' c' rest,
  scan_number num c inp = (num', c', rest) -> c' = EOF -> rest = "".
Proof.
  induction inp as [|a inp IH]; intros num c num' c' rest; simpl.
  - now intros [= <- <- <-].
  - destruct (isdigit (chr a) || (chr a =? chr ".")).
    + apply IH.
    + intros [= <- <- <-] H. now apply chr_not_EOF in H.
Qed.

Lemma skip_comment_eof inp : forall c' rest,
  skip_comment inp = (c', rest) -> c' = EOF -> rest = "".
Proof.
  induction inp as [|a inp IH]; intros c' rest; simpl.
  - now intros [= <- <-].
  - destruct (negb (chr a =? 10) && negb (chr a =? 13)).
    + apply IH.
    + intros [= <- <-] H. now apply chr_not_EOF in H.
Qed.

Lemma getchar_eof inp c' rest : getchar inp = (c', rest) -> c' = EOF -> rest = "".
Proof.
  destruct inp as [|a inp]; simpl; intros [= <- <-]; [reflexivity|].
  intros H. now apply chr_not_EOF in H.
Qed.

Lemma gettok_rec_payload fuel : forall s t s',
  lex_wf s -> gettok_rec fuel s = Some (t, s') -> gettok_payload s t s'.
Proof.
  induction fuel as [|fuel IH]; intros s t s' Hwf; [discriminate|].
  rewrite gettok_rec_S. cbv zeta.
  destruct (skip_whitespace (LastChar s) (stdin s)) as [c rest] eqn:Ews.
  pose proof (skip_whitespace_pending _ _ _ _ Ews) as (_ & Hc0 & Hsp).
  assert (Hcr : -1 <= c <= 255)
    by (unfold lex_wf, EOF in *; destruct Hc0 as [|[|]]; lia).
  pose proof (fun H => skip_whitespace_eof _ _ _ _ H Ews) as Hws.
  fields.
  destruct (isalpha c) eqn:Ealpha.
  { apply isalpha_spec in Ealpha as Hrange.
    destruct (scan_identifier _ rest) as [[id c'] rest'] eqn:Eid.
    apply scan_identifier_eof in Eid as (He & tail & -> & Htail).
    change (String (char_of_int c) "" +:+ tail)
      with (String (char_of_int c) tail) in *.
    set (text := String (char_of_int c) tail) in *.
    assert (Hid : identifier_text text).
    { exists (char_of_int c), tail. rewrite chr_char_of_int by lia.
      split; [reflexivity|]. split; [now apply isalpha_spec|assumption]. }
    assert (Hbase : forall t0,
      -4 <= t0 <= -2 ->
      (t0 = IdentifierToken -> text <> "def" /\ text <> "extern") ->
      (t0 = DefToken -> text = "def") -> (t0 = ExternToken -> text = "extern") ->
      gettok_payload s t0 (set_IdentifierStr text (set_lexer c' rest' s))).
    { intros t0 Ht H1 H2 H3. split; fields.
      - intros _. exact He.
      - unfold DefToken, ExternToken, IdentifierToken. lia.
      - reflexivity.
      - lia.
      - intros E. split; [exact Hid|auto].
      - exact H2.
      - exact H3. }
    fields.
    destruct (String.eqb_spec text "def") as [E1|E1].
    { intros [= <- <-]. apply Hbase; auto; try discriminate.
      unfold DefToken; lia. }
    destruct (String.eqb_spec text "extern") as [E2|E2].
    { intros [= <- <-]. apply Hbase; auto; try discriminate.
      unfold ExternToken; lia. }
    intros [= <- <-]. apply Hbase; auto; try discriminate.
    unfold IdentifierToken; lia. }
  destruct (isdigit c || (c =? chr ".")) eqn:Enum.
  { destruct (scan_number _ c rest) as [[num c'] rest'] eqn:En.
    pose proof (scan_number_eof _ _ _ _ _ _ En) as En'. clear En. rename En' into En.
    intros [= <- <-]. split; fields; try discriminate.
    - intros _. exact En.
    - reflexivity.
    - contradiction.
    - unfold NumberToken. lia. }
  assert (Hclass : isspace c = false /\ isalnum c = false /\ c <> chr ".").
  { apply orb_false_iff in Enum as [Hd Hdot]. unfold isalnum.
    rewrite Ealpha, Hd. repeat split; try assumption.
    intros ->. discriminate Hdot. }
  assert (Hchar : forall s1,
    IdentifierStr s1 = IdentifierStr s -> NumVal s1 = NumVal s ->
    (eof_empty s -> eof_empty s1) ->
    (LastChar s1 <> EOF -> LastChar s1 = c /\ c <> chr "#") ->
    gettok_char s1 = (t, s') -> gettok_payload s t s').
  { intros s1 F1 F2 He Hc. unfold gettok_char.
    destruct (Z.eqb_spec (LastChar s1) EOF) as [E1|E1].
    - intros [= <- <-]. split; auto; discriminate.
    - destruct (getchar (stdin s1)) as [c1 rest1] eqn:Eg.
      pose proof (getchar_eof _ _ _ Eg) as Eg'. clear Eg. rename Eg' into Eg.
      destruct (Hc E1) as [Ec Hh].
      intros [= <- <-]. rewrite Ec in *. destruct Hclass as (H1 & H2 & H3).
      split; fields.
      + intros _. exact Eg.
      + intros _ _ _. exact F1.
      + intros _. exact F2.
      + intros _. auto.
      + unfold IdentifierToken. lia.
      + unfold DefToken. lia.
      + unfold ExternToken. lia. }
  destruct (Z.eqb_spec c (chr "#")) as [Ehash|Ehash].
  2:{ intros [= H]. revert H.
      apply Hchar; fields; [reflexivity|reflexivity|exact Hws|auto]. }
  destruct (skip_comment rest) as [c' rest'] eqn:Ec.
  pose proof (skip_comment_pending _ _ _ Ec) as [_ Hc'].
  pose proof (skip_comment_eof _ _ _ Ec) as Ec'. clear Ec. rename Ec' into Ec.
  fields.
  destruct (Z.eqb_spec c' EOF) as [E'|E']; simpl.
  - intros [= H]. revert H.
    apply Hchar; fields;
      [reflexivity|reflexivity|intros _; exact Ec|intros H; contradiction].
  - intros H. apply IH in H; [|exact Hc']. destruct H as [P1 P2 P3 P4 P5 P6 P7].
    fields. split; auto.
Qed.

Lemma gettok_payload_holds s :
  lex_wf s -> gettok_payload s (fst (gettok s)) (snd (gettok s)).
Proof.
  intros W. eapply gettok_rec_payload; [exact W|]. rewrite gettok_gettok_rec. now destruct (gettok s).
Qed.

Lemma skip_whitespace_blank ws : forall lc,
  isspace lc = true -> all_chars isspace ws = true ->
  skip_whitespace lc ws = (EOF, "").
Proof.
  induction ws as [|w ws IH]; intros lc Hlc Hws; simpl; rewrite Hlc.
  - reflexivity.
  - simpl in Hws. apply andb_true_iff in Hws as [Hw Hws]. now apply IH.
Qed.

Lemma skip_whitespace_more ws : forall lc inp,
  isspace lc = true -> all_chars isspace ws = true ->
  skip_whitespace lc (ws +:+ inp) = skip_whitespace lc inp.
Proof.
  induction ws as [|w ws IH]; intros lc inp Hlc Hws; [reflexivity|].
  simpl in Hws. apply andb_true_iff in Hws as [Hw Hws].
  rewrite append_cons. simpl. rewrite Hlc, IH by assumption.
  destruct inp as [|a inp]; simpl; now rewrite Hw, Hlc.
Qed.

(** X1: once [gettok] has answered [EOFToken] it answers [EOFToken] for
    ever, and the state no longer changes. *)
Theorem end_of_input_is_absorbing s n :
  lex_wf s -> fst (gettok s) = EOFToken ->
  gettok (Nat.iter n (fun x => snd (gettok x)) (snd (gettok s)))
    = (EOFToken, snd (gettok s)).
Proof.
  intros W Ht.
  destruct (gettok_post_holds s W) as [W' _ _ _ _ _ _ He _ _].
  specialize (He Ht).
  assert (Hfix : gettok (snd (gettok s)) = (EOFToken, snd (gettok s))).
  { destruct (gettok_post_holds _ W') as [_ _ _ _ _ Ha _ _ _ _].
    destruct (Ha He) as [E1 E2]. destruct (gettok (snd (gettok s))).
    simpl in *. congruence. }
  induction n as [|n IH]; simpl; [exact Hfix|].
  now rewrite IH.
Qed.

Lemma end_of_input_is_absorbing_witness :
  gettok (Nat.iter 3 (fun x => snd (gettok x)) (snd (gettok (initial "  "))))
    = (EOFToken, snd (gettok (initial "  "))).
Proof.
  exact (end_of_input_is_absorbing (initial "  ") 3
           ltac:(vm_compute; split; discriminate) eq_refl).
Defined.

(** X2: on an input that holds nothing but blanks, the empty input
    included, [gettok] answers [EOFToken] at once, with nothing left to
    read. *)
Theorem blank_input_is_end_of_input s :
  isspace (LastChar s) = true -> all_chars isspace (stdin s) = true ->
  gettok s = (EOFToken, set_lexer EOF "" s).
Proof.
  intros Hlc Hws. rewrite gettok_eq. cbv zeta.
  rewrite skip_whitespace_blank by assumption. reflexivity.
Qed.

Lemma blank_input_is_end_of_input_witness :
  gettok (initial "") = (EOFToken, set_lexer EOF "" (initial "")).
Proof.
  exact (blank_input_is_end_of_input (initial "") eq_refl eq_refl).
Defined.

(** X3: a character that is no blank, letter, digit, dot or '#' is a token
    by itself: [gettok] answers its code and reads exactly one character
    beyond it, whatever follows (so "<=" is two tokens), and leaves
    [IdentifierStr] and [NumVal] alone. *)
Theorem single_character_token s ws c rest :
  0 <= LastChar s <= 255 ->
  String (char_of_int (LastChar s)) (stdin s) = ws +:+ String c rest ->
  all_chars isspace ws = true ->
  isspace (chr c) = false -> isalpha (chr c) = false ->
  isnumeric (chr c) = false -> c <> "#"%char ->
  gettok s = (chr c, set_lexer (fst (getchar rest)) (snd (getchar rest)) s).
Proof.
  intros Hlc Hlay Hws Hsp Hal Hnum Hh.
  rewrite gettok_eq. cbv zeta.
  rewrite (skip_whitespace_layout ws _ _ c rest) by assumption.
  fields. rewrite Hal. unfold isnumeric in Hnum. rewrite Hnum.
  destruct (Z.eqb_spec (chr c) (chr "#")) as [E|E].
  { exfalso. apply Hh. rewrite <- (char_of_int_chr c), E. reflexivity. }
  unfold gettok_char. fields.
  destruct (Z.eqb_spec (chr c) EOF) as [E'|E']; [now apply chr_not_EOF in E'|].
  now destruct (getchar rest).
Qed.

Lemma single_character_token_witness :
  gettok (initial " <= 1")
    = (chr "<", set_lexer (chr "=") " 1" (initial " <= 1")).
Proof.
  exact (single_character_token (initial " <= 1") "  " "<"%char "= 1"
           ltac:(vm_compute; split; discriminate) eq_refl eq_refl eq_refl
           eq_refl eq_refl ltac:(discriminate)).
Defined.

(** X4: [gettok] changes nothing but the lexer's own variables: the current
    token, the table of operators and what was written stay as they are;
    [IdentifierStr] changes only when the token is an identifier or a
    keyword, [NumVal] only when it is a number; and the pending character
    stays a byte or [EOF]. *)
Theorem gettok_frame s :
  lex_wf s ->
  let '(t, s') := gettok s in
  CurTok s' = CurTok s /\ BinopPrecedence s' = BinopPrecedence s /\
  stderr s' = stderr s /\ stdout s' = stdout s /\
  (t <> DefToken -> t <> ExternToken -> t <> IdentifierToken ->
   IdentifierStr s' = IdentifierStr s) /\
  (t <> NumberToken -> NumVal s' = NumVal s) /\
  lex_wf s'.
Proof.
  intros W.
  pose proof (gettok_post_holds s W) as [W' F1 F2 F3 F4 _ _ _ _ _].
  pose proof (gettok_payload_holds s W) as [_ P2 P3 _ _ _ _].
  destruct (gettok s) as [t s']. simpl in *. auto 10.
Qed.

Lemma gettok_frame_witness :
  let s := set_NumVal (strtod "7") (set_CurTok 5 (initial "abc 1")) in
  let '(t, s') := gettok s in
  CurTok s' = CurTok s /\ BinopPrecedence s' = BinopPrecedence s /\
  stderr s' = stderr s /\ stdout s' = stdout s /\
  (t <> DefToken -> t <> ExternToken -> t <> IdentifierToken ->
   IdentifierStr s' = IdentifierStr s) /\
  (t <> NumberToken -> NumVal s' = NumVal s) /\
  lex_wf s'.
Proof.
  exact (gettok_frame (set_NumVal (strtod "7") (set_CurTok 5 (initial "abc 1")))
           ltac:(vm_compute; split; discriminate)).
Defined.

(** X5: every token [gettok] hands out is of one of its kinds and comes
    with the payload of its kind: [DefToken] with "def" and [ExternToken]
    with "extern" in [IdentifierStr]; [IdentifierToken] with a text of the
    form [a-zA-Z][a-zA-Z0-9]* that is neither keyword; [EOFToken] only when
    the input is exhausted; and a character token is a byte that is no
    blank, letter, digit, dot or '#'. *)
Theorem token_kinds s :
  lex_wf s ->
  let '(t, s') := gettok s in
  -5 <= t <= 255 /\
  (t = DefToken -> IdentifierStr s' = "def") /\
  (t = ExternToken -> IdentifierStr s' = "extern") /\
  (t = IdentifierToken -> is_identifier (IdentifierStr s')) /\
  (t = EOFToken -> LastChar s' = EOF) /\
  (0 <= t ->
   isspace t = false /\ isalnum t = false /\ t <> chr "." /\ t <> chr "#").
Proof.
  intros W.
  pose proof (gettok_post_holds s W) as [_ _ _ _ _ _ _ He Ht _].
  pose proof (gettok_payload_holds s W) as [_ _ _ P4 P5 P6 P7].
  destruct (gettok s) as [t s']. simpl in *. auto 10.
Qed.

Lemma token_kinds_witness :
  let '(t, s') := gettok (initial "x1 = 2") in
  -5 <= t <= 255 /\
  (t = DefToken -> IdentifierStr s' = "def") /\
  (t = ExternToken -> IdentifierStr s' = "extern") /\
  (t = IdentifierToken -> is_identifier (IdentifierStr s')) /\
  (t = EOFToken -> LastChar s' = EOF) /\
  (0 <= t ->
   isspace t = false /\ isalnum t = false /\ t <> chr "." /\ t <> chr "#").
Proof.
  exact (token_kinds (initial "x1 = 2") ltac:(vm_compute; split; discriminate)).
Defined.

(** X6: blanks in front of a token are insignificant: with a blank
    pending, more blanks at the head of the input change neither the token
    nor the state that [gettok] leaves. *)
Theorem blanks_are_insignificant s ws :
  isspace (LastChar s) = true -> all_chars isspace ws = true ->
  gettok (set_lexer (LastChar s) (ws +:+ stdin s) s) = gettok s.
Proof.
  intros Hlc Hws. rewrite (gettok_eq s), gettok_eq. cbv zeta. fields.
  rewrite skip_whitespace_more by assumption.
  destruct (skip_whitespace (LastChar s) (stdin s)) as [c rest]. reflexivity.
Qed.

Lemma blanks_are_insignificant_witness :
  gettok (set_lexer (chr " ") ("   " +:+ "x+1") (initial "x+1"))
    = gettok (initial "x+1").
Proof.
  exact (blanks_are_insignificant (initial "x+1") "   " eq_refl eq_refl).
Defined.

(** * Further properties of the parser *)

(** ** How the state changes *)

Lemma reaches_trans s1 s2 s3 : reaches s1 s2 -> reaches s2 s3 -> reaches s1 s3.
Proof.
  intros H12 H23. induction H23; auto using reaches.
Qed.

Ltac reach_chain :=
  match goal with
  | |- reaches ?s ?s => apply reaches_refl
  | |- reaches ?s (fprintf_stderr _ _) => apply reaches_stderr; reach_chain
  | |- reaches ?s (cout _ _) => apply reaches_stdout; reach_chain
  | |- reaches ?s (snd (getNextToken _)) => apply reaches_token; reach_chain
  | |- reaches ?s (snd (GetTokPrecedence _)) => apply reaches_lookup; reach_chain
  | E : snd (getNextToken ?a) = ?b |- reaches ?s ?b =>
      rewrite <- E; apply reaches_token; reach_chain
  | E : snd (GetTokPrecedence ?a) = ?b |- reaches ?s ?b =>
      rewrite <- E; apply reaches_lookup; reach_chain
  | R : reaches ?a ?b |- reaches ?s ?b =>
      apply (reaches_trans s a b); [reach_chain | exact R]
  end.

(** Names the state that the next [getNextToken] or [GetTokPrecedence] of
    the goal leaves. *)
Ltac reach_step :=
  match goal with
  | |- context [getNextToken ?s] =>
      let E := fresh "Tk" in
      destruct (getNextToken s) as [? ?] eqn:E;
      apply (f_equal snd) in E; cbn [snd] in E
  | |- context [GetTokPrecedence ?s] =>
      let E := fresh "Tk" in
      destruct (GetTokPrecedence s) as [? ?] eqn:E;
      apply (f_equal snd) in E; cbn [snd] in E
  end.

Lemma parser_reaches fuel :
  (forall s r s', ParsePrimary fuel s = Some (r, s') -> reaches s s') /\
  (forall s r s', ParseParenExpr fuel s = Some (r, s') -> reaches s s') /\
  (forall s r s', ParseIdentifierExpr fuel s = Some (r, s') -> reaches s s') /\
  (forall a s r s', ParseCallArgs fuel a s = Some (r, s') -> reaches s s') /\
  (forall p l s r s', ParseBinOpRHS fuel p l s = Some (r, s') -> reaches s s') /\
  (forall s r s', ParseExpression fuel s = Some (r, s') -> reaches s s').
Proof.
  induction fuel as [|fuel (IH1 & IH2 & IH3 & IH4 & IH5 & IH6)];
    [repeat split; intros; discriminate|].
  repeat split; intros *; parser_step; cbv zeta.
  - (* ParsePrimary *)
    destruct (CurTok s =? IdentifierToken); [apply IH3|].
    destruct (CurTok s =? NumberToken).
    { unfold ParseNumberExpr. reach_step. intros [= <- <-]. reach_chain. }
    destruct (CurTok s =? chr "("); [apply IH2|].
    unfold LogError. intros [= <- <-]. reach_chain.
  - (* ParseParenExpr *)
    reach_step.
    destruct (ParseExpression fuel s0) as [[[V|] s1]|] eqn:E1; [| |discriminate];
      apply IH6 in E1.
    + destruct (negb (CurTok s1 =? chr ")")).
      { unfold LogError. intros [= <- <-]. reach_chain. }
      reach_step. intros [= <- <-]. reach_chain.
    + intros [= <- <-]. reach_chain.
  - (* ParseIdentifierExpr *)
    reach_step.
    destruct (negb (CurTok s0 =? chr "(")). { intros [= <- <-]. reach_chain. }
    reach_step.
    destruct (negb (CurTok s1 =? chr ")")).
    + destruct (ParseCallArgs fuel [] s1) as [[[V|] s2]|] eqn:E2; [| |discriminate];
        apply IH4 in E2.
      * reach_step. intros [= <- <-]. reach_chain.
      * intros [= <- <-]. reach_chain.
    + reach_step. intros [= <- <-]. reach_chain.
  - (* ParseCallArgs *)
    destruct (ParseExpression fuel s) as [[[V|] s1]|] eqn:E1; [| |discriminate];
      apply IH6 in E1.
    + destruct (CurTok s1 =? chr ")"). { intros [= <- <-]. reach_chain. }
      destruct (negb (CurTok s1 =? chr ",")).
      { unfold LogError. intros [= <- <-]. reach_chain. }
      reach_step. intros H. apply IH4 in H. reach_chain.
    + intros [= <- <-]. reach_chain.
  - (* ParseBinOpRHS *)
    reach_step.
    destruct (z <? p). { intros [= <- <-]. reach_chain. }
    reach_step.
    destruct (ParsePrimary fuel s1) as [[[V|] s2]|] eqn:E1; [| |discriminate];
      apply IH1 in E1.
    2:{ intros [= <- <-]. reach_chain. }
    reach_step.
    match goal with |- context [if ?c then _ else _] => destruct c end.
    + match goal with
      | |- context [ParseBinOpRHS fuel ?q V ?u] =>
          destruct (ParseBinOpRHS fuel q V u) as [[[V'|] s4]|] eqn:E2;
            [| |discriminate]; apply IH5 in E2
      end.
      * intros H. apply IH5 in H. reach_chain.
      * intros [= <- <-]. reach_chain.
    + intros H. apply IH5 in H. reach_chain.
  - (* ParseExpression *)
    destruct (ParsePrimary fuel s) as [[[V|] s1]|] eqn:E1; [| |discriminate];
      apply IH1 in E1.
    + intros H. apply IH5 in H. reach_chain.
    + intros [= <- <-]. reach_chain.
Qed.

Lemma ParsePrototypeArgs_reaches fuel : forall a s r s',
  ParsePrototypeArgs fuel a s = Some (r, s') -> reaches s s'.
Proof.
  induction fuel as [|fuel IH]; intros a s r s'; [discriminate|].
  rewrite ParsePrototypeArgs_S. reach_step.
  destruct (z =? IdentifierToken).
  - intros H. apply IH in H. reach_chain.
  - intros [= <- <-]. reach_chain.
Qed.

Lemma ParsePrototype_reaches fuel s r s' :
  ParsePrototype fuel s = Some (r, s') -> reaches s s'.
Proof.
  unfold ParsePrototype, LogErrorP, LogError.
  destruct (negb (CurTok s =? IdentifierToken)). { intros [= <- <-]. reach_chain. }
  reach_step.
  destruct (negb (CurTok s0 =? chr "(")). { intros [= <- <-]. reach_chain. }
  destruct (ParsePrototypeArgs fuel [] s0) as [[names s1]|] eqn:E1; [|discriminate].
  apply ParsePrototypeArgs_reaches in E1.
  destruct (negb (CurTok s1 =? chr ")")). { intros [= <- <-]. reach_chain. }
  reach_step. intros [= <- <-]. reach_chain.
Qed.

Lemma ParseExpression_reaches fuel s r s' :
  ParseExpression fuel s = Some (r, s') -> reaches s s'.
Proof. apply parser_reaches. Qed.

Lemma ParseDefinition_reaches fuel s r s' :
  ParseDefinition fuel s = Some (r, s') -> reaches s s'.
Proof.
  unfold ParseDefinition. reach_step.
  destruct (ParsePrototype fuel s0) as [[[proto|] s1]|] eqn:E1; [| |discriminate];
    apply ParsePrototype_reaches in E1.
  - destruct (ParseExpression fuel s1) as [[[e|] s2]|] eqn:E2; [| |discriminate];
      apply ParseExpression_reaches in E2; intros [= <- <-]; reach_chain.
  - intros [= <- <-]. reach_chain.
Qed.

Lemma ParseExtern_reaches fuel s r s' :
  ParseExtern fuel s = Some (r, s') -> reaches s s'.
Proof.
  unfold ParseExtern. reach_step. intros H.
  apply ParsePrototype_reaches in H. reach_chain.
Qed.

Lemma ParseTopLevelExpr_reaches fuel s r s' :
  ParseTopLevelExpr fuel s = Some (r, s') -> reaches s s'.
Proof.
  unfold ParseTopLevelExpr.
  destruct (ParseExpression fuel s) as [[[e|] s2]|] eqn:E2; [| |discriminate];
    apply ParseExpression_reaches in E2; intros [= <- <-]; reach_chain.
Qed.

Lemma handlers_reach fuel s s' :
  HandleDefinition fuel s = Some s' \/ HandleExtern fuel s = Some s' \/
  HandleTopLevelExpression fuel s = Some s' ->
  reaches s s'.
Proof.
  unfold HandleDefinition, HandleExtern, HandleTopLevelExpression.
  intros [H|[H|H]]; revert H.
  - destruct (ParseDefinition fuel s) as [[[?|] s1]|] eqn:E; [| |discriminate];
      apply ParseDefinition_reaches in E.
    + intros [= <-]. reach_chain.
    + reach_step. intros [= <-]. reach_chain.
  - destruct (ParseExtern fuel s) as [[[?|] s1]|] eqn:E; [| |discriminate];
      apply ParseExtern_reaches in E.
    + intros [= <-]. reach_chain.
    + reach_step. intros [= <-]. reach_chain.
  - destruct (ParseTopLevelExpr fuel s) as [[[?|] s1]|] eqn:E; [| |discriminate];
      apply ParseTopLevelExpr_reaches in E.
    + intros [= <-]. reach_chain.
    + reach_step. intros [= <-]. reach_chain.
Qed.

Lemma main_loop_reaches fuel : forall s s',
  main_loop fuel s = Some s' -> reaches s s' /\ CurTok s' = EOFToken.
Proof.
  induction fuel as [|fuel IH]; intros s s'; [discriminate|].
  rewrite main_loop_S. cbv zeta.
  assert (Hc : reaches s (cout "> " s)) by reach_chain.
  revert Hc. generalize (cout "> " s). intros s0 Hc.
  destruct (Z.eqb_spec (CurTok s0) EOFToken) as [E0|E0].
  { intros [= <-]. split; [reach_chain|assumption]. }
  assert (Hnext : forall s1, reaches s0 s1 -> main_loop fuel s1 = Some s' ->
                    reaches s s' /\ CurTok s' = EOFToken).
  { intros s1 R H. apply IH in H as [R' C]. split; [reach_chain|exact C]. }
  destruct (CurTok s0 =? chr ";").
  { reach_step. apply Hnext. reach_chain. }
  destruct (CurTok s0 =? DefToken).
  { destruct (HandleDefinition fuel s0) as [s1|] eqn:E; [|discriminate].
    apply Hnext. apply (handlers_reach fuel). auto. }
  destruct (CurTok s0 =? ExternToken).
  { destruct (HandleExtern fuel s0) as [s1|] eqn:E; [|discriminate].
    apply Hnext. apply (handlers_reach fuel). auto. }
  destruct (HandleTopLevelExpression fuel s0) as [s1|] eqn:E; [|discriminate].
  apply Hnext. apply (handlers_reach fuel). auto.
Qed.

(** What holds before the four kinds of steps and is kept by each of them
    holds after any number of them. *)
Lemma reaches_invariant (P : state -> Prop) :
  (forall s, P s -> P (snd (getNextToken s))) ->
  (forall s, P s -> P (snd (GetTokPrecedence s))) ->
  (forall s line, P s -> P (fprintf_stderr line s)) ->
  (forall s text, P s -> P (cout text s)) ->
  forall s s', reaches s s' -> P s -> P s'.
Proof.
  intros H1 H2 H3 H4 s s' R. induction R; auto.
Qed.

Lemma gettok_keeps_table s : BinopPrecedence (snd (gettok s)) = BinopPrecedence s.
Proof.
  assert (E1 : s = set_BinopPrecedence (BinopPrecedence s) s) by now destruct s.
  rewrite E1 at 1. now rewrite gettok_table.
Qed.

Lemma getNextToken_keeps_table s :
  BinopPrecedence (snd (getNextToken s)) = BinopPrecedence s.
Proof.
  unfold getNextToken. pose proof (gettok_keeps_table s) as H.
  now destruct (gettok s).
Qed.

Lemma grown_by_zeros_refl m : grown_by_zeros m m.
Proof. intros k. destruct (m !! k); auto. Qed.

Lemma grown_by_zeros_trans m1 m2 m3 :
  grown_by_zeros m1 m2 -> grown_by_zeros m2 m3 -> grown_by_zeros m1 m3.
Proof.
  intros H12 H23 k. specialize (H12 k). specialize (H23 k).
  destruct (m1 !! k) as [v|].
  - now rewrite H12 in H23.
  - destruct H12 as [E|[E Hk]]; rewrite E in H23; auto.
Qed.

Lemma GetTokPrecedence_grows s :
  grown_by_zeros (BinopPrecedence s) (BinopPrecedence (snd (GetTokPrecedence s))).
Proof.
  unfold GetTokPrecedence, subscript.
  destruct (isascii (CurTok s)) eqn:Ha; simpl; [|apply grown_by_zeros_refl].
  destruct (BinopPrecedence s !! CurTok s) as [v|] eqn:E.
  - destruct (v <=? 0); simpl; apply grown_by_zeros_refl.
  - simpl. intros k. destruct (decide (CurTok s = k)) as [<-|Hne].
    + rewrite E, lookup_insert_eq. right. split; [reflexivity|].
      now apply isascii_spec.
    + rewrite lookup_insert_ne by assumption.
      destruct (BinopPrecedence s !! k); auto.
Qed.

Lemma reaches_grows s s' :
  reaches s s' -> grown_by_zeros (BinopPrecedence s) (BinopPrecedence s').
Proof.
  induction 1.
  - apply grown_by_zeros_refl.
  - now rewrite getNextToken_keeps_table.
  - eapply grown_by_zeros_trans; [eassumption|apply GetTokPrecedence_grows].
  - assumption.
  - assumption.
Qed.

Lemma grown_by_zeros_same m m' : grown_by_zeros m m' -> same_operators m' m.
Proof.
  intros H k. specialize (H k). unfold precedence.
  destruct (m !! k) as [v|]; [now rewrite H|].
  destruct H as [->|[-> _]]; reflexivity.
Qed.

(** ** The table of operators *)

(** X7: parsing never removes an entry of the table of operators and
    never changes one; all it adds are ASCII characters mapped to 0.  This
    holds for every parse function, for the handlers and for the loop of
    [main], whether they succeed or fail. *)
Theorem table_grows_only_by_zeros :
  (forall fuel s r s',
     ParseExpression fuel s = Some (r, s') ->
     grown_by_zeros (BinopPrecedence s) (BinopPrecedence s')) /\
  (forall fuel p l s r s',
     ParseBinOpRHS fuel p l s = Some (r, s') ->
     grown_by_zeros (BinopPrecedence s) (BinopPrecedence s')) /\
  (forall fuel s r s',
     ParsePrototype fuel s = Some (r, s') ->
     BinopPrecedence s' = BinopPrecedence s) /\
  (forall fuel s r s',
     ParseDefinition fuel s = Some (r, s') ->
     grown_by_zeros (BinopPrecedence s) (BinopPrecedence s')) /\
  (forall fuel s s',
     HandleDefinition fuel s = Some s' \/ HandleExtern fuel s = Some s' \/
     HandleTopLevelExpression fuel s = Some s' ->
     grown_by_zeros (BinopPrecedence s) (BinopPrecedence s')) /\
  (forall fuel s s',
     main_loop fuel s = Some s' ->
     grown_by_zeros (BinopPrecedence s) (BinopPrecedence s')).
Proof.
  repeat split.
  - intros fuel s r s' H. eapply reaches_grows, ParseExpression_reaches, H.
  - intros fuel p l s r s' H. eapply reaches_grows.
    eapply (proj1 (proj2 (proj2 (proj2 (proj2 (parser_reaches fuel)))))), H.
  - intros fuel s r s'. unfold ParsePrototype, LogErrorP, LogError.
    destruct (negb (CurTok s =? IdentifierToken)); [now intros [= <- <-]|].
    pose proof (getNextToken_keeps_table s) as T0.
    destruct (getNextToken s) as [t s0]. simpl in T0.
    destruct (negb (CurTok s0 =? chr "(")); [now intros [= <- <-]|].
    assert (Hargs : forall fuel a s1 r1 s2,
              ParsePrototypeArgs fuel a s1 = Some (r1, s2) ->
              BinopPrecedence s2 = BinopPrecedence s1).
    { clear. induction fuel as [|fuel IH]; intros a s1 r1 s2; [discriminate|].
      rewrite ParsePrototypeArgs_S.
      pose proof (getNextToken_keeps_table s1) as T.
      destruct (getNextToken s1) as [t s3]. simpl in T.
      destruct (t =? IdentifierToken).
      - intros H. apply IH in H. congruence.
      - now intros [= <- <-]. }
    destruct (ParsePrototypeArgs fuel [] s0) as [[names s1]|] eqn:E1; [|discriminate].
    apply Hargs in E1.
    destruct (negb (CurTok s1 =? chr ")")).
    { intros [= <- <-]. simpl. congruence. }
    pose proof (getNextToken_keeps_table s1) as T1.
    destruct (getNextToken s1) as [t1 s2]. simpl in T1.
    intros [= <- <-]. congruence.
  - intros fuel s r s' H. eapply reaches_grows, ParseDefinition_reaches, H.
  - intros fuel s s' H. eapply reaches_grows, handlers_reach, H.
  - intros fuel s s' H. eapply reaches_grows. apply (main_loop_reaches fuel), H.
Qed.

Lemma table_grows_only_by_zeros_witness :
  let s := parser_start main_table "f(x, y) * 2" in
  grown_by_zeros (BinopPrecedence s)
    (<[chr ")" := 0]> (<[chr "," := 0]> main_table)).
Proof.
  intros s.
  destruct (ParseExpression 20 s) as [[r s']|] eqn:E;
    [|vm_compute in E; discriminate E].
  pose proof (proj1 table_grows_only_by_zeros 20%nat s r s' E) as H.
  vm_compute in E. injection E as _ <-. exact H.
Defined.

(** ** The driver *)

Lemma getNextToken_at_end s :
  lex_wf s -> eof_empty s ->
  let s' := snd (getNextToken s) in
  lex_wf s' /\ eof_empty s' /\ eof_seen s' /\ tok_wf s'.
Proof.
  intros W He. unfold getNextToken.
  pose proof (gettok_post_holds s W) as [W' _ _ _ _ _ _ Pe _ _].
  pose proof (gettok_payload_holds s W) as [P1 _ _ _ P5 _ _].
  destruct (gettok s) as [t s0]. simpl in *.
  split; [exact W'|]. split; [exact (P1 He)|]. split; [exact Pe|exact P5].
Qed.

Lemma GetTokPrecedence_lexer s :
  exists m, snd (GetTokPrecedence s) = set_BinopPrecedence m s.
Proof.
  pose proof (GetTokPrecedence_spec s) as H.
  destruct (GetTokPrecedence s) as [p s']. destruct H as (_ & -> & _).
  simpl. eauto.
Qed.

Lemma reaches_at_end s s' :
  reaches s s' -> lex_wf s /\ eof_empty s /\ eof_seen s ->
  lex_wf s' /\ eof_empty s' /\ eof_seen s'.
Proof.
  intros R. apply (reaches_invariant
    (fun s => lex_wf s /\ eof_empty s /\ eof_seen s)); try assumption.
  - intros s0 (W & E & _).
    destruct (getNextToken_at_end s0 W E) as (H1 & H2 & H3 & _). auto.
  - intros s0 H. destruct (GetTokPrecedence_lexer s0) as [m ->]. exact H.
  - intros s0 line H. exact H.
  - intros s0 text H. exact H.
Qed.

Lemma main_loop_output fuel : forall s s',
  lex_wf s -> main_loop fuel s = Some s' ->
  exists n, stdout s' = (stdout s ++ repeat "> " (S n))%list /\
            (length (stderr s') <= length (stderr s) + n)%nat.
Proof.
  induction fuel as [|fuel IH]; intros s s' W; [discriminate|].
  rewrite main_loop_S. cbv zeta.
  assert (W0 : lex_wf (cout "> " s)) by exact W.
  assert (Ho : stdout (cout "> " s) = (stdout s ++ ["> "])%list) by reflexivity.
  assert (He : stderr (cout "> " s) = stderr s) by reflexivity.
  revert W0 Ho He. generalize (cout "> " s). intros s0 W0 Ho He.
  destruct (CurTok s0 =? EOFToken).
  { intros [= <-]. exists O. rewrite Ho, He. split; [reflexivity|lia]. }
  assert (Hnext : forall s1, lex_wf s1 -> stdout s1 = stdout s0 ->
            (length (stderr s1) <= S (length (stderr s0)))%nat ->
            main_loop fuel s1 = Some s' ->
            exists n, stdout s' = (stdout s ++ repeat "> " (S n))%list /\
                      (length (stderr s') <= length (stderr s) + n)%nat).
  { intros s1 W1 Ho1 He1 H. destruct (IH _ _ W1 H) as (n & Hn & Hl).
    exists (S n). split; [|rewrite He in He1; lia].
    rewrite Hn, Ho1, Ho, <- app_assoc. reflexivity. }
  assert (Hh : forall s1, handled s0 s1 -> main_loop fuel s1 = Some s' ->
            exists n, stdout s' = (stdout s ++ repeat "> " (S n))%list /\
                      (length (stderr s') <= length (stderr s) + n)%nat).
  { intros s1 [W1 _ _ _ (line & Hl) Hs]. apply Hnext; auto.
    rewrite Hl, length_app. simpl. lia. }
  destruct (CurTok s0 =? chr ";").
  { run_token. destruct Q as [_ _ _ Qe Qo]. apply Hnext; auto. rewrite Qe. lia. }
  destruct (CurTok s0 =? DefToken).
  { destruct (HandleDefinition fuel s0) as [s1|] eqn:E; [|discriminate].
    apply Hh. eapply HandleDefinition_handled; eauto. }
  destruct (CurTok s0 =? ExternToken).
  { destruct (HandleExtern fuel s0) as [s1|] eqn:E; [|discriminate].
    apply Hh. eapply HandleExtern_handled; eauto. }
  destruct (HandleTopLevelExpression fuel s0) as [s1|] eqn:E; [|discriminate].
  apply Hh. eapply HandleTopLevelExpression_handled; eauto.
Qed.

(** X8: when [main] ends, it has read its whole input (nothing is left
    unread, the lexer is at [EOF] and so is the current token); the table
    still holds the four operators with the precedences it installed, and
    beyond them only characters mapped to 0; standard output holds nothing
    but prompts, at least two, and standard error at most one line for each
    prompt after the second. *)
Theorem main_ends_cleanly fuel inp s' :
  main fuel inp = Some s' ->
  CurTok s' = EOFToken /\ LastChar s' = EOF /\ stdin s' = "" /\
  grown_by_zeros main_table (BinopPrecedence s') /\
  exists n, stdout s' = repeat "> " (S (S n)) /\ (length (stderr s') <= n)%nat.
Proof.
  unfold main.
  set (s0 := cout "> " (install_operators (initial inp))).
  assert (W0 : lex_wf s0) by apply initial_wf.
  assert (I0 : lex_wf s0 /\ eof_empty s0 /\ eof_seen s0).
  { split; [exact W0|]. split; intros H; discriminate H. }
  assert (R1 : reaches s0 (snd (getNextToken s0))) by reach_chain.
  pose proof (getNextToken_quiet s0 _ _ W0 (surjective_pairing _))
    as ([W1 _ _ Qe Qo] & _).
  destruct (getNextToken s0) as [t s1]. simpl in *. intros H.
  destruct (main_loop_reaches _ _ _ H) as [R2 C].
  destruct (reaches_at_end s0 s' (reaches_trans _ _ _ R1 R2) I0) as (W' & E' & S').
  destruct (main_loop_output _ _ _ W1 H) as (n & Hn & Hl).
  repeat split; auto.
  - apply (reaches_grows s0 s'). eapply reaches_trans; eassumption.
  - exists n. rewrite Hn, Qo. rewrite Qe in Hl. split; [reflexivity|exact Hl].
Qed.

Lemma main_ends_cleanly_witness :
  exists s',
    main 100 "def f(x) x+1; f(2 3); 4" = Some s' /\
    CurTok s' = EOFToken /\ LastChar s' = EOF /\ stdin s' = "" /\
    grown_by_zeros main_table (BinopPrecedence s') /\
    exists n, stdout s' = repeat "> " (S (S n)) /\ (length (stderr s') <= n)%nat.
Proof.
  destruct (main 100 "def f(x) x+1; f(2 3); 4") as [s'|] eqn:E;
    [|vm_compute in E; discriminate E].
  exists s'. split; [reflexivity|].
  exact (main_ends_cleanly 100 "def f(x) x+1; f(2 3); 4" s' E).
Defined.

(** ** Precedence climbing *)

Lemma GetTokPrecedence_tok_precedence s :
  fst (GetTokPrecedence s) = tok_precedence s /\
  tok_precedence (snd (GetTokPrecedence s)) = tok_precedence s /\
  CurTok (snd (GetTokPrecedence s)) = CurTok s.
Proof.
  pose proof (GetTokPrecedence_spec s) as H.
  destruct (GetTokPrecedence s) as [p s']. destruct H as (-> & -> & Ho).
  unfold tok_precedence. simpl. rewrite Ho. auto.
Qed.

Lemma tok_precedence_range s : tok_precedence s = -1 \/ 0 < tok_precedence s.
Proof.
  unfold tok_precedence, precedence. destruct (isascii (CurTok s)); [|now left].
  destruct (BinopPrecedence s !! CurTok s) as [v|]; [|now left].
  destruct (Z.leb_spec v 0); [now left|now right].
Qed.

Lemma ParseBinOpRHS_stops fuel : forall p l s e s',
  ParseBinOpRHS fuel p l s = Some (Some e, s') -> tok_precedence s' < p.
Proof.
  induction fuel as [|fuel IH]; intros p l s e s'; [discriminate|].
  rewrite ParseBinOpRHS_S.
  pose proof (GetTokPrecedence_tok_precedence s) as (H1 & H2 & _).
  destruct (GetTokPrecedence s) as [q s1]. simpl in *.
  destruct (Z.ltb_spec q p). { intros [= <- <-]. lia. }
  cbv zeta. destruct (getNextToken s1) as [t s2].
  destruct (ParsePrimary fuel s2) as [[[V|] s3]|]; try discriminate.
  destruct (GetTokPrecedence s3) as [q' s4].
  destruct (q <? q'); [|apply IH].
  destruct (ParseBinOpRHS fuel (q + 1) V s4) as [[[V'|] s5]|]; try discriminate.
  apply IH.
Qed.

(** X9: [ParseBinOpRHS] returns a tree only when the token that is left
    current binds less than [ExprPrec]; so after [ParseExpression] has
    returned a tree the current token is never an operator of the table:
    an expression always takes in every operator that follows it. *)
Theorem expression_ends_at_non_operator :
  (forall fuel ExprPrec LHS s e s',
     ParseBinOpRHS fuel ExprPrec LHS s = Some (Some e, s') ->
     fst (GetTokPrecedence s') < ExprPrec) /\
  (forall fuel s e s',
     ParseExpression fuel s = Some (Some e, s') ->
     fst (GetTokPrecedence s') = -1 /\
     forall v, isascii (CurTok s') = true ->
               BinopPrecedence s' !! CurTok s' = Some v -> v <= 0).
Proof.
  split.
  - intros fuel p l s e s' H. apply ParseBinOpRHS_stops in H.
    now rewrite (proj1 (GetTokPrecedence_tok_precedence s')).
  - intros fuel s e s'. destruct fuel as [|fuel]; [discriminate|].
    rewrite ParseExpression_S.
    destruct (ParsePrimary fuel s) as [[[V|] s1]|]; try discriminate.
    intros H. apply ParseBinOpRHS_stops in H.
    assert (E : tok_precedence s' = -1)
      by (destruct (tok_precedence_range s'); lia).
    split; [now rewrite (proj1 (GetTokPrecedence_tok_precedence s'))|].
    intros v Ha Hv. unfold tok_precedence, precedence in E.
    rewrite Ha, Hv in E. destruct (Z.leb_spec v 0); lia.
Qed.

Lemma expression_ends_at_non_operator_witness :
  let s := parser_start main_table "1+2*3 < x y" in
  exists e s',
    ParseExpression 20 s = Some (Some e, s') /\
    fst (GetTokPrecedence s') = -1 /\
    forall v, isascii (CurTok s') = true ->
              BinopPrecedence s' !! CurTok s' = Some v -> v <= 0.
Proof.
  intros s.
  destruct (ParseExpression 20 s) as [[[e|] s']|] eqn:E;
    [|vm_compute in E; discriminate E..].
  exists e, s'. split; [reflexivity|].
  exact (proj2 expression_ends_at_non_operator 20%nat s e s' E).
Defined.

Lemma extends_same m1 m2 p lhs e :
  same_operators m1 m2 -> extends m1 p lhs e -> extends m2 p lhs e.
Proof.
  intros H. induction 1; [constructor|].
  constructor; [assumption|]. now rewrite <- H.
Qed.

Lemma extends_left m p op lhs rhs e :
  p <= precedence m (chr op) ->
  extends m p (BinaryExprAST op lhs rhs) e -> extends m p lhs e.
Proof.
  intros Hp. induction 1.
  - constructor; [constructor|assumption].
  - constructor; assumption.
Qed.

Lemma ParseBinOpRHS_extends fuel : forall p l s e s',
  0 <= p -> ParseBinOpRHS fuel p l s = Some (Some e, s') ->
  extends (BinopPrecedence s) p l e.
Proof.
  induction fuel as [|fuel IH]; intros p l s e s' Hp; [discriminate|].
  rewrite ParseBinOpRHS_S.
  pose proof (GetTokPrecedence_tok_precedence s) as (H1 & _ & Hc).
  destruct (GetTokPrecedence s) as [q s1] eqn:E0.
  assert (R1 : reaches s s1).
  { replace s1 with (snd (GetTokPrecedence s)) by now rewrite E0. reach_chain. }
  simpl in *.
  destruct (Z.ltb_spec q p). { intros [= <- <-]. constructor. }
  destruct (GetTokPrecedence_operator _ _ _ E0 ltac:(lia)) as (Hascii & Hv & Hpos).
  assert (Hop : precedence (BinopPrecedence s) (chr (char_of_int (CurTok s1))) = q).
  { apply isascii_spec in Hascii. rewrite Hc, chr_char_of_int by lia.
    unfold precedence. rewrite Hv. destruct (Z.leb_spec q 0); [lia|reflexivity]. }
  cbv zeta. reach_step.
  destruct (ParsePrimary fuel s0) as [[[V|] s3]|] eqn:E1; try discriminate.
  apply (proj1 (parser_reaches fuel)) in E1.
  reach_step.
  assert (Hmerge : forall V' s5, reaches s s5 ->
            ParseBinOpRHS fuel p (BinaryExprAST (char_of_int (CurTok s1)) l V') s5
              = Some (Some e, s') ->
            extends (BinopPrecedence s) p l e).
  { intros V' s5 R HB. apply IH in HB; [|assumption].
    apply (extends_left _ _ (char_of_int (CurTok s1)) l V'); [lia|].
    eapply extends_same; [|exact HB].
    apply grown_by_zeros_same, reaches_grows, R. }
  match goal with |- context [if ?c then _ else _] => destruct c end.
  - match goal with
    | |- context [ParseBinOpRHS fuel ?q' V ?u] =>
        destruct (ParseBinOpRHS fuel q' V u) as [[[V'|] s5]|] eqn:E2;
          try discriminate;
        apply (proj1 (proj2 (proj2 (proj2 (proj2 (parser_reaches fuel)))))) in E2
    end.
    apply Hmerge. reach_chain.
  - apply Hmerge. reach_chain.
Qed.

(** X10: the tree that [ParseBinOpRHS] returns is its [LHS] argument
    itself or has it as its leftmost operand, under operators whose
    precedence in the table is [ExprPrec] or more: the loop only ever
    wraps what it was given, on the left. *)
Theorem binoprhs_extends_its_lhs fuel ExprPrec LHS s e s' :
  0 <= ExprPrec ->
  ParseBinOpRHS fuel ExprPrec LHS s = Some (Some e, s') ->
  extends (BinopPrecedence s) ExprPrec LHS e.
Proof. apply ParseBinOpRHS_extends. Qed.

Lemma binoprhs_extends_its_lhs_witness :
  let s := snd (getNextToken (parser_start main_table "a * b + c < d")) in
  extends (BinopPrecedence s) 20 (VariableExprAST "a")
    (BinaryExprAST "+"
       (BinaryExprAST "*" (VariableExprAST "a") (VariableExprAST "b"))
       (VariableExprAST "c")).
Proof.
  intros s.
  destruct (ParseBinOpRHS 20 20 (VariableExprAST "a") s) as [[[e|] s']|] eqn:E;
    [|vm_compute in E; discriminate E..].
  pose proof (binoprhs_extends_its_lhs 20 20 (VariableExprAST "a") s e s'
                ltac:(lia) E) as H.
  vm_compute in E. injection E as <- _. exact H.
Defined.

(** ** Names *)

Lemma getNextToken_tok_wf s :
  lex_wf s -> lex_wf (snd (getNextToken s)) /\ tok_wf (snd (getNextToken s)).
Proof.
  intros W. unfold getNextToken.
  pose proof (gettok_post_holds s W) as [W' _ _ _ _ _ _ _ _ _].
  pose proof (gettok_payload_holds s W) as [_ _ _ _ P5 _ _].
  destruct (gettok s) as [t s0]. simpl in *. split; [exact W'|exact P5].
Qed.

Lemma reaches_tok_wf s s' :
  reaches s s' -> lex_wf s /\ tok_wf s -> lex_wf s' /\ tok_wf s'.
Proof.
  intros R. apply (reaches_invariant (fun s => lex_wf s /\ tok_wf s));
    try assumption.
  - intros s0 [W _]. now apply getNextToken_tok_wf.
  - intros s0 H. destruct (GetTokPrecedence_lexer s0) as [m ->]. exact H.
  - intros s0 line H. exact H.
  - intros s0 text H. exact H.
Qed.

(** Proves that the state [t], reached from the state of [W] and [T], is
    well formed. *)
Ltac ok_at W T t :=
  let H := fresh "K" in
  match type of W with
  | lex_wf ?s =>
      assert (H : lex_wf t /\ tok_wf t)
        by (apply (reaches_tok_wf s t); [reach_chain | exact (conj W T)])
  end.

Lemma parser_names fuel :
  (forall s e s', lex_wf s -> tok_wf s ->
     ParsePrimary fuel s = Some (Some e, s') ->
     Forall is_identifier (names e)) /\
  (forall s e s', lex_wf s -> tok_wf s ->
     ParseParenExpr fuel s = Some (Some e, s') ->
     Forall is_identifier (names e)) /\
  (forall s e s', lex_wf s -> tok_wf s -> CurTok s = IdentifierToken ->
     ParseIdentifierExpr fuel s = Some (Some e, s') ->
     Forall is_identifier (names e)) /\
  (forall a s args s', lex_wf s -> tok_wf s ->
     Forall is_identifier (concat (map names a)) ->
     ParseCallArgs fuel a s = Some (Some args, s') ->
     Forall is_identifier (concat (map names args))) /\
  (forall p l s e s', lex_wf s -> tok_wf s ->
     Forall is_identifier (names l) ->
     ParseBinOpRHS fuel p l s = Some (Some e, s') ->
     Forall is_identifier (names e)) /\
  (forall s e s', lex_wf s -> tok_wf s ->
     ParseExpression fuel s = Some (Some e, s') ->
     Forall is_identifier (names e)).
Proof.
  induction fuel as [|fuel (IH1 & IH2 & IH3 & IH4 & IH5 & IH6)];
    [repeat split; intros; discriminate|].
  repeat split; intros * W T; parser_step; cbv zeta.
  - (* ParsePrimary *)
    destruct (Z.eqb_spec (CurTok s) IdentifierToken); [now apply IH3|].
    destruct (CurTok s =? NumberToken).
    { unfold ParseNumberExpr. destruct (getNextToken s).
      intros [= <- <-]. constructor. }
    destruct (CurTok s =? chr "("); [now apply IH2|discriminate].
  - (* ParseParenExpr *)
    reach_step. ok_at W T s0. destruct K as [W0 T0].
    destruct (ParseExpression fuel s0) as [[[V|] s1]|] eqn:E1; try discriminate.
    apply IH6 in E1; try assumption.
    destruct (negb (CurTok s1 =? chr ")")); [discriminate|].
    destruct (getNextToken s1). now intros [= <- <-].
  - (* ParseIdentifierExpr *)
    intros Hc. specialize (T Hc).
    reach_step.
    destruct (negb (CurTok s0 =? chr "(")).
    { intros [= <- <-]. simpl. constructor; [assumption|constructor]. }
    reach_step.
    assert (K : lex_wf s1 /\ tok_wf s1).
    { rewrite <- Tk0. apply getNextToken_tok_wf.
      rewrite <- Tk. now apply getNextToken_tok_wf. }
    destruct K as [W1 T1].
    destruct (negb (CurTok s1 =? chr ")")).
    + destruct (ParseCallArgs fuel [] s1) as [[[args|] s2]|] eqn:E2;
        try discriminate.
      apply IH4 in E2; try assumption; [|constructor].
      destruct (getNextToken s2). intros [= <- <-]. simpl.
      constructor; assumption.
    + destruct (getNextToken s1). intros [= <- <-]. simpl.
      constructor; [assumption|constructor].
  - (* ParseCallArgs *)
    intros Ha.
    destruct (ParseExpression fuel s) as [[[V|] s1]|] eqn:E1; try discriminate.
    pose proof (IH6 _ _ _ W T E1) as HV.
    apply ParseExpression_reaches in E1.
    ok_at W T s1. destruct K as [W1 T1].
    assert (Ha' : Forall is_identifier (concat (map names (a ++ [V])))).
    { rewrite map_app, concat_app. apply Forall_app. split; [assumption|].
      simpl. now rewrite app_nil_r. }
    destruct (CurTok s1 =? chr ")"). { now intros [= <- <-]. }
    destruct (negb (CurTok s1 =? chr ",")); [discriminate|].
    reach_step. ok_at W T s0. destruct K as [W0 T0]. now apply IH4.
  - (* ParseBinOpRHS *)
    intros Hl. reach_step.
    destruct (z <? p). { now intros [= <- <-]. }
    reach_step.
    destruct (ParsePrimary fuel s1) as [[[V|] s2]|] eqn:E1; try discriminate.
    ok_at W T s1. destruct K as [W1 T1].
    pose proof (IH1 _ _ _ W1 T1 E1) as HV.
    apply (proj1 (parser_reaches fuel)) in E1.
    reach_step.
    ok_at W T s3. destruct K as [W3 T3].
    assert (Hmerge : forall V' s5, lex_wf s5 /\ tok_wf s5 ->
              Forall is_identifier (names V') ->
              ParseBinOpRHS fuel p (BinaryExprAST (char_of_int (CurTok s0)) l V') s5
                = Some (Some e, s') ->
              Forall is_identifier (names e)).
    { intros V' s5 [W5 T5] HV'. apply IH5; try assumption.
      simpl. apply Forall_app. now split. }
    match goal with |- context [if ?c then _ else _] => destruct c end.
    + match goal with
      | |- context [ParseBinOpRHS fuel ?q' V ?u] =>
          destruct (ParseBinOpRHS fuel q' V u) as [[[V'|] s5]|] eqn:E2;
            try discriminate;
          pose proof (IH5 _ _ _ _ _ W3 T3 HV E2) as HV';
          apply (proj1 (proj2 (proj2 (proj2 (proj2 (parser_reaches fuel)))))) in E2
      end.
      ok_at W T s5. now apply Hmerge.
    + now apply Hmerge.
  - (* ParseExpression *)
    destruct (ParsePrimary fuel s) as [[[V|] s1]|] eqn:E1; try discriminate.
    pose proof (IH1 _ _ _ W T E1) as HV.
    apply (proj1 (parser_reaches fuel)) in E1.
    ok_at W T s1. destruct K as [W1 T1]. now apply IH5.
Qed.

Lemma ParsePrototypeArgs_names fuel : forall a s r s',
  lex_wf s -> Forall is_identifier a ->
  ParsePrototypeArgs fuel a s = Some (r, s') -> Forall is_identifier r.
Proof.
  induction fuel as [|fuel IH]; intros a s r s' W Ha; [discriminate|].
  rewrite ParsePrototypeArgs_S.
  pose proof (getNextToken_tok_wf s W) as [W1 T1].
  pose proof (getNextToken_quiet s _ _ W (surjective_pairing _)) as (_ & C & _).
  destruct (getNextToken s) as [t s1]. simpl in *.
  destruct (Z.eqb_spec t IdentifierToken) as [Et|Et].
  - apply IH; [assumption|]. apply Forall_app. split; [assumption|].
    constructor; [|constructor]. apply T1. congruence.
  - now intros [= <- <-].
Qed.

Lemma ParsePrototype_names fuel s proto s' :
  lex_wf s -> tok_wf s -> ParsePrototype fuel s = Some (Some proto, s') ->
  is_identifier (Name proto) /\ Forall is_identifier (Args proto).
Proof.
  intros W T. unfold ParsePrototype, LogErrorP, LogError.
  destruct (Z.eqb_spec (CurTok s) IdentifierToken) as [Ec|Ec]; [|discriminate].
  simpl. pose proof (getNextToken_tok_wf s W) as [W1 _].
  destruct (getNextToken s) as [t s1]. simpl in *.
  destruct (negb (CurTok s1 =? chr "(")); [discriminate|].
  destruct (ParsePrototypeArgs fuel [] s1) as [[args s2]|] eqn:E1; [|discriminate].
  apply ParsePrototypeArgs_names in E1; [|assumption|constructor].
  destruct (negb (CurTok s2 =? chr ")")); [discriminate|].
  destruct (getNextToken s2). intros [= <- <-]. simpl. auto.
Qed.

Lemma is_identifier_not_anon text : is_identifier text -> text <> "__anon_expr".
Proof.
  intros ((c & tail & -> & Hc & _) & _) [= -> _]. discriminate Hc.
Qed.

(** X11: every name in what the parser builds is an identifier as the
    lexer scans them, that is a text of the form [a-zA-Z][a-zA-Z0-9]* other
    than "def" and "extern": the variables and callees of an expression,
    the name and the parameters of a prototype, and so the name of a
    defined function is never the reserved "__anon_expr". *)
Theorem names_are_identifiers :
  (forall fuel s e s',
     lex_wf s -> tok_wf s -> ParseExpression fuel s = Some (Some e, s') ->
     Forall is_identifier (names e)) /\
  (forall fuel s f s',
     lex_wf s -> ParseDefinition fuel s = Some (Some f, s') ->
     is_identifier (Name (Proto f)) /\ Name (Proto f) <> "__anon_expr" /\
     Forall is_identifier (Args (Proto f)) /\
     Forall is_identifier (names (Body f))) /\
  (forall fuel s proto s',
     lex_wf s -> ParseExtern fuel s = Some (Some proto, s') ->
     is_identifier (Name proto) /\ Name proto <> "__anon_expr" /\
     Forall is_identifier (Args proto)).
Proof.
  split; [|split].
  - intros fuel. apply parser_names.
  - intros fuel s f s' W. unfold ParseDefinition.
    pose proof (getNextToken_tok_wf s W) as [W1 T1].
    destruct (getNextToken s) as [t s1]. simpl in *.
    destruct (ParsePrototype fuel s1) as [[[proto|] s2]|] eqn:E1; try discriminate.
    pose proof (ParsePrototype_names _ _ _ _ W1 T1 E1) as [H1 H2].
    apply ParsePrototype_reaches in E1.
    destruct (reaches_tok_wf _ _ E1 (conj W1 T1)) as [W2 T2].
    destruct (ParseExpression fuel s2) as [[[e|] s3]|] eqn:E2; try discriminate.
    apply (proj2 (proj2 (proj2 (proj2 (proj2 (parser_names fuel)))))) in E2;
      try assumption.
    intros [= <- <-]. simpl. auto using is_identifier_not_anon.
  - intros fuel s proto s' W. unfold ParseExtern.
    pose proof (getNextToken_tok_wf s W) as [W1 T1].
    destruct (getNextToken s) as [t s1]. simpl in *. intros H.
    apply ParsePrototype_names in H as [H1 H2]; try assumption.
    auto using is_identifier_not_anon.
Qed.

Lemma names_are_identifiers_witness :
  Forall is_identifier ["avg"; "a"; "b"; "half"; "a"; "b"].
Proof.
  set (s := parser_start main_table "def avg(a b) half(a+b)").
  assert (W : lex_wf s) by (vm_compute; split; discriminate).
  destruct (ParseDefinition 30 s) as [[[f|] s']|] eqn:E;
    [|vm_compute in E; discriminate E..].
  destruct (proj1 (proj2 names_are_identifiers) 30%nat s f s' W E)
    as (H1 & _ & H2 & H3).
  vm_compute in E. injection E as <- _. simpl in *.
  constructor; [exact H1|].
  change (Forall is_identifier (["a"; "b"] ++ ["half"; "a"; "b"])%list).
  apply Forall_app. split; [exact H2|exact H3].
Defined.

(** ** Termination and silence *)

Lemma ParsePrimary_terminates fuel s :
  lex_wf s -> (4 * remaining s + 2 <= fuel)%nat -> is_Some (ParsePrimary fuel s).
Proof.
  intros W Hf.
  destruct (parser_terminates _ s W (Nat.le_refl _)) as (_ & _ & _ & Hp & _).
  now rewrite (ParsePrimary_ge (4 * remaining s + 2) fuel).
Qed.

(** X12: the parse functions return on every state the lexer can be in:
    four units of fuel for each token still to come, and three more, are
    always enough, and with that much the answer of [ParseExpression] no
    longer depends on the fuel. *)
Theorem parse_functions_return fuel s :
  lex_wf s -> (4 * remaining s + 3 <= fuel)%nat ->
  is_Some (ParsePrimary fuel s) /\ is_Some (ParseExpression fuel s) /\
  is_Some (ParsePrototype fuel s) /\ is_Some (ParseDefinition fuel s) /\
  is_Some (ParseExtern fuel s) /\ is_Some (ParseTopLevelExpr fuel s) /\
  (forall fuel', (fuel <= fuel')%nat ->
     ParseExpression fuel' s = ParseExpression fuel s).
Proof.
  intros W Hf.
  pose proof (ParseExpression_terminates fuel s W Hf) as He.
  repeat split.
  - apply ParsePrimary_terminates; [assumption|lia].
  - exact He.
  - apply ParsePrototype_terminates; [assumption|lia].
  - now apply ParseDefinition_terminates.
  - now apply ParseExtern_terminates.
  - now apply ParseTopLevelExpr_terminates.
  - intros fuel' Hle. now apply ParseExpression_ge.
Qed.

Lemma parse_functions_return_witness :
  let s := parser_start main_table "f(1, (2" in
  is_Some (ParsePrimary 100 s) /\ is_Some (ParseExpression 100 s) /\
  is_Some (ParsePrototype 100 s) /\ is_Some (ParseDefinition 100 s) /\
  is_Some (ParseExtern 100 s) /\ is_Some (ParseTopLevelExpr 100 s) /\
  (forall fuel', (100 <= fuel')%nat ->
     ParseExpression fuel' s = ParseExpression 100 s).
Proof.
  exact (parse_functions_return 100 (parser_start main_table "f(1, (2")
           ltac:(vm_compute; split; discriminate) ltac:(vm_compute; lia)).
Defined.

(** X13: a parse function that returns a node has written nothing, to
    standard error or to standard output, and has consumed at least one
    token.  The parser never prints on success: only the handlers
    report. *)
Theorem successful_parse_is_silent fuel s s' :
  lex_wf s ->
  (exists e, ParsePrimary fuel s = Some (Some e, s')) \/
  (exists e, ParseExpression fuel s = Some (Some e, s')) \/
  (exists p, ParsePrototype fuel s = Some (Some p, s')) \/
  (exists f, ParseDefinition fuel s = Some (Some f, s')) \/
  (exists p, ParseExtern fuel s = Some (Some p, s')) \/
  (exists f, ParseTopLevelExpr fuel s = Some (Some f, s')) ->
  stderr s' = stderr s /\ stdout s' = stdout s /\
  (remaining s' < remaining s)%nat /\ lex_wf s'.
Proof.
  intros W H.
  assert (Hq : quiet s s' /\ (remaining s' < remaining s)%nat).
  { destruct H as [[e H]|[[e H]|[[e H]|[[e H]|[[e H]|[e H]]]]]].
    - apply (proj1 (parser_parsed fuel)) in H as [Q S]; auto.
    - apply ParseExpression_parsed in H as [Q S]; auto.
    - apply ParsePrototype_parsed in H as [Q S]; auto.
    - apply ParseDefinition_parsed in H as [Q S]; auto.
    - apply ParseExtern_parsed in H as [Q S]; auto.
    - apply ParseTopLevelExpr_parsed in H as [Q S]; auto. }
  destruct Hq as [[] Hlt]. auto.
Qed.

Lemma successful_parse_is_silent_witness :
  let s := parser_start main_table "extern sin(x) 1" in
  let s' := snd (getNextToken (snd (getNextToken (snd (getNextToken
              (snd (getNextToken (snd (getNextToken s))))))))) in
  stderr s' = stderr s /\ stdout s' = stdout s /\
  (remaining s' < remaining s)%nat /\ lex_wf s'.
Proof.
  intros s s'.
  apply (successful_parse_is_silent 20 s s');
    [vm_compute; split; discriminate|].
  do 4 right. left. eexists. vm_compute. reflexivity.
Defined.

(** ** Blank input *)

Lemma gettok_blank s :
  isspace (LastChar s) = true -> all_chars isspace (stdin s) = true ->
  gettok s = (EOFToken, set_lexer EOF "" s).
Proof.
  intros Hlc Hws. rewrite gettok_eq. cbv zeta.
  rewrite skip_whitespace_blank by assumption. reflexivity.
Qed.

(** X14: on an input that holds nothing but blanks, the empty input
    included, [main] prints its two prompts, writes nothing to standard
    error and ends; any fuel is enough. *)
Theorem main_on_blank_input fuel inp :
  all_chars isspace inp = true ->
  exists s', main (S fuel) inp = Some s' /\
             stdout s' = ["> "; "> "] /\ stderr s' = [] /\
             BinopPrecedence s' = main_table.
Proof.
  intros Hws. unfold main, getNextToken.
  rewrite gettok_blank by first [exact Hws | reflexivity].
  rewrite main_loop_S. cbv zeta. fields.
  eexists. split; [reflexivity|]. repeat split.
Qed.

Lemma main_on_blank_input_witness :
  exists s', main 1 "" = Some s' /\
             stdout s' = ["> "; "> "] /\ stderr s' = [] /\
             BinopPrecedence s' = main_table.
Proof. exact (main_on_blank_input 0 "" eq_refl). Defined.

(** ** Prototypes *)

Lemma append_assoc (a b c : string) : (a +:+ b) +:+ c = a +:+ (b +:+ c).
Proof.
  induction a as [|x a IH]; [reflexivity|]. now rewrite !append_cons, IH.
Qed.

Lemma getchar_cons a X :
  fst (getchar (String a X)) = chr a /\ snd (getchar (String a X)) = X.
Proof. split; reflexivity. Qed.

Lemma gettok_single s ws c rest :
  0 <= LastChar s <= 255 ->
  String (char_of_int (LastChar s)) (stdin s) = ws +:+ String c rest ->
  all_chars isspace ws = true ->
  isspace (chr c) = false -> isalpha (chr c) = false ->
  isnumeric (chr c) = false -> c <> "#"%char ->
  gettok s = (chr c, set_lexer (fst (getchar rest)) (snd (getchar rest)) s).
Proof.
  intros Hlc Hlay Hws Hsp Hal Hnum Hh.
  rewrite gettok_eq. cbv zeta.
  rewrite (skip_whitespace_layout ws _ _ c rest) by assumption.
  fields. rewrite Hal. unfold isnumeric in Hnum. rewrite Hnum.
  destruct (Z.eqb_spec (chr c) (chr "#")) as [E|E].
  { exfalso. apply Hh. rewrite <- (char_of_int_chr c), E. reflexivity. }
  unfold gettok_char. fields.
  destruct (Z.eqb_spec (chr c) EOF) as [E'|E']; [now apply chr_not_EOF in E'|].
  now destruct (getchar rest).
Qed.








(** * Round trips *)

(** ** Reading a written text *)

Lemma all_chars_app p a b :
  all_chars p (a +:+ b) = all_chars p a && all_chars p b.
Proof.
  induction a as [|x a IH]; [reflexivity|].
  rewrite append_cons. simpl. now rewrite IH, andb_assoc.
Qed.

Lemma at_text_layout s ws c tail :
  LastChar s = fst (getchar (ws +:+ String c tail)) ->
  stdin s = snd (getchar (ws +:+ String c tail)) ->
  0 <= LastChar s <= 255 /\
  String (char_of_int (LastChar s)) (stdin s) = ws +:+ String c tail.
Proof.
  destruct ws as [|a ws]; [change ("" +:+ String c tail) with (String c tail)
                          |rewrite append_cons];
    simpl; intros -> ->; (split; [apply chr_range|now rewrite char_of_int_chr]).
Qed.

Lemma at_text_here s text :
  LastChar s = fst (getchar text) -> stdin s = snd (getchar text) ->
  at_text s text.
Proof. intros H1 H2. exists "". repeat split; assumption. Qed.

Lemma at_text_blanks s ws text :
  all_chars isspace ws = true -> at_text s (ws +:+ text) -> at_text s text.
Proof.
  intros Hws (ws0 & H0 & H1 & H2). exists (ws0 +:+ ws).
  rewrite all_chars_app, H0, Hws, append_assoc. auto.
Qed.

Ltac char_cases :=
  repeat first
    [ progress (unfold closes, own_token, isspace, isalnum, isalpha, isdigit,
                  isnumeric in *)
    | progress (change (chr " ") with 32 in *; change (chr "0") with 48 in *;
                change (chr "9") with 57 in *; change (chr "A") with 65 in *;
                change (chr "Z") with 90 in *; change (chr "a") with 97 in *;
                change (chr "z") with 122 in *; change (chr ".") with 46 in *;
                change (chr "#") with 35 in *; change (chr "(") with 40 in *)
    | match goal with
      | H : context [?a <=? ?b] |- _ => destruct (Z.leb_spec a b); simpl in H
      | H : context [?a =? ?b] |- _ => destruct (Z.eqb_spec a b); simpl in H
      | |- context [?a <=? ?b] => destruct (Z.leb_spec a b); simpl
      | |- context [?a =? ?b] => destruct (Z.eqb_spec a b); simpl
      end ];
  try discriminate; try lia; auto.

Lemma blank_stops c :
  isspace c = true -> isalnum c = false /\ isnumeric c = false.
Proof. intros H. split; char_cases. Qed.

Lemma closes_stops c :
  closes c = true -> isalnum c = false /\ isnumeric c = false.
Proof. intros H. split; char_cases. Qed.

Lemma follow_stops ws follow :
  all_chars isspace ws = true -> closes (fst (getchar follow)) = true ->
  ends_run isalnum (ws +:+ follow) = true /\
  ends_run isnumeric (ws +:+ follow) = true.
Proof.
  intros Hws Hc. unfold ends_run.
  destruct ws as [|a ws].
  - change ("" +:+ follow) with follow.
    destruct (closes_stops _ Hc) as [-> ->]. auto.
  - rewrite append_cons. simpl in *. apply andb_true_iff in Hws as [Ha _].
    destruct (blank_stops _ Ha) as [-> ->]. auto.
Qed.

Lemma reads_trans s0 s1 s2 t1 x1 t x :
  reads s0 s1 t1 x1 -> reads s1 s2 t x -> reads s0 s2 t x.
Proof.
  intros [] []. split; eauto using same_operators_trans; congruence.
Qed.

Lemma next_identifier s name rest :
  at_text s (name +:+ rest) -> identifierb name = true ->
  ends_run isalnum rest = true ->
  exists s1, getNextToken s = (IdentifierToken, s1) /\
             IdentifierStr s1 = name /\ reads s s1 IdentifierToken rest.
Proof.
  intros (ws & Hws & HL & HS) Hid Hend.
  destruct name as [|c run]; [discriminate|].
  unfold identifierb in Hid.
  apply andb_true_iff in Hid as [Hid He]. apply andb_true_iff in Hid as [Hid Hd].
  apply andb_true_iff in Hid as [Hc Hrun].
  apply negb_true_iff in He, Hd.
  rewrite append_cons in HL, HS.
  destruct (at_text_layout _ _ _ _ HL HS) as [Hlc Hlay].
  unfold getNextToken.
  rewrite (gettok_identifier s ws c run rest) by assumption.
  rewrite Hd, He. eexists. split; [reflexivity|]. split; [reflexivity|].
  split; fields; try reflexivity; [now apply at_text_here|apply same_operators_refl].
Qed.

Lemma next_number s literal rest :
  at_text s (literal +:+ rest) -> literalb literal = true ->
  ends_run isnumeric rest = true ->
  exists s1, getNextToken s = (NumberToken, s1) /\
             NumVal s1 = strtod literal /\ reads s s1 NumberToken rest.
Proof.
  intros (ws & Hws & HL & HS) Hid Hend.
  destruct literal as [|c run]; [discriminate|].
  apply andb_true_iff in Hid as [Hc Hrun].
  rewrite append_cons in HL, HS.
  destruct (at_text_layout _ _ _ _ HL HS) as [Hlc Hlay].
  unfold getNextToken.
  rewrite (gettok_number s ws c run rest) by assumption.
  eexists. split; [reflexivity|]. split; [reflexivity|].
  split; fields; try reflexivity; [now apply at_text_here|apply same_operators_refl].
Qed.

Lemma next_own s follow :
  at_text s follow -> own_token (fst (getchar follow)) = true ->
  exists s1, getNextToken s = (fst (getchar follow), s1) /\
             reads s s1 (fst (getchar follow)) (snd (getchar follow)).
Proof.
  intros (ws & Hws & HL & HS) Hown. unfold getNextToken.
  destruct follow as [|d rest].
  - rewrite append_nil_r in HL, HS.
    assert (E : gettok s = (EOFToken, set_lexer EOF "" s)).
    { destruct ws as [|a ws]; simpl in HL, HS.
      - rewrite gettok_eq, HL, HS. reflexivity.
      - simpl in Hws. apply andb_true_iff in Hws as [Ha Hws].
        apply gettok_blank; [now rewrite HL|now rewrite HS]. }
    rewrite E. eexists. split; [reflexivity|].
    split; fields; try reflexivity; [now apply at_text_here|apply same_operators_refl].
  - destruct (at_text_layout _ _ _ _ HL HS) as [Hlc Hlay].
    cbn [getchar fst snd] in *.
    rewrite (gettok_single s ws d rest); try assumption; try solve [char_cases].
    + eexists. split; [reflexivity|].
      split; fields; try reflexivity;
        [now apply at_text_here|apply same_operators_refl].
    + intros ->. char_cases.
Qed.

Lemma precedence_sign m k : precedence m k = -1 \/ 0 < precedence m k.
Proof.
  unfold precedence. destruct (m !! k) as [v|]; [|now left].
  destruct (Z.leb_spec v 0); [now left|now right].
Qed.

Lemma GetTokPrecedence_reads s0 s t text :
  reads s0 s t text ->
  exists p s1, GetTokPrecedence s = (p, s1) /\ reads s0 s1 t text /\
    p = (if binds (BinopPrecedence s0) t
         then precedence (BinopPrecedence s0) t else -1).
Proof.
  intros [Ht Hx He Ho Hm].
  pose proof (GetTokPrecedence_spec s) as H.
  destruct (GetTokPrecedence s) as [p s1]. destruct H as (Hp & Hs & Hm1).
  exists p, s1. split; [reflexivity|]. split.
  - rewrite Hs. split; fields; auto.
    eauto using same_operators_trans.
  - rewrite Hp, Ht, (Hm t). unfold binds.
    destruct (isascii t); [|reflexivity]. simpl.
    destruct (precedence_sign (BinopPrecedence s0) t) as [E|E].
    + rewrite E. reflexivity.
    + apply Z.ltb_lt in E. now rewrite E.
Qed.

(** ** Written expressions *)

Section written_induction.
Variable P : written -> Prop.
Hypothesis HNumber : forall literal, P (WNumber literal).
Hypothesis HVariable : forall name, P (WVariable name).
Hypothesis HBinary :
  forall op lhs rhs, P lhs -> P rhs -> P (WBinary op lhs rhs).
Hypothesis HCall : forall callee args, Forall P args -> P (WCall callee args).

Lemma written_induction : forall w, P w.
Proof.
  fix IH 1. intros [literal|name|op lhs rhs|callee args];
    [apply HNumber|apply HVariable|apply HBinary; apply IH|].
  apply HCall. induction args as [|a args IHargs];
    constructor; [apply IH|assumption].
Qed.

End written_induction.

Lemma append_nil_l (x : string) : "" +:+ x = x.
Proof. reflexivity. Qed.

Ltac strings :=
  repeat first [rewrite append_assoc | rewrite append_cons
               | rewrite append_nil_l].

Ltac strings_in H :=
  repeat first [rewrite append_assoc in H | rewrite append_cons in H
               | rewrite append_nil_l in H].

Ltac burn fuel := destruct fuel as [|fuel]; [lia|].

Lemma binds_same m m' t : same_operators m m' -> binds m t = binds m' t.
Proof. intros H. unfold binds. now rewrite (H t). Qed.

Lemma reads_blanks s s' t ws text :
  reads s s' t (ws +:+ text) -> all_chars isspace ws = true ->
  reads s s' t text.
Proof. intros [] H. split; eauto using at_text_blanks. Qed.

Lemma reads_same s s' t text tbl :
  reads s s' t text -> same_operators (BinopPrecedence s) tbl ->
  same_operators (BinopPrecedence s') tbl.
Proof. intros [] H. eauto using same_operators_trans. Qed.

Lemma expression_of_primary tbl w : primary_ok tbl w -> expression_ok tbl w.
Proof.
  intros HP s ws follow Hm Hat Hws Hc Hb.
  destruct (HP s ws follow Hm Hat Hws Hc) as (n & s1 & Hrun & Hr).
  destruct (GetTokPrecedence_reads s s1 _ _ Hr) as (p & s2 & Ep & Hr2 & Hp).
  rewrite (binds_same _ tbl), Hb in Hp by assumption.
  exists (S (S n)), s2. split; [|exact Hr2].
  intros fuel Hf. burn fuel. rewrite ParseExpression_S, Hrun by lia.
  burn fuel. rewrite ParseBinOpRHS_S, Ep. subst p. reflexivity.
Qed.

Lemma primary_number tbl literal :
  literalb literal = true -> primary_ok tbl (WNumber literal).
Proof.
  intros Hw s ws follow Hm Hat Hws Hc. cbn [show] in Hat.
  destruct (follow_stops ws follow Hws Hc) as [_ Hn].
  destruct (next_number s literal _ Hat Hw Hn) as (s1 & E1 & Hv & R1).
  apply reads_blanks in R1; [|assumption].
  destruct (next_own s1 follow) as (s2 & E2 & R2);
    [apply R1|now apply andb_true_iff in Hc|].
  exists 1%nat, s2. split; [|eapply reads_trans; eauto].
  intros fuel Hf. burn fuel. rewrite E1. cbn [snd].
  rewrite ParsePrimary_S, (reads_CurTok _ _ _ _ R1).
  change (NumberToken =? IdentifierToken) with false.
  change (NumberToken =? NumberToken) with true. cbv iota.
  unfold ParseNumberExpr. now rewrite E2, Hv.
Qed.

Lemma primary_variable tbl name :
  identifierb name = true -> primary_ok tbl (WVariable name).
Proof.
  intros Hw s ws follow Hm Hat Hws Hc. cbn [show] in Hat.
  destruct (follow_stops ws follow Hws Hc) as [Hn _].
  destruct (next_identifier s name _ Hat Hw Hn) as (s1 & E1 & Hv & R1).
  apply reads_blanks in R1; [|assumption].
  apply andb_true_iff in Hc as [Hown Hopen].
  destruct (next_own s1 follow) as (s2 & E2 & R2); [apply R1|assumption|].
  exists 2%nat, s2. split; [|eapply reads_trans; eauto].
  intros fuel Hf. burn fuel. rewrite E1. cbn [snd].
  rewrite ParsePrimary_S, (reads_CurTok _ _ _ _ R1).
  change (IdentifierToken =? IdentifierToken) with true. cbv iota.
  burn fuel. rewrite ParseIdentifierExpr_S. cbv zeta. rewrite E2.
  rewrite (reads_CurTok _ _ _ _ R2), Hopen, Hv. reflexivity.
Qed.

Lemma primary_binary tbl op lhs rhs :
  binds tbl (chr ")") = false ->
  closes (chr op) = true -> binds tbl (chr op) = true ->
  primary_ok tbl lhs -> primary_ok tbl rhs ->
  primary_ok tbl (WBinary op lhs rhs).
Proof.
  intros Hparen Hop Hbind Hl Hr s ws follow Hm Hat Hws Hc.
  cbn [show] in Hat. strings_in Hat.
  destruct (next_own s _ Hat eq_refl) as (s1 & E1 & R1).
  cbn [getchar fst snd] in E1, R1.
  assert (M1 := reads_same _ _ _ _ _ R1 Hm).
  destruct (Hl s1 " " (String op (String " " (show rhs +:+
              String ")" (ws +:+ follow))))) as (nl & s2 & Hrunl & R2);
    [assumption|strings; apply R1|reflexivity|exact Hop|].
  cbn [getchar fst snd] in R2.
  destruct (GetTokPrecedence_reads s1 s2 _ _ R2) as (p & s3 & Ep & R3 & Hp).
  rewrite (binds_same _ tbl), Hbind in Hp by assumption.
  assert (Hpos : 0 < p).
  { subst p. rewrite (M1 (chr op)). unfold binds in Hbind.
    apply andb_true_iff in Hbind as [_ Hbind]. now apply Z.ltb_lt. }
  assert (M3 := reads_same _ _ _ _ _ R3 M1).
  destruct (Hr s3 "" (String ")" (ws +:+ follow))) as (nr & s4 & Hrunr & R4);
    [assumption
    |strings; apply (at_text_blanks s3 " "); [reflexivity|strings; apply R3]
    |reflexivity|reflexivity|].
  cbn [getchar fst snd] in R4.
  destruct (GetTokPrecedence_reads s3 s4 _ _ R4) as (p1 & s5 & Ep1 & R5 & Hp1).
  rewrite (binds_same _ tbl), Hparen in Hp1 by assumption.
  destruct (GetTokPrecedence_reads s3 s5 _ _ R5) as (p2 & s6 & Ep2 & R6 & Hp2).
  rewrite (binds_same _ tbl), Hparen in Hp2 by assumption.
  apply reads_blanks in R6; [|assumption].
  apply andb_true_iff in Hc as [Hown Hopen].
  destruct (next_own s6 follow) as (s7 & E7 & R7); [apply R6|assumption|].
  exists (nl + nr + 6)%nat, s7. split.
  - intros fuel Hf. burn fuel. rewrite E1. cbn [snd].
    rewrite ParsePrimary_S, (reads_CurTok _ _ _ _ R1).
    change (chr "(" =? IdentifierToken) with false.
    change (chr "(" =? NumberToken) with false.
    change (chr "(" =? chr "(") with true. cbv iota.
    burn fuel. rewrite ParseParenExpr_S.
    destruct (getNextToken s1) as [t1 s1'] eqn:E1'. cbn [snd] in Hrunl.
    burn fuel. rewrite ParseExpression_S, Hrunl by lia.
    burn fuel. rewrite ParseBinOpRHS_S, Ep.
    replace (p <? 0) with false by (symmetry; apply Z.ltb_ge; lia).
    cbv zeta. destruct (getNextToken s3) as [t3 s3'] eqn:E3'. cbn [snd] in Hrunr.
    rewrite Hrunr by lia. rewrite Ep1. subst p1.
    replace (p <? -1) with false by (symmetry; apply Z.ltb_ge; lia).
    burn fuel. rewrite ParseBinOpRHS_S, Ep2. subst p2.
    change (-1 <? 0) with true. cbv iota.
    rewrite (reads_CurTok _ _ _ _ R6), Z.eqb_refl. cbn [negb]. rewrite E7.
    rewrite (reads_CurTok _ _ _ _ R3), char_of_int_chr. reflexivity.
  - eauto using reads_trans.
Qed.

Lemma separated_cons x y l :
  separated (x :: y :: l) = x +:+ ", " +:+ separated (y :: l).
Proof. reflexivity. Qed.

Lemma ParseExpression_not_closing fuel s e s' :
  ParseExpression fuel s = Some (Some e, s') -> CurTok s <> chr ")".
Proof.
  intros H E. destruct fuel as [|fuel]; [discriminate|].
  rewrite ParseExpression_S in H. destruct fuel as [|fuel]; [discriminate|].
  rewrite ParsePrimary_S, E in H. discriminate.
Qed.

Lemma ParseCallArgs_written tbl :
  binds tbl (chr ")") = false -> binds tbl (chr ",") = false ->
  forall args, Forall (expression_ok tbl) args -> args <> [] ->
  forall acc s rest,
    same_operators (BinopPrecedence s) tbl ->
    at_text s (separated (map show args) +:+ String ")" rest) ->
    CurTok (snd (getNextToken s)) <> chr ")" /\
    exists n s',
      (forall fuel, (n <= fuel)%nat ->
         ParseCallArgs fuel acc (snd (getNextToken s))
           = Some (Some (acc ++ map tree args)%list, s')) /\
      reads s s' (chr ")") rest.
Proof.
  intros Hparen Hcomma args.
  induction args as [|a l IH]; [congruence|].
  intros HF _ acc s rest Hm Hat.
  apply Forall_cons in HF as [Ha Hl]. destruct l as [|b l].
  - cbn [map separated] in Hat.
    destruct (Ha s "" (String ")" rest)) as (n & s1 & Hrun & R1);
      [assumption|strings; exact Hat|reflexivity|reflexivity|exact Hparen|].
    cbn [getchar fst snd] in R1. split.
    + apply (ParseExpression_not_closing n _ (tree a) s1). now apply Hrun.
    + exists (S n), s1. split; [|exact R1].
      intros fuel Hf. burn fuel. rewrite ParseCallArgs_S, Hrun by lia.
      now rewrite (reads_CurTok _ _ _ _ R1), Z.eqb_refl.
  - cbn [map] in Hat. rewrite separated_cons in Hat. strings_in Hat.
    destruct (Ha s "" (String "," (String " "
                (separated (show b :: map show l) +:+ String ")" rest))))
      as (n & s1 & Hrun & R1);
      [assumption|strings; exact Hat|reflexivity|reflexivity|exact Hcomma|].
    cbn [getchar fst snd] in R1.
    destruct (IH Hl ltac:(discriminate) (acc ++ [tree a])%list s1 rest)
      as (_ & n2 & s2 & Hrun2 & R2).
    { eapply reads_same; eauto. }
    { apply (at_text_blanks s1 " "); [reflexivity|]. strings. apply R1. }
    split.
    + apply (ParseExpression_not_closing n _ (tree a) s1). now apply Hrun.
    + exists (S (n + n2)), s2. split; [|eauto using reads_trans].
      intros fuel Hf. burn fuel. rewrite ParseCallArgs_S, Hrun by lia.
      rewrite (reads_CurTok _ _ _ _ R1).
      change (chr "," =? chr ")") with false.
      change (negb (chr "," =? chr ",")) with false. cbv iota.
      destruct (getNextToken s1) as [t1 s1'] eqn:E1'. cbn [snd] in Hrun2.
      rewrite Hrun2 by lia. now rewrite <- app_assoc.
Qed.

Lemma primary_call tbl callee args :
  binds tbl (chr ")") = false -> binds tbl (chr ",") = false ->
  identifierb callee = true -> Forall (primary_ok tbl) args ->
  primary_ok tbl (WCall callee args).
Proof.
  intros Hparen Hcomma Hid Hargs s ws follow Hm Hat Hws Hc.
  cbn [show] in Hat. strings_in Hat.
  destruct (next_identifier s callee _ Hat Hid eq_refl) as (s1 & E1 & Hv & R1).
  destruct (next_own s1 _ (reads_text _ _ _ _ R1) eq_refl) as (s2 & E2 & R2).
  cbn [getchar fst snd] in E2, R2.
  assert (M2 : same_operators (BinopPrecedence s2) tbl)
    by eauto using reads_same.
  apply andb_true_iff in Hc as [Hown Hopen].
  destruct args as [|a l].
  - cbn [map separated] in R2. strings_in R2.
    destruct (next_own s2 _ (reads_text _ _ _ _ R2) eq_refl) as (s3 & E3 & R3).
    cbn [getchar fst snd] in E3, R3.
    apply reads_blanks in R3; [|assumption].
    destruct (next_own s3 follow) as (s4 & E4 & R4); [apply R3|assumption|].
    exists 2%nat, s4. split; [|eauto using reads_trans].
    intros fuel Hf. burn fuel. rewrite E1. cbn [snd].
    rewrite ParsePrimary_S, (reads_CurTok _ _ _ _ R1).
    change (IdentifierToken =? IdentifierToken) with true. cbv iota.
    burn fuel. rewrite ParseIdentifierExpr_S. cbv zeta. rewrite E2.
    rewrite (reads_CurTok _ _ _ _ R2), Z.eqb_refl. cbn [negb]. rewrite E3.
    rewrite (reads_CurTok _ _ _ _ R3), Z.eqb_refl. cbn [negb]. rewrite E4.
    now rewrite Hv.
  - destruct (ParseCallArgs_written tbl Hparen Hcomma (a :: l)) with
      (acc := @nil ExprAST) (s := s2) (rest := ws +:+ follow)
      as (Hne & n & s3 & Hrun & R3).
    { eapply Forall_impl; [exact Hargs|]. apply expression_of_primary. }
    { discriminate. }
    { assumption. }
    { apply R2. }
    apply reads_blanks in R3; [|assumption].
    destruct (next_own s3 follow) as (s4 & E4 & R4); [apply R3|assumption|].
    exists (S (S n)), s4. split; [|eauto using reads_trans].
    intros fuel Hf. burn fuel. rewrite E1. cbn [snd].
    rewrite ParsePrimary_S, (reads_CurTok _ _ _ _ R1).
    change (IdentifierToken =? IdentifierToken) with true. cbv iota.
    burn fuel. rewrite ParseIdentifierExpr_S. cbv zeta. rewrite E2.
    rewrite (reads_CurTok _ _ _ _ R2), Z.eqb_refl. cbn [negb].
    destruct (getNextToken s2) as [t2 s2'] eqn:E2'. cbn [snd] in Hne, Hrun.
    apply Z.eqb_neq in Hne. rewrite Hne. cbn [negb].
    rewrite Hrun by lia. rewrite E4. now rewrite Hv.
Qed.

Lemma primary_written tbl :
  binds tbl (chr ")") = false -> binds tbl (chr ",") = false ->
  forall w, well_written tbl w = true -> primary_ok tbl w.
Proof.
  intros Hparen Hcomma w.
  induction w as [literal|name|op lhs IHl rhs IHr|callee args IH]
    using written_induction; cbn [well_written]; intros Hw.
  - now apply primary_number.
  - now apply primary_variable.
  - apply andb_true_iff in Hw as [Hw Hr]. apply andb_true_iff in Hw as [Hw Hl].
    apply andb_true_iff in Hw as [Hop Hb]. apply primary_binary; auto.
  - apply andb_true_iff in Hw as [Hid Hall]. apply primary_call; auto.
    clear Hid. induction IH as [|a l Ha Hl IHl]; constructor;
      cbn [forallb] in Hall; apply andb_true_iff in Hall as [H1 H2]; auto.
Qed.

Lemma at_text_initial tbl inp : at_text (set_BinopPrecedence tbl (initial inp)) inp.
Proof. exists " ". repeat split. Qed.

(** X16: a well-written expression parses back to its tree.  The text
    of a written expression (binary expressions in parentheses, calls
    with their arguments separated by commas), followed by blanks and
    then by the end of the input or by a character that is a token of
    its own, is no opening parenthesis and no operator, is parsed by
    [ParseExpression] into exactly the tree it stands for, with the fuel
    that is always enough; that character is left as the current token,
    nothing is written, and the table keeps its operators.  The closing
    parenthesis and the comma must not be operators of the table. *)
Theorem expression_round_trip tbl w ws follow fuel :
  well_written tbl w = true ->
  binds tbl (chr ")") = false -> binds tbl (chr ",") = false ->
  all_chars isspace ws = true ->
  closes (fst (getchar follow)) = true ->
  binds tbl (fst (getchar follow)) = false ->
  let s := parser_start tbl (show w +:+ ws +:+ follow) in
  (4 * remaining s + 3 <= fuel)%nat ->
  exists s',
    ParseExpression fuel s = Some (Some (tree w), s') /\
    CurTok s' = fst (getchar follow) /\ at_text s' (snd (getchar follow)) /\
    stderr s' = [] /\ stdout s' = [] /\
    same_operators (BinopPrecedence s') tbl.
Proof.
  intros Hw Hparen Hcomma Hws Hc Hb s Hf.
  set (s0 := set_BinopPrecedence tbl (initial (show w +:+ ws +:+ follow))).
  destruct (expression_of_primary tbl w (primary_written tbl Hparen Hcomma w Hw)
              s0 ws follow) as (n & s' & Hrun & [R1 R2 R3 R4 R5]);
    [apply same_operators_refl|apply at_text_initial|assumption..|].
  change (snd (getNextToken s0)) with s in Hrun.
  assert (W : lex_wf s).
  { destruct (getNextToken s0) as [t s1] eqn:E.
    assert (W0 : lex_wf s0) by (vm_compute; split; discriminate).
    destruct (getNextToken_quiet _ _ _ W0 E) as ([] & _).
    unfold s, parser_start. fold s0. now rewrite E. }
  exists s'. split; [|auto].
  rewrite <- (Hrun (Nat.max fuel n)) by lia.
  symmetry. apply ParseExpression_ge; [lia|].
  now apply ParseExpression_terminates.
Qed.

Lemma expression_round_trip_witness :
  let w := WBinary "+" (WVariable "a")
             (WCall "f" [WNumber "1.5";
                         WBinary "*" (WVariable "b2") (WNumber "2")]) in
  exists s',
    ParseExpression 400 (parser_start main_table (show w +:+ " " +:+ ";def"))
      = Some (Some (tree w), s') /\
    CurTok s' = chr ";" /\ at_text s' "def" /\
    stderr s' = [] /\ stdout s' = [] /\
    same_operators (BinopPrecedence s') main_table.
Proof.
  intros w.
  apply (expression_round_trip main_table w " " ";def" 400);
    try (vm_compute; reflexivity).
  vm_compute. lia.
Defined.

(** ** Written programs *)

Lemma spaced_stops ps rest :
  ends_run isalnum (spaced ps +:+ String ")" rest) = true.
Proof. destruct ps; reflexivity. Qed.

Lemma ParsePrototypeArgs_written params : forall acc s rest,
  forallb identifierb params = true ->
  at_text s (spaced params +:+ String ")" rest) ->
  exists s',
    (forall fuel, (length params < fuel)%nat ->
       ParsePrototypeArgs fuel acc s = Some ((acc ++ params)%list, s')) /\
    reads s s' (chr ")") rest.
Proof.
  induction params as [|p ps IH]; intros acc s rest Hid Hat.
  - cbn [spaced] in Hat. strings_in Hat.
    destruct (next_own s _ Hat eq_refl) as (s1 & E1 & R1).
    cbn [getchar fst snd] in E1, R1.
    exists s1. split; [|exact R1]. intros fuel Hf. burn fuel.
    rewrite ParsePrototypeArgs_S, E1, app_nil_r. reflexivity.
  - cbn [spaced] in Hat. strings_in Hat.
    cbn [forallb] in Hid. apply andb_true_iff in Hid as [Hp Hps].
    apply (at_text_blanks s " ") in Hat; [|reflexivity].
    destruct (next_identifier s p _ Hat Hp (spaced_stops ps rest))
      as (s1 & E1 & Hv & R1).
    destruct (IH (acc ++ [p])%list s1 rest Hps (reads_text _ _ _ _ R1))
      as (s2 & Hrun & R2).
    exists s2. split; [|eauto using reads_trans].
    intros fuel Hf. cbn [length] in Hf. burn fuel.
    rewrite ParsePrototypeArgs_S, E1.
    change (IdentifierToken =? IdentifierToken) with true. cbv iota.
    rewrite Hv, Hrun by lia. now rewrite <- app_assoc.
Qed.

Lemma ParsePrototype_written name params s rest :
  identifierb name = true -> forallb identifierb params = true ->
  at_text s (prototype_text name params +:+ rest) ->
  exists s1,
    (forall fuel, (length params < fuel)%nat ->
       ParsePrototype fuel (snd (getNextToken s))
         = Some (Some (mkPrototypeAST name params), snd (getNextToken s1))) /\
    reads s s1 (chr ")") rest.
Proof.
  intros Hid Hps Hat. unfold prototype_text in Hat. strings_in Hat.
  destruct (next_identifier s name _ Hat Hid eq_refl) as (s1 & E1 & Hv & R1).
  destruct (next_own s1 _ (reads_text _ _ _ _ R1) eq_refl) as (s2 & E2 & R2).
  cbn [getchar fst snd] in E2, R2.
  destruct (ParsePrototypeArgs_written params [] s2 rest Hps
              (reads_text _ _ _ _ R2)) as (s3 & Hrun & R3).
  exists s3. split; [|eauto using reads_trans].
  intros fuel Hf. rewrite E1. cbn [snd]. unfold ParsePrototype.
  rewrite (reads_CurTok _ _ _ _ R1).
  change (negb (IdentifierToken =? IdentifierToken)) with false. cbv iota zeta.
  rewrite E2, (reads_CurTok _ _ _ _ R2), Z.eqb_refl. cbn [negb].
  rewrite Hrun by assumption.
  rewrite (reads_CurTok _ _ _ _ R3), Z.eqb_refl. cbn [negb].
  rewrite Hv. now destruct (getNextToken s3).
Qed.

Lemma next_keyword s rest :
  ends_run isalnum rest = true ->
  (at_text s ("def" +:+ rest) ->
   exists s1, getNextToken s = (DefToken, s1) /\ reads s s1 DefToken rest) /\
  (at_text s ("extern" +:+ rest) ->
   exists s1, getNextToken s = (ExternToken, s1) /\
              reads s s1 ExternToken rest).
Proof.
  intros Hend. split; intros (ws & Hws & HL & HS);
    rewrite append_cons in HL, HS;
    destruct (at_text_layout _ _ _ _ HL HS) as [Hlc Hlay];
    unfold getNextToken.
  - rewrite (gettok_identifier s ws "d" "ef" rest) by auto.
    eexists. split; [reflexivity|].
    split; fields; try reflexivity;
      [now apply at_text_here|apply same_operators_refl].
  - rewrite (gettok_identifier s ws "e" "xtern" rest) by auto.
    eexists. split; [reflexivity|].
    split; fields; try reflexivity;
      [now apply at_text_here|apply same_operators_refl].
Qed.

Lemma gettok_rec_cout fuel : forall text s,
  gettok_rec fuel (cout text s) =
    match gettok_rec fuel s with
    | Some (t, s') => Some (t, cout text s')
    | None => None
    end.
Proof.
  induction fuel as [|fuel IH]; intros text s; [reflexivity|].
  rewrite !gettok_rec_S. cbv zeta. fields.
  destruct (skip_whitespace (LastChar s) (stdin s)) as [c rest]. fields.
  destruct (isalpha c).
  { destruct (scan_identifier _ rest) as [[id c'] rest']. fields.
    repeat case_match; reflexivity. }
  destruct (isdigit c || (c =? chr ".")).
  { destruct (scan_number _ c rest) as [[num c'] rest']. reflexivity. }
  unfold gettok_char.
  destruct (c =? chr "#").
  - destruct (skip_comment rest) as [c' rest']. fields.
    destruct (c' =? EOF); simpl.
    + reflexivity.
    + apply (IH text (set_lexer c' rest' (set_lexer c rest s))).
  - fields. destruct (c =? EOF); [reflexivity|].
    destruct (getchar rest). reflexivity.
Qed.

Lemma getNextToken_cout text s :
  snd (getNextToken (cout text s)) = cout text (snd (getNextToken s)).
Proof.
  unfold getNextToken.
  assert (E : gettok (cout text s) = (fst (gettok s), cout text (snd (gettok s)))).
  { apply gettok_rec_gettok with (fuel := S (String.length (stdin s))).
    rewrite gettok_rec_cout, gettok_gettok_rec. now destruct (gettok s). }
  rewrite E. now destruct (gettok s).
Qed.

Lemma ParseDefinition_written tbl name params body s ws follow :
  binds tbl (chr ")") = false -> binds tbl (chr ",") = false ->
  well_formed tbl (IDefinition name params body) = true ->
  same_operators (BinopPrecedence s) tbl ->
  at_text s (prototype_text name params +:+ " " +:+ show body +:+ ws +:+ follow) ->
  all_chars isspace ws = true ->
  closes (fst (getchar follow)) = true ->
  binds tbl (fst (getchar follow)) = false ->
  exists n s',
    (forall fuel, (n <= fuel)%nat ->
       ParseDefinition fuel s
         = Some (Some (mkFunctionAST (mkPrototypeAST name params) (tree body)),
                 s')) /\
    reads s s' (fst (getchar follow)) (snd (getchar follow)).
Proof.
  intros Hparen Hcomma Hwf Hm Hat Hws Hc Hb. cbn [well_formed] in Hwf.
  apply andb_true_iff in Hwf as [Hwf Hbody].
  apply andb_true_iff in Hwf as [Hname Hparams].
  destruct (ParsePrototype_written name params s _ Hname Hparams Hat)
    as (s1 & Hrun1 & R1).
  destruct (expression_of_primary tbl body
              (primary_written tbl Hparen Hcomma body Hbody) s1 ws follow)
    as (n & s2 & Hrun2 & R2);
    [eauto using reads_same
    |apply (at_text_blanks s1 " "); [reflexivity|apply R1]
    |assumption..|].
  exists (S (length params) + n)%nat, s2. split; [|eauto using reads_trans].
  intros fuel Hf. unfold ParseDefinition.
  destruct (getNextToken s) as [t s0] eqn:E0. cbn [snd] in Hrun1.
  rewrite Hrun1 by lia. now rewrite Hrun2 by lia.
Qed.

(** X17: a written definition parses back.  After [def], a prototype
    (name, parameters separated by blanks, in parentheses) and a
    well-written body, [ParseDefinition] answers the function made of
    that prototype and of the tree of the body, writes nothing, and
    leaves the token that follows the body as the current one. *)
Theorem definition_round_trip tbl name params body ws follow :
  well_formed tbl (IDefinition name params body) = true ->
  binds tbl (chr ")") = false -> binds tbl (chr ",") = false ->
  all_chars isspace ws = true ->
  closes (fst (getchar follow)) = true ->
  binds tbl (fst (getchar follow)) = false ->
  exists n s',
    (forall fuel, (n <= fuel)%nat ->
       ParseDefinition fuel
         (parser_start tbl
            (show_item (IDefinition name params body) +:+ ws +:+ follow))
       = Some (Some (mkFunctionAST (mkPrototypeAST name params) (tree body)),
               s')) /\
    CurTok s' = fst (getchar follow) /\ at_text s' (snd (getchar follow)) /\
    stderr s' = [] /\ stdout s' = [] /\
    same_operators (BinopPrecedence s') tbl.
Proof.
  intros Hwf Hparen Hcomma Hws Hc Hb. unfold parser_start.
  set (s0 := set_BinopPrecedence tbl (initial _)).
  assert (Hat : at_text s0 (show_item (IDefinition name params body)
                            +:+ ws +:+ follow)) by apply at_text_initial.
  cbn [show_item] in Hat. strings_in Hat.
  match type of Hat with
  | at_text _ (String _ (String _ (String _ ?r))) =>
      destruct (proj1 (next_keyword s0 r eq_refl) Hat) as (s1 & E1 & R1)
  end.
  destruct (ParseDefinition_written tbl name params body s1 ws follow
              Hparen Hcomma Hwf) as (n & s' & Hrun & R2);
    [exact (reads_same _ _ _ _ _ R1 (same_operators_refl _))
    |apply (at_text_blanks _ " "); [reflexivity|]; strings; apply R1
    |assumption..|].
  exists n, s'. rewrite E1. cbn [snd]. split; [exact Hrun|].
  destruct (reads_trans _ _ _ _ _ _ _ R1 R2) as [T1 T2 T3 T4 T5]. auto.
Qed.

Lemma definition_round_trip_witness :
  let body := WBinary "<" (WVariable "x") (WCall "g" [WNumber "10"]) in
  exists n s',
    (forall fuel, (n <= fuel)%nat ->
       ParseDefinition fuel
         (parser_start main_table
            (show_item (IDefinition "lt" ["x"] body) +:+ " " +:+ ";"))
       = Some (Some (mkFunctionAST (mkPrototypeAST "lt" ["x"]) (tree body)),
               s')) /\
    CurTok s' = chr ";" /\ at_text s' "" /\
    stderr s' = [] /\ stdout s' = [] /\
    same_operators (BinopPrecedence s') main_table.
Proof.
  intros body.
  apply (definition_round_trip main_table "lt" ["x"] body " " ";");
    vm_compute; reflexivity.
Defined.

(** ** The driver on a written program *)

Lemma ParseExpression_first fuel s e s' :
  ParseExpression fuel s = Some (Some e, s') ->
  CurTok s = IdentifierToken \/ CurTok s = NumberToken \/ CurTok s = chr "(".
Proof.
  intros H. destruct fuel as [|fuel]; [discriminate|].
  rewrite ParseExpression_S in H. destruct fuel as [|fuel]; [discriminate|].
  rewrite ParsePrimary_S in H.
  destruct (Z.eqb_spec (CurTok s) IdentifierToken); [auto|].
  destruct (Z.eqb_spec (CurTok s) NumberToken); [auto|].
  destruct (Z.eqb_spec (CurTok s) (chr "(")); [auto|]. discriminate.
Qed.

Lemma program_cons i items :
  program (i :: items) = show_item i +:+ String ";" (newline +:+ program items).
Proof. cbn [program]. now rewrite append_cons. Qed.

Lemma main_loop_program tbl :
  binds tbl (chr ")") = false -> binds tbl (chr ",") = false ->
  binds tbl (chr ";") = false ->
  forall items, forallb (well_formed tbl) items = true ->
  forall s, same_operators (BinopPrecedence s) tbl ->
  at_text s (program items) ->
  exists n s',
    (forall fuel, (n <= fuel)%nat ->
       main_loop fuel (snd (getNextToken s)) = Some s') /\
    stderr s' = (stderr s ++ map report items)%list /\
    stdout s' = (stdout s ++ repeat "> " (2 * length items + 1))%list /\
    CurTok s' = EOFToken /\ same_operators (BinopPrecedence s') tbl.
Proof.
  intros Hparen Hcomma Hsemi items.
  induction items as [|i items IH]; intros Hwf s Hm Hat.
  - destruct (next_own s "" Hat eq_refl) as (s1 & E1 & [R1 R2 R3 R4 R5]).
    exists 1%nat, (cout "> " s1). split; [|split; [|split; [|split]]].
    + intros fuel Hf. burn fuel. rewrite E1. cbn [snd].
      rewrite main_loop_S. cbv zeta. fields. now rewrite R1.
    + fields. now rewrite app_nil_r.
    + fields. now rewrite R4.
    + exact R1.
    + eauto using same_operators_trans.
  - cbn [forallb] in Hwf. apply andb_true_iff in Hwf as [Hi Hwf].
    rewrite program_cons in Hat.
    set (X := newline +:+ program items) in *.
    assert (Htail : forall s2,
              CurTok s2 = chr ";" -> at_text s2 X ->
              same_operators (BinopPrecedence s2) tbl ->
              exists n s',
                (forall fuel, (n <= fuel)%nat ->
                   main_loop fuel (fprintf_stderr (report i) s2) = Some s') /\
                stderr s' = (stderr s2 ++ report i :: map report items)%list /\
                stdout s' = (stdout s2 ++
                             repeat "> " (2 * length items + 2))%list /\
                CurTok s' = EOFToken /\ same_operators (BinopPrecedence s') tbl).
    { intros s2 Hc2 Hat2 Hm2.
      destruct (IH Hwf (cout "> " (fprintf_stderr (report i) s2)))
        as (n & s' & Hrun & He & Ho & Hc & Hm'); [exact Hm2| |].
      { apply (at_text_blanks _ newline); [reflexivity|exact Hat2]. }
      exists (S n), s'. split; [|split; [|split; [|split]]]; try assumption.
      - intros fuel Hf. burn fuel. rewrite main_loop_S. cbv zeta. fields.
        rewrite Hc2. change (chr ";" =? EOFToken) with false.
        change (chr ";" =? chr ";") with true. cbv iota.
        destruct (getNextToken _) as [t3 s3] eqn:E3. cbn [snd] in Hrun.
        apply Hrun. lia.
      - rewrite He. fields. now rewrite <- app_assoc.
      - rewrite Ho. fields. rewrite <- app_assoc. f_equal.
        replace (2 * length items + 2)%nat
          with (S (2 * length items + 1)) by lia. reflexivity. }
    destruct i as [name params body|name params|w]; cbn [show_item] in Hat.
    + strings_in Hat.
      match type of Hat with
      | at_text _ (String _ (String _ (String _ ?r))) =>
          destruct (proj1 (next_keyword s r eq_refl) Hat) as (s1 & E1 & R1)
      end.
      destruct (ParseDefinition_written tbl name params body (cout "> " s1)
                  "" (String ";" X) Hparen Hcomma Hi)
        as (n1 & s2 & Hrun & R2);
        [exact (reads_same _ _ _ _ _ R1 Hm)
        |apply (at_text_blanks _ " "); [reflexivity|]; strings; apply R1
        |reflexivity|reflexivity|exact Hsemi|].
      cbn [getchar fst snd] in R2.
      destruct (Htail s2) as (n2 & s' & Hrun2 & He & Ho & Hc & Hm');
        [apply R2|apply R2
        |exact (reads_same _ _ _ _ _ R2 (reads_same _ _ _ _ _ R1 Hm))|].
      exists (S (n1 + n2)), s'. split; [|split; [|split; [|split]]];
        try assumption.
      * intros fuel Hf. burn fuel. rewrite E1. cbn [snd].
        rewrite main_loop_S. cbv zeta. fields.
        rewrite (reads_CurTok _ _ _ _ R1).
        change (DefToken =? EOFToken) with false.
        change (DefToken =? chr ";") with false.
        change (DefToken =? DefToken) with true. cbv iota.
        unfold HandleDefinition. rewrite Hrun by lia. apply Hrun2. lia.
      * rewrite He, (reads_stderr _ _ _ _ R2). fields.
        now rewrite (reads_stderr _ _ _ _ R1).
      * rewrite Ho, (reads_stdout _ _ _ _ R2). fields.
        rewrite (reads_stdout _ _ _ _ R1), <- app_assoc. f_equal.
        cbn [length]. replace (2 * S (length items) + 1)%nat
          with (S (2 * length items + 2)) by lia. reflexivity.
    + strings_in Hat. cbn [well_formed] in Hi.
      apply andb_true_iff in Hi as [Hname Hparams].
      match type of Hat with
      | at_text _ (String _ (String _ (String _ (String _ (String _
                     (String _ ?r)))))) =>
          destruct (proj2 (next_keyword s r eq_refl) Hat) as (s1 & E1 & R1)
      end.
      destruct (ParsePrototype_written name params (cout "> " s1)
                  (String ";" X) Hname Hparams) as (s2 & Hrun & R2).
      { apply (at_text_blanks _ " "); [reflexivity|]. strings. apply R1. }
      destruct (next_own s2 _ (reads_text _ _ _ _ R2) eq_refl)
        as (s3 & E3 & R3).
      cbn [getchar fst snd] in E3, R3.
      destruct (Htail s3) as (n2 & s' & Hrun2 & He & Ho & Hc & Hm');
        [apply R3|apply R3
        |exact (reads_same _ _ _ _ _ R3
                  (reads_same _ _ _ _ _ R2 (reads_same _ _ _ _ _ R1 Hm)))|].
      exists (S (S (length params) + n2)), s'.
      split; [|split; [|split; [|split]]]; try assumption.
      * intros fuel Hf. burn fuel. rewrite E1. cbn [snd].
        rewrite main_loop_S. cbv zeta. fields.
        rewrite (reads_CurTok _ _ _ _ R1).
        change (ExternToken =? EOFToken) with false.
        change (ExternToken =? chr ";") with false.
        change (ExternToken =? DefToken) with false.
        change (ExternToken =? ExternToken) with true. cbv iota.
        unfold HandleExtern, ParseExtern.
        destruct (getNextToken (cout "> " s1)) as [t1 s1'] eqn:E1'.
        cbn [snd] in Hrun. rewrite Hrun by lia. rewrite E3. cbn [snd].
        apply Hrun2. lia.
      * rewrite He, (reads_stderr _ _ _ _ R3), (reads_stderr _ _ _ _ R2).
        fields. now rewrite (reads_stderr _ _ _ _ R1).
      * rewrite Ho, (reads_stdout _ _ _ _ R3), (reads_stdout _ _ _ _ R2).
        fields. rewrite (reads_stdout _ _ _ _ R1), <- app_assoc. f_equal.
        cbn [length]. replace (2 * S (length items) + 1)%nat
          with (S (2 * length items + 2)) by lia. reflexivity.
    + cbn [well_formed] in Hi.
      destruct (expression_of_primary tbl w
                  (primary_written tbl Hparen Hcomma w Hi)
                  (cout "> " s) "" (String ";" X))
        as (n1 & s2 & Hrun & R2);
        [exact Hm|strings; exact Hat|reflexivity|reflexivity|exact Hsemi|].
      cbn [getchar fst snd] in R2. rewrite getNextToken_cout in Hrun.
      destruct (Htail s2) as (n2 & s' & Hrun2 & He & Ho & Hc & Hm');
        [apply R2|apply R2|exact (reads_same _ _ _ _ _ R2 Hm)|].
      exists (S (n1 + n2)), s'.
      split; [|split; [|split; [|split]]]; try assumption.
      * intros fuel Hf. burn fuel. rewrite main_loop_S. cbv zeta.
        assert (Hfirst := ParseExpression_first _ _ _ _ (Hrun fuel ltac:(lia))).
        fields.
        replace (CurTok (snd (getNextToken s)) =? EOFToken) with false
          by (destruct Hfirst as [-> | [-> | ->]]; reflexivity).
        replace (CurTok (snd (getNextToken s)) =? chr ";") with false
          by (destruct Hfirst as [-> | [-> | ->]]; reflexivity).
        replace (CurTok (snd (getNextToken s)) =? DefToken) with false
          by (destruct Hfirst as [-> | [-> | ->]]; reflexivity).
        replace (CurTok (snd (getNextToken s)) =? ExternToken) with false
          by (destruct Hfirst as [-> | [-> | ->]]; reflexivity).
        unfold HandleTopLevelExpression, ParseTopLevelExpr.
        rewrite Hrun by lia. apply Hrun2. lia.
      * rewrite He, (reads_stderr _ _ _ _ R2). reflexivity.
      * rewrite Ho, (reads_stdout _ _ _ _ R2). fields.
        rewrite <- app_assoc. f_equal.
        cbn [length]. replace (2 * S (length items) + 1)%nat
          with (S (2 * length items + 2)) by lia. reflexivity.
Qed.

Lemma main_table_plain :
  binds main_table (chr ")") = false /\ binds main_table (chr ",") = false /\
  binds main_table (chr ";") = false.
Proof. repeat split; vm_compute; reflexivity. Qed.

(** X18: [main] accepts every written program.  On the text of a list of
    well-formed items, each closed by a semicolon, [main] ends at the end
    of the input having written to standard error exactly one report for
    each item, in order ("Parsed a function definition.", "Parsed an
    extern" or "Parsed a top-level expr") and no error, and having
    printed two prompts for each item and two more. *)
Theorem main_accepts_programs items :
  forallb (well_formed main_table) items = true ->
  exists n s',
    (forall fuel, (n <= fuel)%nat -> main fuel (program items) = Some s') /\
    stderr s' = map report items /\
    stdout s' = repeat "> " (2 * length items + 2) /\
    CurTok s' = EOFToken /\
    same_operators (BinopPrecedence s') main_table.
Proof.
  intros Hwf. destruct main_table_plain as (Hparen & Hcomma & Hsemi).
  destruct (main_loop_program main_table Hparen Hcomma Hsemi items Hwf
              (cout "> " (install_operators (initial (program items)))))
    as (n & s' & Hrun & He & Ho & Hc & Hm).
  - apply same_operators_refl.
  - exists " ". repeat split.
  - exists n, s'. split; [|split; [|split; [|split]]]; try assumption.
    + intros fuel Hf. unfold main.
      destruct (getNextToken _) as [t s1] eqn:E. cbn [snd] in Hrun.
      now apply Hrun.
    + rewrite Ho. cbn [stdout cout install_operators set_BinopPrecedence initial app].
      replace (2 * length items + 2)%nat with (S (2 * length items + 1)) by lia.
      reflexivity.
Qed.

Lemma main_accepts_programs_witness :
  let items :=
    [IDefinition "avg" ["a"; "b"]
       (WBinary "*" (WBinary "+" (WVariable "a") (WVariable "b")) (WNumber "0.5"));
     IExtern "sin" ["x"];
     IExpression (WCall "avg" [WNumber "1"; WCall "sin" [WNumber "2"]])] in
  exists n s',
    (forall fuel, (n <= fuel)%nat -> main fuel (program items) = Some s') /\
    stderr s' = map report items /\
    stdout s' = repeat "> " (2 * length items + 2) /\
    CurTok s' = EOFToken /\
    same_operators (BinopPrecedence s') main_table.
Proof.
  intros items. apply (main_accepts_programs items).
  vm_compute. reflexivity.
Defined.

(** * Precedence climbing on a chain *)

(** ** One operand after another *)

Section chains.
Variable tbl : gmap Z Z.
Variables ws follow : string.
Hypothesis Hparen : binds tbl (chr ")") = false.
Hypothesis Hcomma : binds tbl (chr ",") = false.
Hypothesis Hws : all_chars isspace ws = true.
Hypothesis Hc : closes (fst (getchar follow)) = true.
Hypothesis Hb : binds tbl (fst (getchar follow)) = false.

Lemma operand_then_chain w c s :
  well_written tbl w = true -> well_chained tbl c = true ->
  same_operators (BinopPrecedence s) tbl ->
  at_text s (show w +:+ show_chain c +:+ ws +:+ follow) ->
  parses_to ParsePrimary s w (chain_head c follow) (chain_tail c ws follow).
Proof.
  intros Hw Hwc Hm Hat.
  pose proof (primary_written tbl Hparen Hcomma w Hw) as HP.
  destruct c as [|[op w'] rest].
  - cbn [show_chain] in Hat. strings_in Hat. now apply (HP s ws follow).
  - cbn [show_chain] in Hat. strings_in Hat.
    cbn [well_chained forallb] in Hwc.
    apply andb_true_iff in Hwc as [Hop _].
    apply andb_true_iff in Hop as [Hop _].
    apply andb_true_iff in Hop as [Hop _].
    destruct (HP s " " (String op (String " " (show w' +:+ show_chain rest
                           +:+ ws +:+ follow)))) as (n & s' & Hrun & R);
      [assumption|strings; exact Hat|reflexivity|exact Hop|].
    exists n, s'. split; [exact Hrun|].
    cbn [getchar fst snd chain_head chain_tail] in *. strings. exact R.
Qed.

Lemma GetTokPrecedence_chain c s0 s text :
  well_chained tbl c = true ->
  same_operators (BinopPrecedence s0) tbl ->
  reads s0 s (chain_head c follow) text ->
  exists s1, GetTokPrecedence s = (head_prec tbl c, s1) /\
             reads s0 s1 (chain_head c follow) text.
Proof.
  intros Hwc Hm R.
  destruct (GetTokPrecedence_reads s0 s _ _ R) as (p & s1 & E & R1 & Hp).
  exists s1. split; [|exact R1]. rewrite E. f_equal. subst p.
  rewrite (binds_same _ tbl) by assumption.
  destruct c as [|[op w] rest]; cbn [chain_head head_prec].
  - now rewrite Hb.
  - cbn [well_chained forallb] in Hwc.
    apply andb_true_iff in Hwc as [Hop _].
    apply andb_true_iff in Hop as [Hop _].
    apply andb_true_iff in Hop as [_ Hop]. rewrite Hop. apply Hm.
Qed.

Lemma well_chained_app c1 c2 :
  well_chained tbl (c1 ++ c2)%list = well_chained tbl c1 && well_chained tbl c2.
Proof. apply forallb_app. Qed.

Lemma ParseBinOpRHS_grouped n : forall c, (length c <= n)%nat ->
  forall ExprPrec gl s0 s,
  0 <= ExprPrec ->
  well_chained tbl c = true ->
  ordered tbl gl = true ->
  above false (head_prec tbl c) (root tbl gl) = true ->
  same_operators (BinopPrecedence s0) tbl ->
  reads s0 s (chain_head c follow) (chain_tail c ws follow) ->
  exists fuel0 consumed rest g s',
    c = (consumed ++ rest)%list /\
    (forall fuel, (fuel0 <= fuel)%nat ->
       ParseBinOpRHS fuel ExprPrec (grouped_tree gl) s
         = Some (Some (grouped_tree g), s')) /\
    flatten g = (fst (flatten gl), (snd (flatten gl) ++ consumed)%list) /\
    ordered tbl g = true /\
    head_prec tbl rest < ExprPrec /\
    (g = gl \/
     exists op l r, g = Group op l r /\ ExprPrec <= precedence tbl (chr op)) /\
    reads s0 s' (chain_head rest follow) (chain_tail rest ws follow).
Proof.
  induction n as [|n IH]; intros c Hlen ExprPrec gl s0 s Hp Hwc Hgl Habove Hm R;
    destruct (GetTokPrecedence_chain c s0 s _ Hwc Hm R) as (s1 & E1 & R1).
  1: destruct c as [|[op w] c1]; [|cbn [length] in Hlen; lia].
  2: destruct c as [|[op w] c1].
  1,2: exists 1%nat, [], [], gl, s1;
    (split; [reflexivity|]); (split; [|split; [|split; [|split; [|split]]]]);
    [intros fuel Hf; burn fuel; rewrite ParseBinOpRHS_S, E1;
     cbn [head_prec];
     replace (-1 <? ExprPrec) with true by (symmetry; apply Z.ltb_lt; lia);
     reflexivity
    |rewrite app_nil_r; now destruct (flatten gl)
    |assumption
    |cbn [head_prec]; lia
    |now left
    |exact R1].
  cbn [length] in Hlen. cbn [head_prec] in *.
  set (p := precedence tbl (chr op)) in *.
  destruct (Z.ltb_spec p ExprPrec) as [Hlt|Hge].
  { exists 1%nat, [], ((op, w) :: c1), gl, s1.
    split; [reflexivity|]. split; [|split; [|split; [|split; [|split]]]].
    - intros fuel Hf. burn fuel. rewrite ParseBinOpRHS_S, E1.
      replace (p <? ExprPrec) with true by (symmetry; apply Z.ltb_lt; lia).
      reflexivity.
    - rewrite app_nil_r. now destruct (flatten gl).
    - assumption.
    - cbn [head_prec]. fold p. lia.
    - now left.
    - exact R1. }
  cbn [well_chained forallb] in Hwc. apply andb_true_iff in Hwc as [Hop Hwc1].
  fold (well_chained tbl c1) in Hwc1.
  apply andb_true_iff in Hop as [Hop Hw].
  apply andb_true_iff in Hop as [Hcl Hbind].
  assert (Hpos : 0 < p).
  { unfold binds in Hbind. apply andb_true_iff in Hbind as [_ Hbind].
    now apply Z.ltb_lt. }
  cbn [chain_head chain_tail] in R1.
  destruct (operand_then_chain w c1 s1 Hw Hwc1) as (n1 & s2 & Hrun1 & R2);
    [exact (reads_same _ _ _ _ _ R1 Hm)
    |apply (at_text_blanks s1 " "); [reflexivity|apply R1]|].
  assert (R02 := reads_trans _ _ _ _ _ _ _ R1 R2).
  destruct (GetTokPrecedence_chain c1 s0 s2 _ Hwc1 Hm R02) as (s3 & E3 & R3).
  set (q := head_prec tbl c1) in *.
  assert (Hrhs : exists fuel1 consumed1 rest1 g1 s4,
            c1 = (consumed1 ++ rest1)%list /\
            (forall fuel, (fuel1 <= fuel)%nat ->
               (if p <? q then ParseBinOpRHS fuel (p + 1) (tree w) s3
                else Some (Some (tree w), s3))
               = Some (Some (grouped_tree g1), s4)) /\
            flatten g1 = (w, consumed1) /\ ordered tbl g1 = true /\
            head_prec tbl rest1 <= p /\
            above true p (root tbl g1) = true /\
            reads s0 s4 (chain_head rest1 follow) (chain_tail rest1 ws follow)).
  { destruct (Z.ltb_spec p q) as [Hpq|Hpq].
    - destruct (IH c1 ltac:(lia) (p + 1) (Operand w) s0 s3)
        as (fuel1 & consumed1 & rest1 & g1 & s4 & Ec & Hrun & Hfl & Ho & Hh
            & Hroot & R4); try assumption; try reflexivity; [lia|].
      exists fuel1, consumed1, rest1, g1, s4.
      split; [exact Ec|]. split; [exact Hrun|]. split; [exact Hfl|].
      split; [exact Ho|]. split; [lia|]. split; [|exact R4].
      destruct Hroot as [->|(op' & l & r & -> & Hle)]; [reflexivity|].
      cbn [root above]. apply Z.ltb_lt. lia.
    - exists O, [], c1, (Operand w), s3.
      split; [reflexivity|]. split; [reflexivity|]. split; [reflexivity|].
      split; [reflexivity|]. split; [exact Hpq|]. split; [reflexivity|exact R3]. }
  destruct Hrhs as (fuel1 & consumed1 & rest1 & g1 & s4 & Ec & Hrun2 & Hfl1
                    & Ho1 & Hh1 & Hroot1 & R4).
  assert (Hlen1 : (length rest1 <= n)%nat).
  { assert (length c1 = length consumed1 + length rest1)%nat
      by (rewrite Ec; apply length_app). lia. }
  assert (Hwc2 : well_chained tbl rest1 = true).
  { rewrite Ec, well_chained_app in Hwc1. now apply andb_true_iff in Hwc1. }
  destruct (IH rest1 Hlen1 ExprPrec (Group op gl g1) s0 s4)
    as (fuel2 & consumed2 & rest2 & g2 & s5 & Ec2 & Hrun3 & Hfl2 & Ho2 & Hh2
        & Hroot2 & R5); try assumption.
  { cbn [ordered]. fold p. now rewrite Hgl, Ho1, Habove, Hroot1. }
  { cbn [root above]. fold p. apply Z.leb_le. exact Hh1. }
  exists (S (n1 + fuel1 + fuel2)), ((op, w) :: consumed1 ++ consumed2)%list,
    rest2, g2, s5.
  split; [|split; [|split; [|split; [|split; [|split]]]]]; try assumption.
  - rewrite Ec, Ec2. cbn [app]. now rewrite app_assoc.
  - intros fuel Hf. burn fuel. rewrite ParseBinOpRHS_S, E1.
    replace (p <? ExprPrec) with false by (symmetry; apply Z.ltb_ge; lia).
    cbv zeta. destruct (getNextToken s1) as [t1 s1'] eqn:E1'.
    cbn [snd] in Hrun1. rewrite Hrun1 by lia. rewrite E3.
    rewrite Hrun2 by lia.
    rewrite (reads_CurTok _ _ _ _ R1), char_of_int_chr.
    apply (Hrun3 fuel). lia.
  - rewrite Hfl2. cbn [flatten fst snd]. rewrite Hfl1. cbn [fst snd].
    f_equal. rewrite <- app_assoc. reflexivity.
  - destruct Hroot2 as [->|H]; [|now right].
    right. exists op, gl, g1. split; [reflexivity|exact Hge].
Qed.

End chains.

(** ** The grouping is determined *)

Lemma ordered_operators m g : forall strict p,
  ordered m g = true -> above strict p (root m g) = true ->
  Forall (fun '(op, _) => if strict then p < precedence m (chr op)
                          else p <= precedence m (chr op))
         (snd (flatten g)).
Proof.
  induction g as [w|op l IHl r IHr]; intros strict p Ho Ha; cbn [flatten snd].
  - constructor.
  - cbn [ordered] in Ho. apply andb_true_iff in Ho as [Ho Hr].
    apply andb_true_iff in Ho as [Ho Hl]. apply andb_true_iff in Ho as [Ho1 Ho2].
    cbn [root above] in Ha.
    specialize (IHl false _ Ho1 Hl). specialize (IHr true _ Ho2 Hr).
    assert (Hp : if strict then p < precedence m (chr op)
                 else p <= precedence m (chr op)).
    { destruct strict; [now apply Z.ltb_lt|now apply Z.leb_le]. }
    apply Forall_app. split; [|constructor].
    + eapply Forall_impl; [exact IHl|]. intros [o' w'] H.
      destruct strict; cbn beta iota in *; lia.
    + exact Hp.
    + eapply Forall_impl; [exact IHr|]. intros [o' w'] H.
      destruct strict; cbn beta iota in *; lia.
Qed.

Lemma ordered_unique m g1 : forall g2,
  ordered m g1 = true -> ordered m g2 = true -> flatten g1 = flatten g2 ->
  g1 = g2.
Proof.
  induction g1 as [w1|op1 l1 IHl r1 IHr]; intros [w2|op2 l2 r2] H1 H2 E;
    cbn [flatten] in E.
  - now injection E as ->.
  - injection E as _ E. now apply app_cons_not_nil in E.
  - injection E as _ E. symmetry in E. now apply app_cons_not_nil in E.
  - injection E as Ef E.
    assert (L1 := ordered_operators m (Group op1 l1 r1)).
    assert (L2 := ordered_operators m (Group op2 l2 r2)).
    cbn [ordered] in H1, H2.
    apply andb_true_iff in H1 as [H1 Hr1]. apply andb_true_iff in H1 as [H1 Hl1].
    apply andb_true_iff in H1 as [Ho1 Ho1'].
    apply andb_true_iff in H2 as [H2 Hr2]. apply andb_true_iff in H2 as [H2 Hl2].
    apply andb_true_iff in H2 as [Ho2 Ho2'].
    pose proof (ordered_operators m l1 false _ Ho1 Hl1) as A1.
    pose proof (ordered_operators m r1 true _ Ho1' Hr1) as B1.
    pose proof (ordered_operators m l2 false _ Ho2 Hl2) as A2.
    pose proof (ordered_operators m r2 true _ Ho2' Hr2) as B2.
    clear L1 L2.
    assert (Esplit : snd (flatten l1) = snd (flatten l2) /\
                     (op1, fst (flatten r1)) = (op2, fst (flatten r2)) /\
                     snd (flatten r1) = snd (flatten r2)).
    { apply app_eq_app in E as [mid [[Ea Eb]|[Ea Eb]]].
      - destruct mid as [|y mid].
        + rewrite app_nil_r in Ea. cbn [app] in Eb.
          injection Eb as -> ->. auto.
        + exfalso. cbn [app] in Eb. injection Eb as <- Eb.
          rewrite Ea in A1. apply Forall_app in A1 as [_ A1].
          apply Forall_cons in A1 as [A1 _].
          rewrite Eb in B2. apply Forall_app in B2 as [_ B2].
          apply Forall_cons in B2 as [B2 _]. cbn beta iota in *. lia.
      - destruct mid as [|y mid].
        + rewrite app_nil_r in Ea. cbn [app] in Eb.
          injection Eb as -> ->. auto.
        + exfalso. cbn [app] in Eb. injection Eb as <- Eb.
          rewrite Ea in A2. apply Forall_app in A2 as [_ A2].
          apply Forall_cons in A2 as [A2 _].
          rewrite Eb in B1. apply Forall_app in B1 as [_ B1].
          apply Forall_cons in B1 as [B1 _]. cbn beta iota in *. lia. }
    destruct Esplit as (Ea & Ex & Eb). injection Ex as -> Ex.
    f_equal.
    + apply IHl; try assumption.
      destruct (flatten l1), (flatten l2). cbn [fst snd] in *. congruence.
    + apply IHr; try assumption.
      destruct (flatten r1), (flatten r2). cbn [fst snd] in *. congruence.
Qed.

(** ** The expression of a chain *)

Lemma ParseExpression_chain tbl ws follow w c s :
  binds tbl (chr ")") = false -> binds tbl (chr ",") = false ->
  all_chars isspace ws = true ->
  closes (fst (getchar follow)) = true ->
  binds tbl (fst (getchar follow)) = false ->
  well_written tbl w = true -> well_chained tbl c = true ->
  same_operators (BinopPrecedence s) tbl ->
  at_text s (show w +:+ show_chain c +:+ ws +:+ follow) ->
  exists n g s',
    (forall fuel, (n <= fuel)%nat ->
       ParseExpression fuel (snd (getNextToken s))
         = Some (Some (grouped_tree g), s')) /\
    flatten g = (w, c) /\ ordered tbl g = true /\
    reads s s' (fst (getchar follow)) (snd (getchar follow)).
Proof.
  intros Hparen Hcomma Hws Hc Hb Hw Hwc Hm Hat.
  destruct (operand_then_chain tbl ws follow Hparen Hcomma Hws Hc w c s
              Hw Hwc Hm Hat) as (n1 & s1 & Hrun1 & R1).
  destruct (ParseBinOpRHS_grouped tbl ws follow Hparen Hcomma Hws Hc Hb
              (length c) c (Nat.le_refl _) 0 (Operand w) s s1)
    as (n2 & consumed & rest & g & s' & Ec & Hrun2 & Hfl & Ho & Hh & _ & R2);
    try assumption; try reflexivity.
  cbn [flatten fst snd app] in Hfl.
  assert (rest = []) as ->.
  { destruct rest as [|[op w'] rest]; [reflexivity|exfalso].
    rewrite Ec, well_chained_app in Hwc. apply andb_true_iff in Hwc as [_ Hwc].
    cbn [well_chained forallb] in Hwc. apply andb_true_iff in Hwc as [Hop _].
    apply andb_true_iff in Hop as [Hop _]. apply andb_true_iff in Hop as [_ Hop].
    unfold binds in Hop. apply andb_true_iff in Hop as [_ Hop].
    apply Z.ltb_lt in Hop. cbn [head_prec] in Hh. lia. }
  rewrite app_nil_r in Ec. subst consumed.
  exists (S (n1 + n2)), g, s'. split; [|split; [|split]]; try assumption.
  intros fuel Hf. burn fuel. rewrite ParseExpression_S, Hrun1 by lia.
  apply Hrun2. lia.
Qed.

Lemma parser_start_wf tbl inp : lex_wf (parser_start tbl inp).
Proof.
  unfold parser_start.
  destruct (getNextToken _) as [t s1] eqn:E.
  assert (W0 : lex_wf (set_BinopPrecedence tbl (initial inp)))
    by (vm_compute; split; discriminate).
  now destruct (getNextToken_quiet _ _ _ W0 E) as ([] & _).
Qed.

Lemma ParseExpression_enough s r n fuel :
  lex_wf s ->
  (forall f, (n <= f)%nat -> ParseExpression f s = Some r) ->
  (4 * remaining s + 3 <= fuel)%nat -> ParseExpression fuel s = Some r.
Proof.
  intros W Hrun Hf. rewrite <- (Hrun (Nat.max fuel n)) by lia.
  symmetry. apply ParseExpression_ge; [lia|].
  now apply ParseExpression_terminates.
Qed.

(** X19: a chain of operands is grouped by precedence, to the left among
    equals.  On a first operand followed by operators of the table, each
    with its operand (the operands are well-written expressions, binary
    ones in their parentheses), [ParseExpression] answers the tree of a
    grouping that keeps the operands and operators in the order written
    and in which, at every operator, the left operand is grouped by
    operators of at least its precedence and the right operand by
    operators of strictly greater precedence; there is exactly one such
    grouping.  Nothing is written, and the token after the chain is left
    as the current one. *)
Theorem chain_grouped_by_precedence tbl w c ws follow fuel :
  well_written tbl w = true -> well_chained tbl c = true ->
  binds tbl (chr ")") = false -> binds tbl (chr ",") = false ->
  all_chars isspace ws = true ->
  closes (fst (getchar follow)) = true ->
  binds tbl (fst (getchar follow)) = false ->
  let s := parser_start tbl (show w +:+ show_chain c +:+ ws +:+ follow) in
  (4 * remaining s + 3 <= fuel)%nat ->
  exists g s',
    ParseExpression fuel s = Some (Some (grouped_tree g), s') /\
    flatten g = (w, c) /\ ordered tbl g = true /\
    (forall g', flatten g' = (w, c) -> ordered tbl g' = true -> g' = g) /\
    CurTok s' = fst (getchar follow) /\ stderr s' = [] /\ stdout s' = [].
Proof.
  intros Hw Hwc Hparen Hcomma Hws Hc Hb s Hf.
  destruct (ParseExpression_chain tbl ws follow w c
              (set_BinopPrecedence tbl (initial (show w +:+ show_chain c
                                                  +:+ ws +:+ follow))))
    as (n & g & s' & Hrun & Hfl & Ho & [R1 R2 R3 R4 R5]); try assumption;
    [apply same_operators_refl|apply at_text_initial|].
  exists g, s'. split; [|split; [|split; [|split; [|split; [|split]]]]];
    try assumption.
  - apply (ParseExpression_enough s _ n); [apply parser_start_wf|exact Hrun|exact Hf].
  - intros g' Hfl' Ho'. apply (ordered_unique tbl); congruence.
Qed.

Lemma chain_grouped_by_precedence_witness :
  let w := WVariable "a" in
  let c := [("+"%char, WVariable "b"); ("*"%char, WNumber "2");
            ("-"%char, WCall "f" [WVariable "c"]);
            ("<"%char, WBinary "+" (WVariable "d") (WNumber "1"))] in
  let s := parser_start main_table (show w +:+ show_chain c +:+ "" +:+ ";") in
  exists g s',
    ParseExpression 400 s = Some (Some (grouped_tree g), s') /\
    flatten g = (w, c) /\ ordered main_table g = true /\
    (forall g', flatten g' = (w, c) -> ordered main_table g' = true -> g' = g) /\
    CurTok s' = chr ";" /\ stderr s' = [] /\ stdout s' = [].
Proof.
  intros w c s.
  apply (chain_grouped_by_precedence main_table w c "" ";" 400);
    try (vm_compute; reflexivity).
  vm_compute. lia.
Defined.

Lemma left_grouping_flatten c : forall g,
  flatten (left_grouping g c) = (fst (flatten g), (snd (flatten g) ++ c)%list).
Proof.
  induction c as [|[op w] c IH]; intros g; cbn [left_grouping fold_left].
  - rewrite app_nil_r. now destruct (flatten g).
  - fold (left_grouping (Group op g (Operand w)) c). rewrite IH.
    cbn [flatten fst snd]. now rewrite <- app_assoc.
Qed.

Lemma left_grouping_ordered m c : forall g,
  ordered m g = true -> above false (head_prec m c) (root m g) = true ->
  never_rises m c = true -> ordered m (left_grouping g c) = true.
Proof.
  induction c as [|[op w] c IH]; intros g Ho Ha Hn;
    cbn [left_grouping fold_left]; [assumption|].
  fold (left_grouping (Group op g (Operand w)) c).
  cbn [never_rises] in Hn. apply andb_true_iff in Hn as [Hn1 Hn2].
  cbn [head_prec] in Ha.
  apply IH; [|exact Hn1|exact Hn2].
  cbn [ordered root above]. now rewrite Ho, Ha.
Qed.

Lemma left_grouping_tree c : forall g,
  grouped_tree (left_grouping g c) = tree_left (grouped_tree g) c.
Proof.
  induction c as [|[op w] c IH]; intros g; [reflexivity|].
  cbn [left_grouping tree_left fold_left].
  fold (left_grouping (Group op g (Operand w)) c). now rewrite IH.
Qed.

Lemma right_grouping_flatten c : forall w,
  flatten (right_grouping w c) = (w, c).
Proof.
  induction c as [|[op w'] c IH]; intros w; [reflexivity|].
  cbn [right_grouping flatten fst snd]. now rewrite IH.
Qed.

Lemma right_grouping_ordered m c : forall w,
  always_rises m c = true -> ordered m (right_grouping w c) = true.
Proof.
  induction c as [|[op w'] c IH]; intros w Hr; [reflexivity|].
  cbn [always_rises] in Hr. apply andb_true_iff in Hr as [Hr1 Hr2].
  cbn [right_grouping ordered root above]. rewrite (IH w' Hr2).
  destruct c as [|[op2 w2] c]; [reflexivity|].
  cbn [right_grouping root above head_prec] in *. now rewrite Hr1.
Qed.

Lemma right_grouping_tree c : forall w,
  grouped_tree (right_grouping w c) = tree_right (tree w) c.
Proof.
  induction c as [|[op w'] c IH]; intros w; [reflexivity|].
  cbn [right_grouping grouped_tree tree_right]. now rewrite IH.
Qed.

(** X20: operators that never bind tighter than the one before them
    group to the left.  When no operator of the chain has a greater
    precedence than its predecessor (all equal, as in "a - b + c", or
    falling, as in "a * b + c < d"), [ParseExpression] answers the tree
    in which every operator takes everything before it as its left
    operand. *)
Theorem falling_chain_groups_left tbl w c ws follow fuel :
  well_written tbl w = true -> well_chained tbl c = true ->
  never_rises tbl c = true ->
  binds tbl (chr ")") = false -> binds tbl (chr ",") = false ->
  all_chars isspace ws = true ->
  closes (fst (getchar follow)) = true ->
  binds tbl (fst (getchar follow)) = false ->
  let s := parser_start tbl (show w +:+ show_chain c +:+ ws +:+ follow) in
  (4 * remaining s + 3 <= fuel)%nat ->
  exists s',
    ParseExpression fuel s = Some (Some (tree_left (tree w) c), s') /\
    CurTok s' = fst (getchar follow) /\ stderr s' = [] /\ stdout s' = [].
Proof.
  intros Hw Hwc Hn Hparen Hcomma Hws Hc Hb s Hf.
  destruct (ParseExpression_chain tbl ws follow w c
              (set_BinopPrecedence tbl (initial (show w +:+ show_chain c
                                                  +:+ ws +:+ follow))))
    as (n & g & s' & Hrun & Hfl & Ho & [R1 R2 R3 R4 R5]); try assumption;
    [apply same_operators_refl|apply at_text_initial|].
  assert (g = left_grouping (Operand w) c) as ->.
  { apply (ordered_unique tbl); [assumption| |].
    - now apply left_grouping_ordered.
    - now rewrite Hfl, left_grouping_flatten. }
  rewrite left_grouping_tree in Hrun.
  exists s'. split; [|auto].
  apply (ParseExpression_enough s _ n); [apply parser_start_wf|exact Hrun|exact Hf].
Qed.

Lemma falling_chain_groups_left_witness :
  let w := WVariable "a" in
  let c := [("*"%char, WVariable "b"); ("-"%char, WNumber "2");
            ("+"%char, WVariable "c"); ("<"%char, WVariable "d")] in
  let s := parser_start main_table (show w +:+ show_chain c +:+ "" +:+ ";") in
  exists s',
    ParseExpression 400 s = Some (Some (tree_left (tree w) c), s') /\
    CurTok s' = chr ";" /\ stderr s' = [] /\ stdout s' = [].
Proof.
  intros w c s.
  apply (falling_chain_groups_left main_table w c "" ";" 400);
    try (vm_compute; reflexivity).
  vm_compute. lia.
Defined.

(** X21: operators that each bind tighter than the one before them group
    to the right.  When every operator of the chain has a greater
    precedence than its predecessor (as in "a < b + c * d"),
    [ParseExpression] answers the tree in which every operator takes
    everything after it as its right operand. *)
Theorem rising_chain_groups_right tbl w c ws follow fuel :
  well_written tbl w = true -> well_chained tbl c = true ->
  always_rises tbl c = true ->
  binds tbl (chr ")") = false -> binds tbl (chr ",") = false ->
  all_chars isspace ws = true ->
  closes (fst (getchar follow)) = true ->
  binds tbl (fst (getchar follow)) = false ->
  let s := parser_start tbl (show w +:+ show_chain c +:+ ws +:+ follow) in
  (4 * remaining s + 3 <= fuel)%nat ->
  exists s',
    ParseExpression fuel s = Some (Some (tree_right (tree w) c), s') /\
    CurTok s' = fst (getchar follow) /\ stderr s' = [] /\ stdout s' = [].
Proof.
  intros Hw Hwc Hn Hparen Hcomma Hws Hc Hb s Hf.
  destruct (ParseExpression_chain tbl ws follow w c
              (set_BinopPrecedence tbl (initial (show w +:+ show_chain c
                                                  +:+ ws +:+ follow))))
    as (n & g & s' & Hrun & Hfl & Ho & [R1 R2 R3 R4 R5]); try assumption;
    [apply same_operators_refl|apply at_text_initial|].
  assert (g = right_grouping w c) as ->.
  { apply (ordered_unique tbl); [assumption| |].
    - now apply right_grouping_ordered.
    - now rewrite Hfl, right_grouping_flatten. }
  rewrite right_grouping_tree in Hrun.
  exists s'. split; [|auto].
  apply (ParseExpression_enough s _ n); [apply parser_start_wf|exact Hrun|exact Hf].
Qed.

Lemma rising_chain_groups_right_witness :
  let w := WVariable "a" in
  let c := [("<"%char, WVariable "b"); ("+"%char, WNumber "2");
            ("*"%char, WVariable "c")] in
  let s := parser_start main_table (show w +:+ show_chain c +:+ "" +:+ ";") in
  exists s',
    ParseExpression 400 s = Some (Some (tree_right (tree w) c), s') /\
    CurTok s' = chr ";" /\ stderr s' = [] /\ stdout s' = [].
Proof.
  intros w c s.
  apply (rising_chain_groups_right main_table w c "" ";" 400);
    try (vm_compute; reflexivity).
  vm_compute. lia.
Defined.
